(** * smhash: the SHA-256 reference hash, the BlockHash ARX hash and the
    nonce searches built on them.

    The development embeds [sha256.py], [smhash.py] and [miner.py].
    Python integers are [Z] with every mask written out, [bytes] and
    [bytearray] values are [list byte], hexadecimal digests are [string],
    and Python [str] arguments that get encoded are lists of code points.
    The list object behind [BlockHash.state] is mutated in place and
    copied with [.copy()], so it lives in a store of list objects and the
    engine record holds a reference to it. *)

From Stdlib Require Import ZArith List Lia.
From Stdlib Require Import Strings.String Strings.Ascii Init.Byte.
From Stdlib Require Import DecimalString.
From Stdlib Require DecimalZ DecimalPos.
From stdpp Require Import base option list gmap.

Import ListNotations.
Local Open Scope Z_scope.

(** ** Python values and exceptions *)

Inductive exn : Type :=
| StructError
| OverflowError
| IndexError
| ValueError
| AttributeError
| UnicodeEncodeError
| NoSuchObject    (* a reference outside the store: no Python program has one *)
| FuelExhausted.  (* a bounded loop of the model ran past its bound *)

Inductive result (A : Type) : Type :=
| Ok (a : A)
| Raise (e : exn).

Arguments Ok {A} a.
Arguments Raise {A} e.

Definition bindR {A B : Type} (m : result A) (k : A -> result B) : result B :=
  match m with
  | Ok a => k a
  | Raise e => Raise e
  end.

Notation "x <- m ;; k" := (bindR m (fun x => k))
  (at level 100, m at level 99, right associativity).

Abbreviation bytes := (list byte).

Definition byte_val (b : byte) : Z := Z.of_N (Byte.to_N b).

Definition byte_of_Z (z : Z) : byte :=
  match Byte.of_N (Z.to_N (z mod 256)) with
  | Some b => b
  | None => x00
  end.

(** [l[i]] for a non-negative index. *)
Definition getitem {A : Type} (l : list A) (i : nat) : result A :=
  match l !! i with
  | Some a => Ok a
  | None => Raise IndexError
  end.

(** [l[i] = v] for a non-negative index. *)
Definition setitem {A : Type} (l : list A) (i : nat) (v : A) : result (list A) :=
  if decide (i < length l)%nat then Ok (<[i:=v]> l) else Raise IndexError.

(** [b[lo:hi]] for non-negative bounds. *)
Definition slice {A : Type} (l : list A) (lo hi : nat) : list A :=
  take (hi - lo) (drop lo l).

(** [int.from_bytes(b, 'big')]. *)
Definition from_bytes_big (b : bytes) : Z :=
  fold_left (fun acc x => acc * 256 + byte_val x) b 0.

(** The [n] low-order bytes of [x], most significant first. *)
Fixpoint be_bytes (n : nat) (x : Z) : bytes :=
  match n with
  | O => []
  | S n' => be_bytes n' (x / 256) ++ [byte_of_Z x]
  end.

(** [x.to_bytes(n, 'big')]: unsigned, so a negative or too wide [x] raises. *)
Definition to_bytes_big (n : nat) (x : Z) : result bytes :=
  if (0 <=? x) && (x <? 256 ^ Z.of_nat n) then Ok (be_bytes n x)
  else Raise OverflowError.

(** Lowercase hexadecimal digits. *)
Definition hex_digit (d : Z) : ascii :=
  nth (Z.to_nat d)
      (list_ascii_of_string "0123456789abcdef") "0"%char.

(** The [n] low-order hexadecimal digits of [x], most significant first. *)
Fixpoint hex_digits (n : nat) (x : Z) : list ascii :=
  match n with
  | O => []
  | S n' => hex_digits n' (x / 16) ++ [hex_digit (x mod 16)]
  end.

(** Number of hexadecimal digits Python prints for [x >= 0]. *)
Definition hex_width (x : Z) : nat :=
  if x =? 0 then 1%nat else Z.to_nat (Z.log2 x / 4 + 1).

(** [f'{x:08x}']: zero padded to width 8, sign included. *)
Definition format_08x (x : Z) : string :=
  if x <? 0
  then String "-" (string_of_list_ascii
                     (hex_digits (Nat.max 7 (hex_width (- x))) (- x)))
  else string_of_list_ascii (hex_digits (Nat.max 8 (hex_width x)) x).

(** [b.hex()]. *)
Definition bytes_hex (b : bytes) : string :=
  string_of_list_ascii
    (flat_map (fun x => hex_digits 2 (byte_val x)) b).

(** [''.join(parts)]. *)
Definition str_join (parts : list string) : string :=
  fold_right String.append EmptyString parts.

(** [n] copies of the character [c]; none when [n <= 0]. *)
Definition repeated (c : ascii) (n : Z) : string :=
  string_of_list_ascii (repeat c (Z.to_nat n)).

(** [c * n] for a one-character string [c]. CPython first converts the
    count to an index, a signed 64-bit integer on a 64-bit build, and
    raises [OverflowError] when it does not fit, also for a negative
    count; a count that fits gives the copies, none when [n <= 0]. Memory
    is not bounded here: the [MemoryError] of a count that fits but asks
    for more than the machine has is not modelled. *)
Definition str_repeat (c : ascii) (n : Z) : result string :=
  if (- 2 ^ 63 <=? n) && (n <? 2 ^ 63) then Ok (repeated c n)
  else Raise OverflowError.

(** [s.startswith(t)]. *)
Definition startswith (s t : string) : bool := String.prefix t s.

(** [str(n)] for an integer. *)
Definition str_of_int (n : Z) : string :=
  NilZero.string_of_int (Z.to_int n).

(** A Python [str] as its code points. *)
Abbreviation pystr := (list N).

Definition pystr_of_string (s : string) : pystr :=
  map N_of_ascii (list_ascii_of_string s).

(** [s.encode('utf-8')] for one code point; lone surrogates are refused. *)
Definition utf8_encode_cp (c : N) : result bytes :=
  let b (n : N) := byte_of_Z (Z.of_N n) in
  if (c <? 0x80)%N then Ok [b c]
  else if (c <? 0x800)%N then
    Ok [b (0xC0 + c / 0x40)%N; b (0x80 + c mod 0x40)%N]
  else if (c <? 0x10000)%N then
    if ((0xD800 <=? c) && (c <? 0xE000))%N then Raise UnicodeEncodeError
    else Ok [b (0xE0 + c / 0x1000)%N;
             b (0x80 + (c / 0x40) mod 0x40)%N;
             b (0x80 + c mod 0x40)%N]
  else if (c <? 0x110000)%N then
    Ok [b (0xF0 + c / 0x40000)%N;
        b (0x80 + (c / 0x1000) mod 0x40)%N;
        b (0x80 + (c / 0x40) mod 0x40)%N;
        b (0x80 + c mod 0x40)%N]
  else Raise ValueError.

Fixpoint utf8_encode (s : pystr) : result bytes :=
  match s with
  | [] => Ok []
  | c :: s' =>
      hd <- utf8_encode_cp c ;;
      tl <- utf8_encode s' ;;
      Ok (hd ++ tl)
  end.

(** A monadic [for i in range(lo, lo + n)] threading a loop state. *)
Fixpoint for_range {St : Type} (lo n : nat) (body : nat -> St -> result St)
         (s : St) : result St :=
  match n with
  | O => Ok s
  | S n' => s' <- body lo s ;; for_range (S lo) n' body s'
  end.

(** ** sha256.py *)

Module SHA256.

(** The two attributes of a [SHA256] object; [k] is laid out in the
    eight rows of eight constants of the source. *)
Record t : Type := { h : list Z; k : list Z }.

Definition __init__ : t :=
  {| h := [ 0x6a09e667; 0xbb67ae85; 0x3c6ef372; 0xa54ff53a;
            0x510e527f; 0x9b05688c; 0x1f83d9ab; 0x5be0cd19 ];
     k := [0x428a2f98; 0x71374491; 0xb5c0fbcf; 0xe9b5dba5;
           0x3956c25b; 0x59f111f1; 0x923f82a4; 0xab1c5ed5]
          ++ [0xd807aa98; 0x12835b01; 0x243185be; 0x550c7dc3;
              0x72be5d74; 0x80deb1fe; 0x9bdc06a7; 0xc19bf174]
          ++ [0xe49b69c1; 0xefbe4786; 0x0fc19dc6; 0x240ca1cc;
              0x2de92c6f; 0x4a7484aa; 0x5cb0a9dc; 0x76f988da]
          ++ [0x983e5152; 0xa831c66d; 0xb00327c8; 0xbf597fc7;
              0xc6e00bf3; 0xd5a79147; 0x06ca6351; 0x14292967]
          ++ [0x27b70a85; 0x2e1b2138; 0x4d2c6dfc; 0x53380d13;
              0x650a7354; 0x766a0abb; 0x81c2c92e; 0x92722c85]
          ++ [0xa2bfe8a1; 0xa81a664b; 0xc24b8b70; 0xc76c51a3;
              0xd192e819; 0xd6990624; 0xf40e3585; 0x106aa070]
          ++ [0x19a4c116; 0x1e376c08; 0x2748774c; 0x34b0bcb5;
              0x391c0cb3; 0x4ed8aa4a; 0x5b9cca4f; 0x682e6ff3]
          ++ [0x748f82ee; 0x78a5636f; 0x84c87814; 0x8cc70208;
              0x90befffa; 0xa4506ceb; 0xbef9a3f7; 0xc67178f2] |}.

Definition _right_rotate (x n : Z) : Z :=
  Z.land (Z.lor (Z.shiftr x n) (Z.shiftl x (32 - n))) 0xFFFFFFFF.

Definition _sha256_functions (x y z : Z) (operation : string) : Z :=
  if String.eqb operation "Ch"
  then Z.lxor (Z.land x y) (Z.land (Z.lnot x) z)
  else Z.lxor (Z.lxor (Z.land x y) (Z.land x z)) (Z.land y z).

Definition _sigma (x : Z) (operation : string) : Z :=
  if String.eqb operation "big_0" then
    Z.lxor (Z.lxor (_right_rotate x 2) (_right_rotate x 13))
           (_right_rotate x 22)
  else if String.eqb operation "big_1" then
    Z.lxor (Z.lxor (_right_rotate x 6) (_right_rotate x 11))
           (_right_rotate x 25)
  else if String.eqb operation "small_0" then
    Z.lxor (Z.lxor (_right_rotate x 7) (_right_rotate x 18))
           (Z.shiftr x 3)
  else
    Z.lxor (Z.lxor (_right_rotate x 17) (_right_rotate x 19))
           (Z.shiftr x 10).

(** The [while] loop of [_pad_message]; it needs at most 63 rounds. *)
Fixpoint pad_zeros (fuel : nat) (message : bytes) : option bytes :=
  if ((Z.of_nat (length message) * 8 + 64) mod 512 =? 0) then Some message
  else match fuel with
       | O => None
       | S fuel' => pad_zeros fuel' (message ++ [x00])
       end.

Definition _pad_message (message : bytes) : result bytes :=
  let message_len := Z.of_nat (length message) * 8 in
  let message := message ++ [x80] in
  match pad_zeros 64 message with
  | Some message =>
      len <- to_bytes_big 8 message_len ;;
      Ok (message ++ len)
  | None => Raise FuelExhausted
  end.

(** First loop of [_process_block]: the sixteen block words. *)
Definition load_word (block : bytes) (i : nat) (w : list Z)
  : result (list Z) :=
  setitem w i (from_bytes_big (slice block (i * 4) ((i + 1) * 4))).

(** Second loop: the message schedule extension. *)
Definition extend_word (i : nat) (w : list Z) : result (list Z) :=
  w15 <- getitem w (i - 15) ;;
  w2 <- getitem w (i - 2) ;;
  let s0 := _sigma w15 "small_0" in
  let s1 := _sigma w2 "small_1" in
  w16 <- getitem w (i - 16) ;;
  w7 <- getitem w (i - 7) ;;
  setitem w i (Z.land (w16 + s0 + w7 + s1) 0xFFFFFFFF).

Definition regs : Type := (Z * Z * Z * Z * Z * Z * Z * Z)%type.

(** One iteration of the main loop. *)
Definition round (k w : list Z) (i : nat) (r : regs) : result regs :=
  let '(a, b, c, d, e, f, g, h) := r in
  let S1 := _sigma e "big_1" in
  let ch := _sha256_functions e f g "Ch" in
  ki <- getitem k i ;;
  wi <- getitem w i ;;
  let temp1 := Z.land (h + S1 + ch + ki + wi) 0xFFFFFFFF in
  let S0 := _sigma a "big_0" in
  let maj := _sha256_functions a b c "Maj" in
  let temp2 := Z.land (S0 + maj) 0xFFFFFFFF in
  Ok (Z.land (temp1 + temp2) 0xFFFFFFFF, a, b, c,
      Z.land (d + temp1) 0xFFFFFFFF, e, f, g).

(** [zip] of two lists, as Python truncates to the shorter one. *)
Definition zip_add (xs ys : list Z) : list Z :=
  map (fun p => Z.land (fst p + snd p) 0xFFFFFFFF) (combine xs ys).

Definition _process_block (self : t) (block : bytes) : result t :=
  let w := repeat 0 64 in
  w <- for_range 0 16 (load_word block) w ;;
  w <- for_range 16 48 extend_word w ;;
  match h self with
  | [a; b; c; d; e; f; g; hh] =>
      r <- for_range 0 64 (round (k self) w) (a, b, c, d, e, f, g, hh) ;;
      let '(a, b, c, d, e, f, g, hh) := r in
      Ok {| h := zip_add (h self) [a; b; c; d; e; f; g; hh];
            k := k self |}
  | _ => Raise ValueError
  end.

(** [for i in range(0, len(padded), 64): self._process_block(...)]. *)
Fixpoint process_blocks (n : nat) (i : nat) (padded : bytes) (self : t)
  : result t :=
  match n with
  | O => Ok self
  | S n' =>
      self <- _process_block self (slice padded i (i + 64)) ;;
      process_blocks n' (i + 64) padded self
  end.

(** Number of values in [range(0, n, 64)]. *)
Definition range_count (n : nat) : nat := (n + 63) / 64.

(** [hash] returns the digest and leaves the object updated. *)
Definition hash (self : t) (message : bytes) : result (string * t) :=
  let self := __init__ in
  padded <- _pad_message message ;;
  self <- process_blocks (range_count (length padded)) 0 padded self ;;
  Ok (str_join (map format_08x (h self)), self).

(** Module-level [hash_string] and [hash_bytes]. *)
Definition hash_string (text : pystr) : result string :=
  let sha256 := __init__ in
  data <- utf8_encode text ;;
  r <- hash sha256 data ;;
  Ok (fst r).

Definition hash_bytes (byte_data : bytes) : result string :=
  let sha256 := __init__ in
  r <- hash sha256 byte_data ;;
  Ok (fst r).

End SHA256.

(** ** smhash.py *)

Inductive MiningMode : Type := FAST | STANDARD | SECURE.

(** What [update] accepts: [Union[bytes, bytearray, str]]. *)
Inductive pydata : Type :=
| PyBytes (b : bytes)
| PyStr (s : pystr).

(** The store of list objects: a reference names one mutable list. *)
Abbreviation loc := positive.
Abbreviation heap := (gmap positive (list Z)).

Definition M (A : Type) : Type := heap -> result (A * heap).

Definition ret {A : Type} (a : A) : M A := fun σ => Ok (a, σ).

Definition bindM {A B : Type} (m : M A) (k : A -> M B) : M B :=
  fun σ => match m σ with
           | Ok (a, σ') => k a σ'
           | Raise e => Raise e
           end.

Definition lift {A : Type} (r : result A) : M A :=
  fun σ => match r with
           | Ok a => Ok (a, σ)
           | Raise e => Raise e
           end.

Notation "x <~ m ;; k" := (bindM m (fun x => k))
  (at level 100, m at level 99, right associativity).

(** A new list object holding [l]. *)
Definition alloc (l : list Z) : M loc :=
  fun σ => let r := fresh (dom σ) in Ok (r, <[r:=l]> σ).

(** The whole list behind a reference. *)
Definition read_list (r : loc) : M (list Z) :=
  fun σ => match σ !! r with
           | Some l => Ok (l, σ)
           | None => Raise NoSuchObject
           end.

(** [r[i]]. *)
Definition load (r : loc) (i : nat) : M Z :=
  l <~ read_list r ;; lift (getitem l i).

(** [r[i] = v]. *)
Definition store (r : loc) (i : nat) (v : Z) : M unit :=
  l <~ read_list r ;;
  l' <~ lift (setitem l i v) ;;
  fun σ => Ok (tt, <[r:=l']> σ).

(** [r.copy()]. *)
Definition list_copy (r : loc) : M loc :=
  l <~ read_list r ;; alloc l.

(** [for _ in range(n): body]. *)
Fixpoint repeatM (n : nat) (body : M unit) : M unit :=
  match n with
  | O => ret tt
  | S n' => _ <~ body ;; repeatM n' body
  end.

(** [struct.unpack('>QQQQQQQQ', block)]: exactly 64 bytes or an error. *)
Definition unpack_8Q (block : bytes)
  : result (Z * Z * Z * Z * Z * Z * Z * Z) :=
  if decide (length block = 64%nat) then
    let q (i : nat) := from_bytes_big (slice block (8 * i) (8 * i + 8)) in
    Ok (q 0%nat, q 1%nat, q 2%nat, q 3%nat, q 4%nat, q 5%nat, q 6%nat, q 7%nat)
  else Raise StructError.

(** Little-endian bytes of [x], as the ['<'] formats lay them out. *)
Definition le_bytes (n : nat) (x : Z) : bytes := rev (be_bytes n x).

(** The ['I'] format: an unsigned 32-bit field, range checked. *)
Definition pack_I (x : Z) : result bytes :=
  if (0 <=? x) && (x <=? 0xFFFFFFFF) then Ok (le_bytes 4 x)
  else Raise StructError.

(** The ['32s'] format: too long is cut, too short is filled with zeros. *)
Definition pack_32s (b : bytes) : bytes :=
  take 32 b ++ repeat x00 (32 - length b).

(** [struct.pack('<I32s32sIII', ...)]. *)
Definition pack_header (version : Z) (prev_hash merkle_root : bytes)
           (timestamp bits nonce : Z) : result bytes :=
  v <- pack_I version ;;
  t <- pack_I timestamp ;;
  b <- pack_I bits ;;
  n <- pack_I nonce ;;
  Ok (v ++ pack_32s prev_hash ++ pack_32s merkle_root ++ t ++ b ++ n).

Module BlockHash.

(** The class attributes are never written: [reset] copies
    [MINING_CONSTANTS], so they are plain values here. *)
Definition MINING_CONSTANTS : list Z :=
  [ 0x6a09e667f3bcc908; 0xbb67ae8584caa73b;
    0x3c6ef372fe94f82b; 0xa54ff53a5f1d36f1 ].

Definition NONCE_MIX : list Z :=
  [ 0x510e527fade682d1; 0x9b05688c2b3e6c1f ].

(** The attributes of a [BlockHash] object; [state] refers to a list
    object in the store. *)
Record t : Type := { mode : MiningMode; state : loc; buffer : bytes }.

Definition set_state (self : t) (r : loc) : t :=
  {| mode := mode self; state := r; buffer := buffer self |}.

Definition set_buffer (self : t) (b : bytes) : t :=
  {| mode := mode self; state := state self; buffer := b |}.

Definition _rotright (value shift : Z) : Z :=
  Z.land (Z.lor (Z.shiftr value shift) (Z.shiftl value (64 - shift)))
         0xFFFFFFFFFFFFFFFF.

Definition _rotleft (value shift : Z) : Z :=
  Z.land (Z.lor (Z.shiftl value shift) (Z.shiftr value (64 - shift)))
         0xFFFFFFFFFFFFFFFF.

Definition _get_round_count (self : t) : nat :=
  match mode self with
  | FAST => 2
  | STANDARD => 3
  | SECURE => 4
  end.

(** [reset]: a copy of the class constants and an empty buffer. *)
Definition reset (self : t) : M t :=
  r <~ alloc MINING_CONSTANTS ;;
  ret (set_buffer (set_state self r) []).

(** [BlockHash(mode)]: the object has no [state] before [reset] binds
    it, so the constructor is written with [reset]'s two assignments. *)
Definition __init__ (mode : MiningMode) : M t :=
  r <~ alloc MINING_CONSTANTS ;;
  ret {| mode := mode; state := r; buffer := [] |}.

Definition _mix_mining (x y : Z) : Z * Z :=
  let x := Z.lxor (_rotright x 13) y in
  let y := Z.lxor (_rotleft y 17) x in
  let x := Z.lxor (_rotright x 21) y in
  let y := Z.lxor (_rotleft y 29) x in
  (x, y).

(** [s[i], s[j] = self._mix_mining(s[i], s[j])]. *)
Definition mix_items (s : loc) (i j : nat) : M unit :=
  a <~ load s i ;;
  b <~ load s j ;;
  let '(x, y) := _mix_mining a b in
  _ <~ store s i x ;;
  store s j y.

(** [s[i] ^= v]. *)
Definition xor_item (s : loc) (i : nat) (v : Z) : M unit :=
  a <~ load s i ;;
  store s i (Z.lxor a v).

Definition _fast_nonce_mix (state : loc) (nonce : Z) : M loc :=
  _ <~ xor_item state 0 nonce ;;
  _ <~ xor_item state 1 (_rotright nonce 32) ;;
  _ <~ mix_items state 0 1 ;;
  _ <~ mix_items state 2 3 ;;
  ret state.

Definition _process_mining_block (self : t) (block : bytes) : M unit :=
  values <~ lift (unpack_8Q block) ;;
  let '(v0, v1, v2, v3, v4, v5, v6, v7) := values in
  _ <~ xor_item (state self) 0 (Z.lxor v0 v4) ;;
  _ <~ xor_item (state self) 1 (Z.lxor v1 v5) ;;
  _ <~ xor_item (state self) 2 (Z.lxor v2 v6) ;;
  _ <~ xor_item (state self) 3 (Z.lxor v3 v7) ;;
  let rounds := _get_round_count self in
  repeatM rounds
    (_ <~ mix_items (state self) 0 1 ;;
     _ <~ mix_items (state self) 2 3 ;;
     _ <~ mix_items (state self) 0 2 ;;
     mix_items (state self) 1 3).

(** The [while len(self.buffer) >= 64] loop of [update]; every round
    removes 64 bytes, so [length (buffer self)] rounds always suffice. *)
Fixpoint update_loop (fuel : nat) (self : t) : M t :=
  if (64 <=? length (buffer self))%nat then
    match fuel with
    | O => lift (Raise FuelExhausted)
    | S fuel' =>
        _ <~ _process_mining_block self (take 64 (buffer self)) ;;
        update_loop fuel' (set_buffer self (drop 64 (buffer self)))
    end
  else ret self.

Definition update (self : t) (data : pydata) : M t :=
  data <~ lift (match data with
                | PyStr s => utf8_encode s
                | PyBytes b => Ok b
                end) ;;
  let self := set_buffer self (buffer self ++ data) in
  update_loop (length (buffer self)) self.

Definition _finalize_mining (self : t) : M unit :=
  _ <~ (match buffer self with
        | [] => ret tt
        | _ :: _ =>
            let padded :=
              buffer self ++ repeat x00 (64 - length (buffer self)) in
            _process_mining_block self padded
        end) ;;
  _ <~ mix_items (state self) 0 2 ;;
  mix_items (state self) 1 3.

(** [b''.join(x.to_bytes(8, 'big') for x in words)]. *)
Fixpoint join_words (words : list Z) : result bytes :=
  match words with
  | [] => Ok []
  | x :: rest =>
      hd <- to_bytes_big 8 x ;;
      tl <- join_words rest ;;
      Ok (hd ++ tl)
  end.

(** [digest] returns its bytes and the object with the saved copies
    bound back to [state] and [buffer]. *)
Definition digest (self : t) : M (bytes * t) :=
  orig_state <~ list_copy (state self) ;;
  let orig_buffer := buffer self in
  _ <~ _finalize_mining self ;;
  words <~ read_list (state self) ;;
  result <~ lift (join_words words) ;;
  let self := set_state self orig_state in
  let self := set_buffer self orig_buffer in
  ret (result, self).

Definition hexdigest (self : t) : M (string * t) :=
  r <~ digest self ;;
  ret (bytes_hex (fst r), snd r).

Definition hash_with_nonce (data : bytes) (nonce : Z) (mode : MiningMode)
  : M string :=
  hasher <~ __init__ mode ;;
  hasher <~ update hasher (PyBytes data) ;;
  s <~ _fast_nonce_mix (state hasher) nonce ;;
  let hasher := set_state hasher s in
  r <~ hexdigest hasher ;;
  ret (fst r).

(** The class defines no [hash_bytes] attribute, so the call after the
    packing raises. *)
Definition hash_block_header (self : t) (version : Z)
           (prev_hash merkle_root : bytes) (timestamp bits nonce : Z)
  : M string :=
  header <~ lift (pack_header version prev_hash merkle_root
                              timestamp bits nonce) ;;
  lift (Raise AttributeError).

End BlockHash.

(** Module-level functions of [smhash.py]. *)
Module smhash.

Definition hash_string (data : pystr) (mode : MiningMode) : M string :=
  hasher <~ BlockHash.__init__ mode ;;
  hasher <~ BlockHash.update hasher (PyStr data) ;;
  r <~ BlockHash.hexdigest hasher ;;
  ret (fst r).

Definition hash_bytes (data : bytes) (mode : MiningMode) : M string :=
  hasher <~ BlockHash.__init__ mode ;;
  hasher <~ BlockHash.update hasher (PyBytes data) ;;
  r <~ BlockHash.hexdigest hasher ;;
  ret (fst r).

(** [for nonce in range(max_nonce)], with [count] nonces left to try. *)
Fixpoint mine_loop (block_header : bytes) (target : string)
         (count : nat) (nonce : Z) : M (Z * string) :=
  match count with
  | O => ret (-1, EmptyString)
  | S count' =>
      hash_value <~ BlockHash.hash_with_nonce block_header nonce FAST ;;
      if startswith hash_value target then ret (nonce, hash_value)
      else mine_loop block_header target count' (nonce + 1)
  end.

Definition mine_block (block_header : bytes) (target_zeros max_nonce : Z)
  : M (Z * string) :=
  hasher <~ BlockHash.__init__ FAST ;;
  target <~ lift (str_repeat "0" target_zeros) ;;
  mine_loop block_header target (Z.to_nat max_nonce) 0.

Definition verify_block (block_header : bytes) (nonce : Z)
           (expected_hash : string) : M bool :=
  hash_value <~ BlockHash.hash_with_nonce block_header nonce SECURE ;;
  ret (String.eqb hash_value expected_hash).

End smhash.

(** ** miner.py *)

Module miner.

(** What a search prints, timing lines left out: the progress line, the
    success block (text, nonce, hash) and the failure line. A search
    that ends in an exception is modelled by the exception alone. *)
Inductive report : Type :=
| Trying (nonce : Z)
| Success (text : pystr) (nonce : Z) (hash : string)
| Exhausted (max_nonce : Z).

(** [f"{text}{nonce}"]. *)
Definition with_nonce (text : pystr) (nonce : Z) : pystr :=
  text ++ pystr_of_string (str_of_int nonce).

(** [if nonce % 100000 == 0: print(...)]. *)
Definition progress (nonce : Z) : list report :=
  if nonce mod 100000 =? 0 then [Trying nonce] else [].

Definition hash_sha256_with_nonce (text : pystr) (nonce : Z)
  : result string :=
  SHA256.hash_string (with_nonce text nonce).

Fixpoint sha_loop (text : pystr) (target : string) (max_nonce : Z)
         (count : nat) (nonce : Z) : result (list report) :=
  match count with
  | O => Ok [Exhausted max_nonce]
  | S count' =>
      current_hash <- hash_sha256_with_nonce text nonce ;;
      if startswith current_hash target
      then Ok (progress nonce ++ [Success text nonce current_hash])
      else
        rest <- sha_loop text target max_nonce count' (nonce + 1) ;;
        Ok (progress nonce ++ rest)
  end.

Definition mine_sha_256_hash (text : pystr) (num_zeros max_nonce : Z)
  : result (list report) :=
  target <- str_repeat "0" num_zeros ;;
  sha_loop text target max_nonce (Z.to_nat max_nonce) 0.

Definition hash_smhash_with_nonce (text : pystr) (nonce : Z) : M string :=
  smhash.hash_string (with_nonce text nonce) STANDARD.

Fixpoint smhash_loop (text : pystr) (target : string) (max_nonce : Z)
         (count : nat) (nonce : Z) : M (list report) :=
  match count with
  | O => ret [Exhausted max_nonce]
  | S count' =>
      current_hash <~ hash_smhash_with_nonce text nonce ;;
      if startswith current_hash target
      then ret (progress nonce ++ [Success text nonce current_hash])
      else
        rest <~ smhash_loop text target max_nonce count' (nonce + 1) ;;
        ret (progress nonce ++ rest)
  end.

Definition mine_smhash_hash (text : pystr) (num_zeros max_nonce : Z)
  : M (list report) :=
  target <~ lift (str_repeat "0" num_zeros) ;;
  smhash_loop text target max_nonce (Z.to_nat max_nonce) 0.

End miner.

(** ** The engine as a function of its state words

    What each method does to the four words behind [state], read off the
    in-place code; the lemmas below tie every method to these. *)

Module Words.

Import BlockHash.

Definition word64 (x : Z) : Prop := 0 <= x < 2 ^ 64.

Definition rounds_of (m : MiningMode) : nat :=
  match m with
  | FAST => 2
  | STANDARD => 3
  | SECURE => 4
  end.

Definition xor_at (i : nat) (v : Z) (ws : list Z) : list Z :=
  <[i := Z.lxor (nth i ws 0) v]> ws.

Definition mix_at (i j : nat) (ws : list Z) : list Z :=
  let '(x, y) := _mix_mining (nth i ws 0) (nth j ws 0) in
  <[j := y]> (<[i := x]> ws).

Definition ingest (block : bytes) (ws : list Z) : list Z :=
  let q (i : nat) := from_bytes_big (slice block (8 * i) (8 * i + 8)) in
  xor_at 3 (Z.lxor (q 3%nat) (q 7%nat))
    (xor_at 2 (Z.lxor (q 2%nat) (q 6%nat))
       (xor_at 1 (Z.lxor (q 1%nat) (q 5%nat))
          (xor_at 0 (Z.lxor (q 0%nat) (q 4%nat)) ws))).

Definition mix_round (ws : list Z) : list Z :=
  mix_at 1 3 (mix_at 0 2 (mix_at 2 3 (mix_at 0 1 ws))).

Definition process (m : MiningMode) (block : bytes) (ws : list Z)
  : list Z :=
  Nat.iter (rounds_of m) mix_round (ingest block ws).

(** [n] full blocks taken from the front of [buf]. *)
Fixpoint absorb (m : MiningMode) (n : nat) (buf : bytes) (ws : list Z)
  : list Z :=
  match n with
  | O => ws
  | S n' => absorb m n' (drop 64 buf) (process m (take 64 buf) ws)
  end.

Definition blocks_in (buf : bytes) : nat := (length buf / 64)%nat.

Definition leftover (buf : bytes) : bytes :=
  drop (64 * blocks_in buf) buf.

Definition zero_pad (buf : bytes) : bytes :=
  buf ++ repeat x00 (64 - length buf).

Definition cross_mix (ws : list Z) : list Z :=
  mix_at 1 3 (mix_at 0 2 ws).

(** Finalization as the code runs it: the padded block only when the
    buffer holds something. *)
Definition finalize (m : MiningMode) (buf : bytes) (ws : list Z)
  : list Z :=
  cross_mix (match buf with
             | [] => ws
             | _ :: _ => process m (zero_pad buf) ws
             end).

(** Finalization as the specification words it: the buffer is always
    padded and run, also when it is empty. *)
Definition finalize_always_padding (m : MiningMode) (buf : bytes)
           (ws : list Z) : list Z :=
  cross_mix (process m (zero_pad buf) ws).

Definition nonce_mix (nonce : Z) (ws : list Z) : list Z :=
  mix_at 2 3 (mix_at 0 1
    (xor_at 1 (_rotright nonce 32) (xor_at 0 nonce ws))).

Definition words_bytes (ws : list Z) : bytes :=
  flat_map (be_bytes 8) ws.

Definition words_hex (ws : list Z) : string :=
  bytes_hex (words_bytes ws).

(** The digest of a message fed to a fresh engine. *)
Definition digest_of (m : MiningMode) (data : bytes) : string :=
  words_hex (finalize m (leftover data)
               (absorb m (blocks_in data) data MINING_CONSTANTS)).

(** The digest [hash_with_nonce] reports. *)
Definition nonce_digest (m : MiningMode) (data : bytes) (nonce : Z)
  : string :=
  words_hex (finalize m (leftover data)
               (nonce_mix nonce
                  (absorb m (blocks_in data) data MINING_CONSTANTS))).

End Words.

(** ** Predicates the statements use *)

(** The first [k] characters of [s] exist and are all ['0']. *)
Definition leading_zeros (k : Z) (s : string) : Prop :=
  forall i : nat, (i < Z.to_nat k)%nat -> String.get i s = Some "0"%char.

Definition is_lower_hex (c : ascii) : bool :=
  let n := N_of_ascii c in
  ((48 <=? n) && (n <=? 57) || (97 <=? n) && (n <=? 102))%N.

Definition lower_hex_string (s : string) : Prop :=
  Forall (fun c => is_lower_hex c = true) (list_ascii_of_string s).

(** The ASCII bytes of the decimal text of [n]. *)
Definition decimal_bytes (n : Z) : bytes :=
  map (fun c => byte_of_Z (Z.of_N (N_of_ascii c)))
      (list_ascii_of_string (str_of_int n)).

(** A live engine: its [state] names four 64-bit words in the store. *)
Definition engine_ok (σ : heap) (e : BlockHash.t) (ws : list Z) : Prop :=
  σ !! BlockHash.state e = Some ws /\ length ws = 4%nat
  /\ Forall Words.word64 ws.

(** A reachable engine also keeps less than one block buffered. *)
Definition engine_reachable (σ : heap) (e : BlockHash.t) (ws : list Z)
  : Prop :=
  engine_ok σ e ws /\ (length (BlockHash.buffer e) < 64)%nat.

(** ** Specification shapes for code running in the store *)

(** [m] only rewrites the four-element list behind [r], turning its
    contents [ws] into [f ws]. *)
Definition in_place (r : loc) (m : M unit) (f : list Z -> list Z) : Prop :=
  forall (σ : heap) (ws : list Z),
    σ !! r = Some ws -> length ws = 4%nat ->
    m σ = Ok (tt, <[r := f ws]> σ) /\ length (f ws) = 4%nat.

(** [m] run from [σ] returns [a], whatever store it leaves. *)
Definition returns {A : Type} (m : M A) (σ : heap) (a : A) : Prop :=
  exists σ', m σ = Ok (a, σ').

(** ** Searching an ascending list of nonces *)

(** [count] consecutive nonces from [start]: what [range] yields. *)
Fixpoint range_from (start : Z) (count : nat) : list Z :=
  match count with
  | O => []
  | S count' => start :: range_from (start + 1) count'
  end.

(** The first candidate, in list order, whose digest starts with
    [target]. *)
Fixpoint first_hit (digest : Z -> string) (target : string)
         (candidates : list Z) : option (Z * string) :=
  match candidates with
  | [] => None
  | n :: rest =>
      if startswith (digest n) target then Some (n, digest n)
      else first_hit digest target rest
  end.

(** The same scan for a digest that may raise: the first error ends it. *)
Fixpoint first_hitR (digest : Z -> result string) (target : string)
         (candidates : list Z) : result (option (Z * string)) :=
  match candidates with
  | [] => Ok None
  | n :: rest =>
      h <- digest n ;;
      if startswith h target then Ok (Some (n, h))
      else first_hitR digest target rest
  end.

(** What [miner.py] prints for the outcome of a scan over
    [range(max_nonce)]. *)
Definition search_report (text : pystr) (max_nonce : Z)
           (outcome : option (Z * string)) : list miner.report :=
  match outcome with
  | Some (n, h) =>
      flat_map miner.progress (range_from 0 (Z.to_nat (n + 1)))
      ++ [miner.Success text n h]
  | None =>
      flat_map miner.progress (range_from 0 (Z.to_nat max_nonce))
      ++ [miner.Exhausted max_nonce]
  end.

(** What [mine_block] returns for the outcome of a scan. *)
Definition block_result (outcome : option (Z * string)) : Z * string :=
  match outcome with
  | Some p => p
  | None => (-1, EmptyString)
  end.

Definition word32 (x : Z) : Prop := 0 <= x < 2 ^ 32.

(** How many zero bytes the padding loop appends to [message]. *)
Definition pad_need (message : bytes) : nat :=
  Z.to_nat ((56 - Z.of_nat (length message)) mod 64).

(** ** hashanalyzer.py and cryptoanalyzer.py: the bit comparisons

    The strings these helpers take are hexadecimal digests. Text is
    modelled as [string], whose characters are the code points below 256;
    there [int(c, 16)] accepts exactly the 22 hexadecimal digits. Python
    also accepts the decimal digits of other scripts, all at code point
    256 or above: text with such characters is outside this model, and
    every statement about these helpers is one about text of code points
    below 256. *)

Module analyzer.

(** [int(c, 16)] for a one-character string [c] below code point 256. *)
Definition int16 (c : ascii) : result Z :=
  let n := Z.of_N (N_of_ascii c) in
  if (48 <=? n) && (n <=? 57) then Ok (n - 48)
  else if (97 <=? n) && (n <=? 102) then Ok (n - 87)
  else if (65 <=? n) && (n <=? 70) then Ok (n - 55)
  else Raise ValueError.

(** Binary digits of a positive number, most significant first. *)
Fixpoint pos_bits (p : positive) (acc : string) : string :=
  match p with
  | xH => String "1" acc
  | xO p' => pos_bits p' (String "0" acc)
  | xI p' => pos_bits p' (String "1" acc)
  end.

(** [bin(v)]. *)
Definition bin (v : Z) : string :=
  match v with
  | Z0 => "0b0"
  | Zpos p => String "0" (String "b" (pos_bits p EmptyString))
  | Zneg p => String "-" (String "0" (String "b" (pos_bits p EmptyString)))
  end.

(** [s[n:]] for [n >= 0]. *)
Definition str_from (n : nat) (s : string) : string :=
  string_of_list_ascii (drop n (list_ascii_of_string s)).

(** [s.zfill(width)]: zeros go after a leading sign. *)
Definition zfill (width : nat) (s : string) : string :=
  let fill := string_of_list_ascii
                (repeat "0"%char (width - String.length s)) in
  match s with
  | String c rest =>
      if (Ascii.eqb c "+" || Ascii.eqb c "-")%bool
      then String c (fill ++ rest)
      else (fill ++ s)%string
  | EmptyString => fill
  end.

(** The four binary digits [bin(int(c, 16))[2:].zfill(4)] of one
    character. *)
Definition nibble_bits (c : ascii) : result string :=
  v <- int16 c ;;
  Ok (zfill 4 (str_from 2 (bin v))).

(** [''.join(bin(int(c, 16))[2:].zfill(4) for c in hex_str)]. *)
Fixpoint hex_to_binary (hex_str : string) : result string :=
  match hex_str with
  | EmptyString => Ok EmptyString
  | String c rest =>
      hd <- nibble_bits c ;;
      tl <- hex_to_binary rest ;;
      Ok (hd ++ tl)%string
  end.

(** [sum(c1 != c2 for c1, c2 in zip(str1, str2))]. *)
Fixpoint hamming_distance (str1 str2 : string) : Z :=
  match str1, str2 with
  | String c1 rest1, String c2 rest2 =>
      (if Ascii.eqb c1 c2 then 0 else 1) + hamming_distance rest1 rest2
  | _, _ => 0
  end.

(** [HashAnalyzer.bit_difference]. *)
Definition bit_difference (hash1 hash2 : string) : result Z :=
  bin1 <- hex_to_binary hash1 ;;
  bin2 <- hex_to_binary hash2 ;;
  Ok (hamming_distance bin1 bin2).

End analyzer.

(** ** Predicates on hexadecimal and binary text *)

(** The 22 characters below code point 256 that [int(c, 16)] accepts:
    digits and letters [a-f] in either case. *)
Definition is_hex_digit (c : ascii) : bool :=
  let n := N_of_ascii c in
  ((48 <=? n) && (n <=? 57) || (97 <=? n) && (n <=? 102)
   || (65 <=? n) && (n <=? 70))%N.

Definition hex_string (s : string) : Prop :=
  Forall (fun c => is_hex_digit c = true) (list_ascii_of_string s).

Definition binary_string (s : string) : Prop :=
  Forall (fun c => c = "0"%char \/ c = "1"%char) (list_ascii_of_string s).

(** The number a list of digits denotes in a base, most significant
    first, continuing from [acc]. *)
Definition number_from (base acc : Z) (digits : list Z) : Z :=
  fold_left (fun a d => a * base + d) digits acc.

(** The digit values of hexadecimal text and of binary text. *)
Definition hex_digit_values (s : string) : list Z :=
  map (fun c => match analyzer.int16 c with
                | Ok v => v
                | Raise _ => 0
                end) (list_ascii_of_string s).

Definition bit_values (s : string) : list Z :=
  map (fun c => if Ascii.eqb c "1" then 1 else 0) (list_ascii_of_string s).

(** * Lemmas *)

(** ** The result and store monads *)

Lemma bindR_Ok {A B : Type} (m : result A) (k : A -> result B) (a : A) :
  m = Ok a -> bindR m k = k a.
Proof. intros ->. reflexivity. Qed.

Lemma bindM_run {A B : Type} (m : M A) (k : A -> M B) (σ σ' : heap) (a : A) :
  m σ = Ok (a, σ') -> bindM m k σ = k a σ'.
Proof. intros H. unfold bindM. rewrite H. reflexivity. Qed.

Lemma lift_Ok {A : Type} (r : result A) (a : A) (σ : heap) :
  r = Ok a -> lift r σ = Ok (a, σ).
Proof. intros ->. reflexivity. Qed.

Lemma for_range_invariant {St : Type} (Inv : St -> Prop)
      (body : nat -> St -> result St) (n lo : nat) (s : St) :
  Inv s ->
  (forall i s0, (lo <= i < lo + n)%nat -> Inv s0 ->
                exists s1, body i s0 = Ok s1 /\ Inv s1) ->
  exists s', for_range lo n body s = Ok s' /\ Inv s'.
Proof.
  revert lo s. induction n as [|n IH]; intros lo s Hs Hbody; simpl.
  - eauto.
  - destruct (Hbody lo s) as (s1 & -> & Hs1); [lia | done |]. simpl.
    apply IH; [done |]. intros i s0 Hi. apply Hbody. lia.
Qed.

(** ** 64-bit words *)

Section Word64.

Import BlockHash Words.

Lemma mask64_ones : 0xFFFFFFFFFFFFFFFF = Z.ones 64.
Proof. reflexivity. Qed.

Lemma land_mask64 (x : Z) : word64 (Z.land x 0xFFFFFFFFFFFFFFFF).
Proof.
  unfold word64. rewrite mask64_ones, Z.land_ones by lia.
  apply Z.mod_pos_bound. lia.
Qed.

Lemma word64_land (x : Z) : word64 x -> Z.land x (Z.ones 64) = x.
Proof.
  intros H. rewrite Z.land_ones by lia. apply Z.mod_small. exact H.
Qed.

Lemma lxor_word64 (a b : Z) : word64 a -> word64 b -> word64 (Z.lxor a b).
Proof.
  intros Ha Hb.
  assert (E : Z.land (Z.lxor a b) (Z.ones 64) = Z.lxor a b).
  { apply Z.bits_inj'. intros n Hn.
    rewrite Z.land_spec, Z.lxor_spec.
    destruct (Z.ltb_spec n 64).
    - rewrite Z.ones_spec_low by lia. apply andb_true_r.
    - rewrite Z.ones_spec_high, andb_false_r by lia.
      rewrite <- (word64_land a Ha), <- (word64_land b Hb).
      rewrite !Z.land_spec, Z.ones_spec_high by lia.
      rewrite !andb_false_r. reflexivity. }
  rewrite <- E, <- mask64_ones. apply land_mask64.
Qed.

Lemma rotright_word64 (x s : Z) : word64 (_rotright x s).
Proof. apply land_mask64. Qed.

Lemma rotleft_word64 (x s : Z) : word64 (_rotleft x s).
Proof. apply land_mask64. Qed.

(** Mixing needs only its second argument to be a 64-bit word. *)
Lemma mix_mining_word64 (x y : Z) :
  word64 y -> word64 (fst (_mix_mining x y)) /\ word64 (snd (_mix_mining x y)).
Proof.
  intros Hy. unfold _mix_mining. simpl.
  assert (H1 : word64 (Z.lxor (_rotright x 13) y))
    by (apply lxor_word64; [apply rotright_word64 | done]).
  assert (H2 : word64 (Z.lxor (_rotleft y 17) (Z.lxor (_rotright x 13) y)))
    by (apply lxor_word64; [apply rotleft_word64 | done]).
  split.
  - apply lxor_word64; [apply rotright_word64 | done].
  - apply lxor_word64; [apply rotleft_word64 |].
    apply lxor_word64; [apply rotright_word64 | done].
Qed.

Lemma from_bytes_big_app (a b : bytes) :
  from_bytes_big (a ++ b)
  = from_bytes_big a * 256 ^ Z.of_nat (length b) + from_bytes_big b.
Proof.
  unfold from_bytes_big.
  assert (G : forall (l : bytes) (acc : Z),
             fold_left (fun acc x => acc * 256 + byte_val x) l acc
             = acc * 256 ^ Z.of_nat (length l)
               + fold_left (fun acc x => acc * 256 + byte_val x) l 0).
  { induction l as [|x l IH]; intros acc; simpl length; simpl fold_left.
    - rewrite Z.pow_0_r. lia.
    - rewrite IH, (IH (0 * 256 + byte_val x)).
      rewrite Nat2Z.inj_succ, Z.pow_succ_r by lia. lia. }
  rewrite fold_left_app, G. reflexivity.
Qed.

Lemma byte_val_range (b : byte) : 0 <= byte_val b < 256.
Proof.
  unfold byte_val. pose proof (Byte.to_N_bounded b). lia.
Qed.

Lemma from_bytes_big_range (b : bytes) :
  0 <= from_bytes_big b < 256 ^ Z.of_nat (length b).
Proof.
  induction b as [|x b IH] using rev_ind.
  - change (0 <= 0 < 1). lia.
  - rewrite from_bytes_big_app, length_app. simpl length.
    replace (Z.of_nat (length b + 1)) with (Z.succ (Z.of_nat (length b)))
      by lia.
    rewrite Z.pow_succ_r by lia.
    pose proof (byte_val_range x).
    change (from_bytes_big [x]) with (0 * 256 + byte_val x).
    change (256 ^ Z.of_nat 1) with 256. nia.
Qed.

Lemma slice_length {A : Type} (l : list A) (lo hi : nat) :
  (length (slice l lo hi) <= hi - lo)%nat.
Proof. unfold slice. rewrite length_take. lia. Qed.

Lemma from_bytes_slice8_word64 (block : bytes) (i : nat) :
  word64 (from_bytes_big (slice block (8 * i) (8 * i + 8))).
Proof.
  pose proof (from_bytes_big_range (slice block (8 * i) (8 * i + 8))) as H.
  pose proof (slice_length block (8 * i) (8 * i + 8)) as L.
  unfold word64.
  assert (256 ^ Z.of_nat (length (slice block (8 * i) (8 * i + 8)))
          <= 256 ^ 8).
  { apply Z.pow_le_mono_r; lia. }
  change (2 ^ 64) with (256 ^ 8). lia.
Qed.

End Word64.

(** ** Reading and writing list objects *)

Section Store.

Import BlockHash Words.

Lemma load_run (σ : heap) (r : loc) (ws : list Z) (i : nat) :
  σ !! r = Some ws -> (i < length ws)%nat ->
  load r i σ = Ok (nth i ws 0, σ).
Proof.
  intros Hr Hi. unfold load, bindM, read_list. rewrite Hr.
  destruct (lookup_lt_is_Some_2 ws i Hi) as [v Hv].
  unfold lift, getitem. rewrite Hv, (nth_lookup_Some _ _ _ _ Hv).
  reflexivity.
Qed.

Lemma store_run (σ : heap) (r : loc) (ws : list Z) (i : nat) (v : Z) :
  σ !! r = Some ws -> (i < length ws)%nat ->
  store r i v σ = Ok (tt, <[r := <[i := v]> ws]> σ).
Proof.
  intros Hr Hi. unfold store, bindM, read_list. rewrite Hr.
  unfold lift, setitem. destruct (decide (i < length ws)%nat); [|lia].
  reflexivity.
Qed.

Lemma xor_item_in_place (r : loc) (i : nat) (v : Z) :
  (i < 4)%nat -> in_place r (xor_item r i v) (xor_at i v).
Proof.
  intros Hi σ ws Hr Hlen. split.
  - unfold xor_item.
    rewrite (bindM_run _ _ _ _ _ (load_run σ r ws i Hr ltac:(lia))).
    apply store_run; [done | lia].
  - unfold xor_at. rewrite length_insert. done.
Qed.

Lemma mix_items_in_place (r : loc) (i j : nat) :
  (i < 4)%nat -> (j < 4)%nat -> in_place r (mix_items r i j) (mix_at i j).
Proof.
  intros Hi Hj σ ws Hr Hlen. unfold mix_items, mix_at.
  rewrite (bindM_run _ _ _ _ _ (load_run σ r ws i Hr ltac:(lia))).
  rewrite (bindM_run _ _ _ _ _ (load_run σ r ws j Hr ltac:(lia))).
  destruct (_mix_mining (nth i ws 0) (nth j ws 0)) as [x y].
  split.
  - rewrite (bindM_run _ _ _ _ _ (store_run σ r ws i x Hr ltac:(lia))).
    rewrite (store_run _ r (<[i := x]> ws) j y).
    + rewrite insert_insert_eq. reflexivity.
    + apply lookup_insert_eq.
    + rewrite length_insert. lia.
  - rewrite !length_insert. done.
Qed.

Lemma in_place_seq (r : loc) (m1 m2 : M unit) (f1 f2 : list Z -> list Z) :
  in_place r m1 f1 -> in_place r m2 f2 ->
  in_place r (_ <~ m1 ;; m2) (fun ws => f2 (f1 ws)).
Proof.
  intros H1 H2 σ ws Hr Hlen.
  destruct (H1 σ ws Hr Hlen) as [E1 L1].
  rewrite (bindM_run _ _ _ _ _ E1).
  destruct (H2 (<[r := f1 ws]> σ) (f1 ws)) as [E2 L2];
    [apply lookup_insert_eq | done |].
  rewrite E2, insert_insert_eq. done.
Qed.

Lemma in_place_ret (r : loc) : in_place r (ret tt) (fun ws => ws).
Proof.
  intros σ ws Hr Hlen. unfold ret. rewrite insert_id; done.
Qed.

Lemma in_place_repeat (r : loc) (body : M unit) (f : list Z -> list Z)
      (n : nat) :
  in_place r body f -> in_place r (repeatM n body) (fun ws => Nat.iter n f ws).
Proof.
  intros Hb. induction n as [|n IH].
  - apply in_place_ret.
  - intros σ ws Hr Hlen.
    destruct (in_place_seq r body (repeatM n body) f _ Hb IH σ ws Hr Hlen)
      as [E L].
    simpl repeatM. rewrite E. rewrite Nat.iter_succ_r. done.
Qed.

Lemma in_place_ext (r : loc) (m : M unit) (f g : list Z -> list Z) :
  (forall ws, length ws = 4%nat -> f ws = g ws) ->
  in_place r m f -> in_place r m g.
Proof.
  intros E H σ ws Hr Hlen. rewrite <- (E ws Hlen). apply H; done.
Qed.

End Store.

(** ** The methods of [BlockHash] against their word functions *)

Section Engine.

Import BlockHash Words.

Lemma Forall_word64_nth (ws : list Z) (i : nat) :
  Forall word64 ws -> (i < length ws)%nat -> word64 (nth i ws 0).
Proof.
  intros HF Hi. destruct (lookup_lt_is_Some_2 ws i Hi) as [v Hv].
  rewrite (nth_lookup_Some _ _ _ _ Hv).
  exact (Forall_lookup_1 _ _ _ _ HF Hv).
Qed.

Lemma xor_at_length (i : nat) (v : Z) (ws : list Z) :
  length (xor_at i v ws) = length ws.
Proof. unfold xor_at. apply length_insert. Qed.

Lemma mix_at_length (i j : nat) (ws : list Z) :
  length (mix_at i j ws) = length ws.
Proof.
  unfold mix_at. destruct (_mix_mining _ _). rewrite !length_insert. done.
Qed.

Lemma xor_at_word64 (i : nat) (v : Z) (ws : list Z) :
  word64 v -> (i < length ws)%nat -> Forall word64 ws ->
  Forall word64 (xor_at i v ws).
Proof.
  intros Hv Hi HF. unfold xor_at. apply Forall_insert; [done |].
  apply lxor_word64; [apply Forall_word64_nth |]; done.
Qed.

Lemma mix_at_word64 (i j : nat) (ws : list Z) :
  (j < length ws)%nat -> Forall word64 ws -> Forall word64 (mix_at i j ws).
Proof.
  intros Hj HF. unfold mix_at.
  pose proof (mix_mining_word64 (nth i ws 0) (nth j ws 0)
                (Forall_word64_nth ws j HF Hj)) as [Hx Hy].
  destruct (_mix_mining _ _) as [x y]. simpl in Hx, Hy.
  apply Forall_insert; [apply Forall_insert |]; done.
Qed.

Lemma ingest_length (block : bytes) (ws : list Z) :
  length (ingest block ws) = length ws.
Proof. unfold ingest. rewrite !xor_at_length. done. Qed.

Lemma mix_round_length (ws : list Z) : length (mix_round ws) = length ws.
Proof. unfold mix_round. rewrite !mix_at_length. done. Qed.

Lemma iter_mix_round_length (n : nat) (ws : list Z) :
  length (Nat.iter n mix_round ws) = length ws.
Proof.
  induction n as [|n IH]; [done |].
  rewrite Nat.iter_succ, mix_round_length. exact IH.
Qed.

Lemma process_length (m : MiningMode) (block : bytes) (ws : list Z) :
  length (process m block ws) = length ws.
Proof. unfold process. rewrite iter_mix_round_length. apply ingest_length. Qed.

Lemma ingest_word64 (block : bytes) (ws : list Z) :
  length ws = 4%nat -> Forall word64 ws -> Forall word64 (ingest block ws).
Proof.
  intros Hlen HF. unfold ingest.
  repeat (apply xor_at_word64;
          [apply lxor_word64; apply from_bytes_slice8_word64
          | rewrite ?xor_at_length; lia |]).
  exact HF.
Qed.

Lemma mix_round_word64 (ws : list Z) :
  length ws = 4%nat -> Forall word64 ws -> Forall word64 (mix_round ws).
Proof.
  intros Hlen HF. unfold mix_round.
  repeat (apply mix_at_word64; [rewrite ?mix_at_length; lia |]).
  exact HF.
Qed.

Lemma process_word64 (m : MiningMode) (block : bytes) (ws : list Z) :
  length ws = 4%nat -> Forall word64 ws -> Forall word64 (process m block ws).
Proof.
  intros Hlen HF. unfold process.
  induction (rounds_of m) as [|n IH].
  - apply ingest_word64; done.
  - rewrite Nat.iter_succ. apply mix_round_word64; [| exact IH].
    rewrite iter_mix_round_length, ingest_length. exact Hlen.
Qed.

Lemma unpack_8Q_Ok (block : bytes) :
  length block = 64%nat ->
  unpack_8Q block
  = let q (i : nat) := from_bytes_big (slice block (8 * i) (8 * i + 8)) in
    Ok (q 0%nat, q 1%nat, q 2%nat, q 3%nat,
        q 4%nat, q 5%nat, q 6%nat, q 7%nat).
Proof.
  intros H. unfold unpack_8Q. destruct (decide _); [reflexivity | done].
Qed.

Lemma unpack_8Q_error (block : bytes) :
  length block <> 64%nat -> unpack_8Q block = Raise StructError.
Proof.
  intros H. unfold unpack_8Q. destruct (decide _); [done | reflexivity].
Qed.

Lemma mix_round_in_place (r : loc) :
  in_place r
    (_ <~ mix_items r 0 1 ;;
     _ <~ mix_items r 2 3 ;;
     _ <~ mix_items r 0 2 ;;
     mix_items r 1 3)
    mix_round.
Proof.
  exact (in_place_seq _ _ _ _ _ (mix_items_in_place r 0 1 ltac:(lia) ltac:(lia))
          (in_place_seq _ _ _ _ _ (mix_items_in_place r 2 3 ltac:(lia) ltac:(lia))
            (in_place_seq _ _ _ _ _
               (mix_items_in_place r 0 2 ltac:(lia) ltac:(lia))
               (mix_items_in_place r 1 3 ltac:(lia) ltac:(lia))))).
Qed.

(** [_process_mining_block] on a 64-byte block. *)
Lemma process_mining_block_in_place (self : t) (block : bytes) :
  length block = 64%nat ->
  in_place (state self) (_process_mining_block self block)
           (process (mode self) block).
Proof.
  intros Hb σ ws Hr Hlen. unfold _process_mining_block.
  rewrite (bindM_run _ _ _ _ _ (lift_Ok _ _ σ (unpack_8Q_Ok block Hb))).
  cbv zeta.
  refine (in_place_seq _ _ _ _ _ (xor_item_in_place _ 0 _ ltac:(lia))
           (in_place_seq _ _ _ _ _ (xor_item_in_place _ 1 _ ltac:(lia))
             (in_place_seq _ _ _ _ _ (xor_item_in_place _ 2 _ ltac:(lia))
               (in_place_seq _ _ _ _ _ (xor_item_in_place _ 3 _ ltac:(lia))
                 (in_place_repeat _ _ _ (_get_round_count self)
                    (mix_round_in_place _)))))
           σ ws Hr Hlen).
Qed.

(** A block of any other length makes [struct.unpack] raise. *)
Lemma process_mining_block_bad_length (self : t) (block : bytes) (σ : heap) :
  length block <> 64%nat ->
  _process_mining_block self block σ = Raise StructError.
Proof.
  intros Hb. unfold _process_mining_block, bindM, lift.
  rewrite (unpack_8Q_error block Hb). reflexivity.
Qed.

End Engine.

(** ** Accumulating input: [update] *)

Section Update.

Import BlockHash Words.

Lemma blocks_in_small (buf : bytes) :
  (length buf < 64)%nat -> blocks_in buf = 0%nat.
Proof. intros H. unfold blocks_in. apply Nat.div_small. exact H. Qed.

Lemma blocks_in_step (buf : bytes) :
  (64 <= length buf)%nat -> blocks_in buf = S (blocks_in (drop 64 buf)).
Proof.
  intros H. unfold blocks_in. rewrite length_drop.
  replace (length buf) with ((length buf - 64) + 1 * 64)%nat at 1 by lia.
  rewrite Nat.div_add by lia. lia.
Qed.

Lemma leftover_small (buf : bytes) :
  (length buf < 64)%nat -> leftover buf = buf.
Proof.
  intros H. unfold leftover. rewrite (blocks_in_small buf H). reflexivity.
Qed.

Lemma leftover_step (buf : bytes) :
  (64 <= length buf)%nat -> leftover buf = leftover (drop 64 buf).
Proof.
  intros H. unfold leftover. rewrite (blocks_in_step buf H), drop_drop.
  f_equal. lia.
Qed.

Lemma leftover_length (buf : bytes) : (length (leftover buf) < 64)%nat.
Proof.
  unfold leftover, blocks_in. rewrite length_drop.
  pose proof (Nat.div_mod_eq (length buf) 64).
  pose proof (Nat.mod_upper_bound (length buf) 64). lia.
Qed.

Lemma absorb_length (m : MiningMode) (n : nat) (buf : bytes) (ws : list Z) :
  length (absorb m n buf ws) = length ws.
Proof.
  revert buf ws. induction n as [|n IH]; intros buf ws; simpl; [done |].
  rewrite IH. apply process_length.
Qed.

Lemma absorb_word64 (m : MiningMode) (n : nat) (buf : bytes) (ws : list Z) :
  length ws = 4%nat -> Forall word64 ws -> Forall word64 (absorb m n buf ws).
Proof.
  revert buf ws. induction n as [|n IH]; intros buf ws Hlen HF; simpl.
  - done.
  - apply IH; [rewrite process_length | apply process_word64]; done.
Qed.

Lemma set_buffer_same (self : t) : set_buffer self (buffer self) = self.
Proof. destruct self. reflexivity. Qed.

Lemma update_loop_unfold (fuel : nat) (self : t) :
  update_loop fuel self
  = if (64 <=? length (buffer self))%nat then
      match fuel with
      | O => lift (Raise FuelExhausted)
      | S fuel' =>
          _ <~ _process_mining_block self (take 64 (buffer self)) ;;
          update_loop fuel' (set_buffer self (drop 64 (buffer self)))
      end
    else ret self.
Proof. destruct fuel; reflexivity. Qed.

Lemma update_loop_done (fuel : nat) (self : t) (σ : heap) (ws : list Z) :
  σ !! state self = Some ws -> (length (buffer self) < 64)%nat ->
  update_loop fuel self σ
  = Ok (set_buffer self (leftover (buffer self)),
        <[state self := absorb (mode self) (blocks_in (buffer self))
                               (buffer self) ws]> σ).
Proof.
  intros Hr Hs. rewrite update_loop_unfold.
  destruct (Nat.leb_spec 64 (length (buffer self))); [lia |].
  rewrite leftover_small, blocks_in_small, set_buffer_same by done.
  cbn [absorb]. unfold ret. rewrite insert_id; done.
Qed.

(** The [while] loop never runs past its bound. *)
Lemma update_loop_run (fuel : nat) :
  forall (self : t) (σ : heap) (ws : list Z),
    σ !! state self = Some ws -> length ws = 4%nat ->
    (blocks_in (buffer self) <= fuel)%nat ->
    update_loop fuel self σ
    = Ok (set_buffer self (leftover (buffer self)),
          <[state self := absorb (mode self) (blocks_in (buffer self))
                                 (buffer self) ws]> σ).
Proof.
  induction fuel as [|fuel IH]; intros self σ ws Hr Hlen Hfuel.
  - apply update_loop_done; [done |].
    destruct (Nat.lt_ge_cases (length (buffer self)) 64) as [|Hge];
      [done |]. rewrite (blocks_in_step _ Hge) in Hfuel. lia.
  - destruct (Nat.lt_ge_cases (length (buffer self)) 64) as [Hs|Hge];
      [apply update_loop_done; done |].
    rewrite update_loop_unfold.
    destruct (Nat.leb_spec 64 (length (buffer self))); [| lia].
    destruct (process_mining_block_in_place self (take 64 (buffer self))
                ltac:(rewrite length_take; lia) σ ws Hr Hlen) as [E L].
    rewrite (bindM_run _ _ _ _ _ E).
    rewrite (IH (set_buffer self (drop 64 (buffer self))) _
                (process (mode self) (take 64 (buffer self)) ws)).
    + cbn [set_buffer mode state buffer]. rewrite insert_insert_eq.
      rewrite (leftover_step _ Hge), (blocks_in_step _ Hge).
      reflexivity.
    + cbn [set_buffer mode state buffer]. apply lookup_insert_eq.
    + exact L.
    + cbn [set_buffer mode state buffer].
      rewrite (blocks_in_step _ Hge) in Hfuel. lia.
Qed.

Lemma blocks_in_le_length (buf : bytes) : (blocks_in buf <= length buf)%nat.
Proof.
  unfold blocks_in. pose proof (Nat.div_mod_eq (length buf) 64). lia.
Qed.

(** [update] on bytes: the buffer grows, every full block is absorbed
    in place and the rest stays buffered. *)
Lemma update_bytes_run (self : t) (data : bytes) (σ : heap) (ws : list Z) :
  σ !! state self = Some ws -> length ws = 4%nat ->
  update self (PyBytes data) σ
  = Ok (set_buffer self (leftover (buffer self ++ data)),
        <[state self := absorb (mode self) (blocks_in (buffer self ++ data))
                               (buffer self ++ data) ws]> σ).
Proof.
  intros Hr Hlen. unfold update.
  rewrite (bindM_run _ _ σ σ data) by reflexivity.
  cbv zeta.
  rewrite (update_loop_run _ _ σ ws); [reflexivity | done | done |].
  apply blocks_in_le_length.
Qed.

Lemma update_str_run (self : t) (s : pystr) (data : bytes) (σ : heap) :
  utf8_encode s = Ok data ->
  update self (PyStr s) σ = update self (PyBytes data) σ.
Proof.
  intros E. unfold update, bindM, lift. rewrite E. reflexivity.
Qed.

(** Two absorptions in a row are one absorption of the joined input. *)
Lemma absorb_app (m : MiningMode) (n1 : nat) :
  forall (n2 : nat) (x y : bytes) (ws : list Z),
    (64 * n1 <= length x)%nat ->
    absorb m (n1 + n2) (x ++ y) ws
    = absorb m n2 (drop (64 * n1) x ++ y) (absorb m n1 x ws).
Proof.
  induction n1 as [|n1 IH]; intros n2 x y ws Hx.
  - reflexivity.
  - simpl Nat.add. cbn [absorb].
    rewrite take_app_le, drop_app_le by lia.
    rewrite IH by (rewrite length_drop; lia).
    rewrite drop_drop. do 2 f_equal. f_equal. lia.
Qed.

Lemma blocks_in_app (x y : bytes) :
  blocks_in (x ++ y) = (blocks_in x + blocks_in (leftover x ++ y))%nat.
Proof.
  unfold leftover, blocks_in. rewrite !length_app, length_drop.
  pose proof (Nat.div_mod_eq (length x) 64) as E.
  replace (length x + length y)%nat
    with ((length x - 64 * (length x / 64) + length y)
          + (length x / 64) * 64)%nat by lia.
  rewrite Nat.div_add by lia. lia.
Qed.

Lemma leftover_app (x y : bytes) :
  leftover (x ++ y) = leftover (leftover x ++ y).
Proof.
  unfold leftover at 1. rewrite blocks_in_app.
  pose proof (Nat.div_mod_eq (length x) 64) as E.
  unfold leftover at 2.
  replace (64 * (blocks_in x + blocks_in (leftover x ++ y)))%nat
    with (64 * blocks_in x + 64 * blocks_in (leftover x ++ y))%nat by lia.
  rewrite <- drop_drop. f_equal.
  unfold leftover. rewrite drop_app_le; [reflexivity |].
  unfold blocks_in. lia.
Qed.

Lemma absorb_leftover_app (m : MiningMode) (x y : bytes) (ws : list Z) :
  absorb m (blocks_in (x ++ y)) (x ++ y) ws
  = absorb m (blocks_in (leftover x ++ y)) (leftover x ++ y)
           (absorb m (blocks_in x) x ws).
Proof.
  rewrite blocks_in_app, absorb_app; [reflexivity |].
  unfold blocks_in. pose proof (Nat.div_mod_eq (length x) 64). lia.
Qed.

End Update.

(** ** Finalization, [digest] and the one-shot hashes *)

Section Digest.

Import BlockHash Words.

Lemma zero_pad_length (buf : bytes) :
  (length buf <= 64)%nat -> length (zero_pad buf) = 64%nat.
Proof.
  intros H. unfold zero_pad. rewrite length_app, repeat_length. lia.
Qed.

Lemma cross_mix_length (ws : list Z) : length (cross_mix ws) = length ws.
Proof. unfold cross_mix. rewrite !mix_at_length. done. Qed.

Lemma cross_mix_word64 (ws : list Z) :
  length ws = 4%nat -> Forall word64 ws -> Forall word64 (cross_mix ws).
Proof.
  intros Hlen HF. unfold cross_mix.
  repeat (apply mix_at_word64; [rewrite ?mix_at_length; lia |]).
  exact HF.
Qed.

Lemma finalize_length (m : MiningMode) (buf : bytes) (ws : list Z) :
  length (finalize m buf ws) = length ws.
Proof.
  unfold finalize. rewrite cross_mix_length.
  destruct buf; [done | apply process_length].
Qed.

Lemma finalize_word64 (m : MiningMode) (buf : bytes) (ws : list Z) :
  length ws = 4%nat -> Forall word64 ws -> Forall word64 (finalize m buf ws).
Proof.
  intros Hlen HF. unfold finalize. destruct buf.
  - apply cross_mix_word64; done.
  - apply cross_mix_word64;
      [rewrite process_length | apply process_word64]; done.
Qed.

Lemma cross_mix_in_place (r : loc) :
  in_place r (_ <~ mix_items r 0 2 ;; mix_items r 1 3) cross_mix.
Proof.
  exact (in_place_seq _ _ _ _ _
           (mix_items_in_place r 0 2 ltac:(lia) ltac:(lia))
           (mix_items_in_place r 1 3 ltac:(lia) ltac:(lia))).
Qed.

(** [_finalize_mining] with at most one block buffered. *)
Lemma finalize_mining_in_place (self : t) :
  (length (buffer self) <= 64)%nat ->
  in_place (state self) (_finalize_mining self)
           (finalize (mode self) (buffer self)).
Proof.
  intros Hb. unfold _finalize_mining, finalize.
  destruct (buffer self) as [|b0 rest] eqn:Ebuf.
  - exact (in_place_seq _ _ _ _ _ (in_place_ret _) (cross_mix_in_place _)).
  - refine (in_place_seq _ _ _ _ _
              (process_mining_block_in_place self _ _)
              (cross_mix_in_place _)).
    apply (zero_pad_length (b0 :: rest)). exact Hb.
Qed.

Lemma be_bytes_length (n : nat) (x : Z) : length (be_bytes n x) = n.
Proof.
  revert x. induction n as [|n IH]; intros x; simpl; [done |].
  rewrite length_app, IH. simpl. lia.
Qed.

Lemma to_bytes_big_word64 (x : Z) :
  word64 x -> to_bytes_big 8 x = Ok (be_bytes 8 x).
Proof.
  intros [H0 H1]. unfold to_bytes_big.
  change (256 ^ Z.of_nat 8) with (2 ^ 64).
  destruct (Z.leb_spec 0 x); [| lia].
  destruct (Z.ltb_spec x (2 ^ 64)); [| lia]. reflexivity.
Qed.

Lemma join_words_Ok (ws : list Z) :
  Forall word64 ws -> join_words ws = Ok (words_bytes ws).
Proof.
  induction 1 as [|x ws Hx HF IH]; [reflexivity |].
  cbn [join_words]. rewrite (to_bytes_big_word64 x Hx), IH. reflexivity.
Qed.

Lemma words_bytes_length (ws : list Z) :
  length (words_bytes ws) = (8 * length ws)%nat.
Proof.
  induction ws as [|x ws IH]; [reflexivity |].
  unfold words_bytes in *. cbn [flat_map].
  rewrite length_app, IH, be_bytes_length. simpl length. lia.
Qed.

Lemma fresh_unused (σ : heap) : σ !! fresh (dom σ) = None.
Proof. apply not_elem_of_dom. apply is_fresh. Qed.

Lemma fresh_differs (σ : heap) (r : loc) (ws : list Z) :
  σ !! r = Some ws -> r <> fresh (dom σ).
Proof. intros H ->. rewrite fresh_unused in H. discriminate. Qed.

Lemma list_copy_run (σ : heap) (r : loc) (ws : list Z) :
  σ !! r = Some ws ->
  list_copy r σ = Ok (fresh (dom σ), <[fresh (dom σ) := ws]> σ).
Proof.
  intros H. unfold list_copy, bindM, read_list. rewrite H. reflexivity.
Qed.

Lemma read_list_run (σ : heap) (r : loc) (ws : list Z) :
  σ !! r = Some ws -> read_list r σ = Ok (ws, σ).
Proof. intros H. unfold read_list. rewrite H. reflexivity. Qed.

(** [digest]: the saved copy is a new object, finalization rewrites the
    old one, and the copy is what [state] names afterwards. *)
Lemma digest_run (self : t) (σ : heap) (ws : list Z) :
  engine_ok σ self ws -> (length (buffer self) <= 64)%nat ->
  digest self σ
  = Ok ((words_bytes (finalize (mode self) (buffer self) ws),
         set_state self (fresh (dom σ))),
        <[state self := finalize (mode self) (buffer self) ws]>
          (<[fresh (dom σ) := ws]> σ)).
Proof.
  intros (Hr & Hlen & HF) Hb. unfold digest.
  rewrite (bindM_run _ _ _ _ _ (list_copy_run σ _ ws Hr)).
  pose proof (fresh_differs σ _ ws Hr) as Hne.
  destruct (finalize_mining_in_place self Hb
              (<[fresh (dom σ) := ws]> σ) ws) as [E L];
    [rewrite lookup_insert_ne; done | done |].
  rewrite (bindM_run _ _ _ _ _ E).
  rewrite (bindM_run _ _ _ _ _
             (read_list_run _ _ _ (lookup_insert_eq _ _ _))).
  rewrite (bindM_run _ _ _ _ _
             (lift_Ok _ _ _ (join_words_Ok _
                (finalize_word64 _ _ _ Hlen HF)))).
  reflexivity.
Qed.

Lemma hexdigest_run (self : t) (σ : heap) (ws : list Z) :
  engine_ok σ self ws -> (length (buffer self) <= 64)%nat ->
  hexdigest self σ
  = Ok ((words_hex (finalize (mode self) (buffer self) ws),
         set_state self (fresh (dom σ))),
        <[state self := finalize (mode self) (buffer self) ws]>
          (<[fresh (dom σ) := ws]> σ)).
Proof.
  intros Hok Hb. unfold hexdigest.
  rewrite (bindM_run _ _ _ _ _ (digest_run self σ ws Hok Hb)).
  reflexivity.
Qed.

Lemma MINING_CONSTANTS_ok :
  length MINING_CONSTANTS = 4%nat /\ Forall word64 MINING_CONSTANTS.
Proof.
  split; [reflexivity |].
  unfold MINING_CONSTANTS, word64. repeat constructor; lia.
Qed.

Lemma init_run (m : MiningMode) (σ : heap) :
  __init__ m σ
  = Ok ({| mode := m; state := fresh (dom σ); buffer := [] |},
        <[fresh (dom σ) := MINING_CONSTANTS]> σ).
Proof. reflexivity. Qed.

Lemma nonce_mix_length (nonce : Z) (ws : list Z) :
  length (nonce_mix nonce ws) = length ws.
Proof.
  unfold nonce_mix. rewrite !mix_at_length, !xor_at_length. done.
Qed.

(** Any integer nonce leaves four 64-bit words: the first mixing step
    masks whatever the unmasked [^= nonce] produced. *)
Lemma nonce_mix_word64 (nonce : Z) (ws : list Z) :
  length ws = 4%nat -> Forall word64 ws -> Forall word64 (nonce_mix nonce ws).
Proof.
  intros Hlen HF.
  destruct ws as [|a [|b [|c [|d [|]]]]]; try discriminate.
  apply Forall_cons in HF as [Ha HF]. apply Forall_cons in HF as [Hb HF].
  apply Forall_cons in HF as [Hc HF]. apply Forall_cons in HF as [Hd _].
  unfold nonce_mix, xor_at, mix_at. cbn [nth list_insert insert].
  pose proof (mix_mining_word64 (Z.lxor a nonce)
                (Z.lxor b (_rotright nonce 32))
                (lxor_word64 _ _ Hb (rotright_word64 _ _))) as [H0 H1].
  pose proof (mix_mining_word64 c d Hd) as [H2 H3].
  destruct (_mix_mining (Z.lxor a nonce) _) as [x y].
  cbn [nth list_insert insert].
  destruct (_mix_mining c d) as [z w].
  cbn [list_insert insert]. cbn [fst snd] in *.
  repeat (apply List.Forall_cons; [assumption |]). apply List.Forall_nil.
Qed.

Lemma fast_nonce_mix_run (r : loc) (nonce : Z) (σ : heap) (ws : list Z) :
  σ !! r = Some ws -> length ws = 4%nat ->
  _fast_nonce_mix r nonce σ = Ok (r, <[r := nonce_mix nonce ws]> σ).
Proof.
  intros Hr Hlen. unfold _fast_nonce_mix.
  pose proof (in_place_seq _ _ _ _ _ (xor_item_in_place r 0 nonce ltac:(lia))
               (in_place_seq _ _ _ _ _
                  (xor_item_in_place r 1 (_rotright nonce 32) ltac:(lia))
                  (in_place_seq _ _ _ _ _
                     (mix_items_in_place r 0 1 ltac:(lia) ltac:(lia))
                     (mix_items_in_place r 2 3 ltac:(lia) ltac:(lia)))))
    as H.
  destruct (H σ ws Hr Hlen) as [E _]. clear H.
  unfold bindM in *.
  destruct (xor_item r 0 nonce σ) as [[[] σ1]|]; [| discriminate].
  destruct (xor_item r 1 (_rotright nonce 32) σ1) as [[[] σ2]|];
    [| discriminate].
  destruct (mix_items r 0 1 σ2) as [[[] σ3]|]; [| discriminate].
  rewrite E. reflexivity.
Qed.

End Digest.

(** ** One-shot hashes and the block search *)

Section OneShot.

Import BlockHash Words.

Lemma returns_bind {A B : Type} (m : M A) (k : A -> M B) (σ : heap)
      (a : A) (b : B) :
  returns m σ a -> (forall σ', returns (k a) σ' b) ->
  returns (bindM m k) σ b.
Proof.
  intros [σ1 E] Hk. destruct (Hk σ1) as [σ2 E2].
  exists σ2. rewrite (bindM_run _ _ _ _ _ E). exact E2.
Qed.

Lemma returns_ret {A : Type} (a : A) (σ : heap) : returns (ret a) σ a.
Proof. exists σ. reflexivity. Qed.

Lemma returns_functional {A : Type} (m : M A) (σ : heap) (a b : A) :
  returns m σ a -> returns m σ b -> a = b.
Proof. intros [σ1 E1] [σ2 E2]. congruence. Qed.

(** A fresh engine fed [data]: the words absorbed so far and the bytes
    still buffered. *)
Lemma fresh_update_run (m : MiningMode) (data : bytes) (σ : heap) :
  let r := fresh (dom σ) in
  (hasher <~ __init__ m ;; update hasher (PyBytes data)) σ
  = Ok ({| mode := m; state := r; buffer := leftover data |},
        <[r := absorb m (blocks_in data) data MINING_CONSTANTS]> σ).
Proof.
  intros r. rewrite (bindM_run _ _ _ _ _ (init_run m σ)).
  rewrite (update_bytes_run _ data _ MINING_CONSTANTS);
    [| apply lookup_insert_eq | reflexivity].
  cbn [mode state buffer set_buffer app].
  rewrite insert_insert_eq. reflexivity.
Qed.

Lemma bindM_assoc {A B C : Type} (m : M A) (k : A -> M B) (k' : B -> M C)
      (σ : heap) :
  bindM (bindM m k) k' σ = bindM m (fun a => bindM (k a) k') σ.
Proof.
  unfold bindM. destruct (m σ) as [[a σ1]|]; reflexivity.
Qed.

(** [hash_with_nonce] succeeds from every store, for every integer
    nonce, and reports [nonce_digest]. *)
Lemma hash_with_nonce_run (data : bytes) (nonce : Z) (m : MiningMode)
      (σ : heap) :
  returns (hash_with_nonce data nonce m) σ (nonce_digest m data nonce).
Proof.
  unfold hash_with_nonce, returns.
  rewrite <- bindM_assoc.
  rewrite (bindM_run _ _ _ _ _ (fresh_update_run m data σ)).
  set (r := fresh (dom σ)).
  set (ws := absorb m (blocks_in data) data MINING_CONSTANTS).
  cbn [state].
  assert (Hlen : length ws = 4%nat).
  { unfold ws. rewrite absorb_length. reflexivity. }
  assert (HF : Forall word64 ws).
  { apply absorb_word64; apply MINING_CONSTANTS_ok. }
  rewrite (bindM_run _ _ _ _ _
             (fast_nonce_mix_run r nonce _ ws (lookup_insert_eq _ _ _) Hlen)).
  rewrite insert_insert_eq.
  erewrite (bindM_run _ _ _ _ _ (hexdigest_run _ _ (nonce_mix nonce ws) _ _)).
  - eexists. reflexivity.
  Unshelve.
  + repeat split.
    * cbn [set_state state]. apply lookup_insert_eq.
    * rewrite nonce_mix_length. exact Hlen.
    * apply nonce_mix_word64; done.
  + cbn [set_state buffer]. pose proof (leftover_length data). lia.
Qed.

Lemma hash_bytes_run (data : bytes) (m : MiningMode) (σ : heap) :
  returns (smhash.hash_bytes data m) σ (digest_of m data).
Proof.
  unfold smhash.hash_bytes, returns.
  rewrite <- bindM_assoc.
  rewrite (bindM_run _ _ _ _ _ (fresh_update_run m data σ)).
  erewrite (bindM_run _ _ _ _ _
              (hexdigest_run _ _
                 (absorb m (blocks_in data) data MINING_CONSTANTS) _ _)).
  - eexists. reflexivity.
  Unshelve.
  + repeat split.
    * cbn [state]. apply lookup_insert_eq.
    * rewrite absorb_length. reflexivity.
    * apply absorb_word64; apply MINING_CONSTANTS_ok.
  + cbn [buffer]. pose proof (leftover_length data). lia.
Qed.

Lemma hash_string_run (s : pystr) (data : bytes) (m : MiningMode)
      (σ : heap) :
  utf8_encode s = Ok data ->
  returns (smhash.hash_string s m) σ (digest_of m data).
Proof.
  intros E. destruct (hash_bytes_run data m σ) as [σ' H].
  exists σ'. rewrite <- H.
  unfold smhash.hash_string, smhash.hash_bytes, bindM.
  destruct (__init__ m σ) as [[hasher σ1]|]; [| reflexivity].
  rewrite (update_str_run hasher s data σ1 E). reflexivity.
Qed.

Lemma verify_block_run (header : bytes) (nonce : Z) (expected : string)
      (σ : heap) :
  returns (smhash.verify_block header nonce expected) σ
          (String.eqb (nonce_digest SECURE header nonce) expected).
Proof.
  unfold smhash.verify_block.
  eapply returns_bind; [apply hash_with_nonce_run |].
  intros σ'. apply returns_ret.
Qed.

Lemma mine_loop_run (header : bytes) (target : string) (count : nat) :
  forall (nonce : Z) (σ : heap),
    returns (smhash.mine_loop header target count nonce) σ
            (block_result
               (first_hit (nonce_digest FAST header) target
                          (range_from nonce count))).
Proof.
  induction count as [|count IH]; intros nonce σ.
  - apply returns_ret.
  - cbn [smhash.mine_loop range_from first_hit].
    eapply returns_bind; [apply hash_with_nonce_run |].
    intros σ'. cbv beta.
    destruct (startswith (nonce_digest FAST header nonce) target).
    + apply returns_ret.
    + apply IH.
Qed.

(** ['0' * k] gives the zeros when the count fits an index and raises
    otherwise. *)
Lemma str_repeat_Ok (c : ascii) (k : Z) :
  - 2 ^ 63 <= k < 2 ^ 63 -> str_repeat c k = Ok (repeated c k).
Proof.
  intros Hk. unfold str_repeat.
  destruct (Z.leb_spec (- 2 ^ 63) k); [| lia].
  destruct (Z.ltb_spec k (2 ^ 63)); [reflexivity | lia].
Qed.

Lemma str_repeat_overflow (c : ascii) (k : Z) :
  k < - 2 ^ 63 \/ 2 ^ 63 <= k -> str_repeat c k = Raise OverflowError.
Proof.
  intros Hk. unfold str_repeat.
  destruct (Z.leb_spec (- 2 ^ 63) k); [| reflexivity].
  destruct (Z.ltb_spec k (2 ^ 63)); [lia | reflexivity].
Qed.

Lemma mine_block_run (header : bytes) (k N : Z) (σ : heap) :
  - 2 ^ 63 <= k < 2 ^ 63 ->
  returns (smhash.mine_block header k N) σ
          (block_result
             (first_hit (nonce_digest FAST header) (repeated "0" k)
                        (range_from 0 (Z.to_nat N)))).
Proof.
  intros Hk. unfold smhash.mine_block.
  eapply returns_bind; [eexists; apply init_run |].
  intros σ'. rewrite (str_repeat_Ok _ _ Hk).
  eapply returns_bind; [eexists; reflexivity |].
  intros σ''. apply mine_loop_run.
Qed.

(** A count outside the index range stops [mine_block] at line 260,
    before the first nonce. *)
Lemma mine_block_overflow (header : bytes) (k N : Z) (σ : heap) :
  k < - 2 ^ 63 \/ 2 ^ 63 <= k ->
  smhash.mine_block header k N σ = Raise OverflowError.
Proof.
  intros Hk. unfold smhash.mine_block, bindM.
  rewrite init_run, (str_repeat_overflow _ _ Hk). reflexivity.
Qed.

End OneShot.

(** ** Scanning nonces in ascending order *)

Section Search.

Lemma range_from_In (count : nat) :
  forall (start n : Z),
    In n (range_from start count) <-> start <= n < start + Z.of_nat count.
Proof.
  induction count as [|count IH]; intros start n; cbn [range_from In].
  - lia.
  - rewrite IH. lia.
Qed.

Lemma range_from_length (count : nat) (start : Z) :
  length (range_from start count) = count.
Proof.
  revert start. induction count as [|count IH]; intros start; simpl;
    [done | by rewrite IH].
Qed.

(** The nonces come in ascending order: position [i] holds [start + i]. *)
Lemma range_from_lookup (count : nat) :
  forall (start : Z) (i : nat),
    (i < count)%nat -> range_from start count !! i = Some (start + Z.of_nat i).
Proof.
  induction count as [|count IH]; intros start i Hi; [lia |].
  destruct i as [|i]; cbn [range_from].
  - simpl. f_equal. lia.
  - simpl. rewrite IH by lia. f_equal. lia.
Qed.

Lemma first_hit_Some (digest : Z -> string) (target : string) (count : nat) :
  forall (start n : Z) (h : string),
    first_hit digest target (range_from start count) = Some (n, h) ->
    start <= n < start + Z.of_nat count
    /\ h = digest n
    /\ startswith h target = true
    /\ forall n', start <= n' < n -> startswith (digest n') target = false.
Proof.
  induction count as [|count IH]; intros start n h; cbn [range_from first_hit].
  - discriminate.
  - destruct (startswith (digest start) target) eqn:E.
    + intros [= <- <-]. repeat split; try lia; try done.
    + intros H. destruct (IH _ _ _ H) as (Hn & Hh & Hs & Hmin).
      repeat split; try lia; try done.
      intros n' Hn'. destruct (Z.eq_dec n' start) as [-> |]; [done |].
      apply Hmin. lia.
Qed.

Lemma first_hit_None (digest : Z -> string) (target : string) (count : nat) :
  forall start : Z,
    first_hit digest target (range_from start count) = None
    <-> forall n', start <= n' < start + Z.of_nat count ->
                   startswith (digest n') target = false.
Proof.
  induction count as [|count IH]; intros start; cbn [range_from first_hit].
  - split; [intros _ n'; lia | done].
  - destruct (startswith (digest start) target) eqn:E.
    + split; [discriminate |]. intros H.
      rewrite H in E by lia. discriminate.
    + rewrite IH. split.
      * intros H n' Hn'.
        destruct (Z.eq_dec n' start) as [-> |]; [done |]. apply H. lia.
      * intros H n' Hn'. apply H. lia.
Qed.

Lemma prefix_zeros (n : nat) :
  forall s : string,
    String.prefix (string_of_list_ascii (repeat "0"%char n)) s = true
    <-> forall i : nat, (i < n)%nat -> String.get i s = Some "0"%char.
Proof.
  induction n as [|n IH]; intros s; cbn [repeat string_of_list_ascii].
  - split; [intros _ i; lia |]. intros _. destruct s; reflexivity.
  - destruct s as [|c s]; cbn [String.prefix].
    + split; [discriminate |]. intros H. specialize (H 0%nat ltac:(lia)).
      discriminate.
    + destruct (ascii_dec "0" c) as [<- | Hne].
      * rewrite IH. split.
        -- intros H [|i] Hi; [reflexivity |]. cbn [String.get]. apply H. lia.
        -- intros H i Hi. apply (H (S i)). lia.
      * split; [discriminate |]. intros H.
        specialize (H 0%nat ltac:(lia)). cbn [String.get] in H. congruence.
Qed.

(** [h.startswith('0' * k)] says that [h] has [k] leading zeros. *)
Lemma startswith_zeros (k : Z) (h : string) :
  startswith h (repeated "0" k) = true <-> leading_zeros k h.
Proof. unfold startswith, repeated, leading_zeros. apply prefix_zeros. Qed.

Lemma not_startswith_zeros (k : Z) (h : string) :
  startswith h (repeated "0" k) = false <-> ~ leading_zeros k h.
Proof.
  rewrite <- startswith_zeros.
  destruct (startswith h (repeated "0" k)); split; try done;
    intros H; exfalso; by apply H.
Qed.

End Search.

(** ** Bytes and hexadecimal text *)

Section Encoding.

Lemma byte_val_of_Z (z : Z) : byte_val (byte_of_Z z) = z mod 256.
Proof.
  unfold byte_val, byte_of_Z.
  pose proof (Z.mod_pos_bound z 256 ltac:(lia)) as Hb.
  destruct (Byte.of_N (Z.to_N (z mod 256))) as [b|] eqn:E.
  - apply Byte.to_of_N in E. rewrite E. lia.
  - apply Byte.of_N_None_iff in E. lia.
Qed.

(** Reading back the [n] bytes written for [x] gives [x] modulo
    [256 ^ n]. *)
Lemma from_bytes_big_be_bytes (n : nat) :
  forall x : Z, from_bytes_big (be_bytes n x) = x mod 256 ^ Z.of_nat n.
Proof.
  induction n as [|n IH]; intros x.
  - cbn [be_bytes]. change (from_bytes_big []) with 0.
    rewrite Z.pow_0_r, Z.mod_1_r. reflexivity.
  - cbn [be_bytes]. rewrite from_bytes_big_app, IH.
    change (from_bytes_big [byte_of_Z x]) with (0 * 256 + byte_val (byte_of_Z x)).
    rewrite byte_val_of_Z. cbn [length].
    change (256 ^ Z.of_nat 1) with 256.
    rewrite Nat2Z.inj_succ, Z.pow_succ_r by lia.
    rewrite (Z.rem_mul_r x 256 (256 ^ Z.of_nat n)) by lia. lia.
Qed.

Lemma hex_digits_length (n : nat) (x : Z) : length (hex_digits n x) = n.
Proof.
  revert x. induction n as [|n IH]; intros x; cbn [hex_digits]; [done |].
  rewrite length_app, IH. simpl. lia.
Qed.

Lemma hex_digit_lower (d : Z) :
  0 <= d < 16 -> is_lower_hex (hex_digit d) = true.
Proof.
  intros H. unfold hex_digit.
  assert (Hn : (Z.to_nat d < 16)%nat) by lia.
  destruct (Z.to_nat d) as [|[|[|[|[|[|[|[|[|[|[|[|[|[|[|[|n]]]]]]]]]]]]]]]];
    try reflexivity. lia.
Qed.

Lemma hex_digits_lower (n : nat) (x : Z) :
  Forall (fun c => is_lower_hex c = true) (hex_digits n x).
Proof.
  revert x. induction n as [|n IH]; intros x; cbn [hex_digits].
  - constructor.
  - apply Forall_app. split; [apply IH |].
    constructor; [| constructor].
    apply hex_digit_lower. apply Z.mod_pos_bound. lia.
Qed.

Lemma list_ascii_of_string_app (s t : string) :
  list_ascii_of_string (s ++ t)%string
  = list_ascii_of_string s ++ list_ascii_of_string t.
Proof. induction s as [|c s IH]; simpl; [done | by rewrite IH]. Qed.

Lemma string_length_list (s : string) :
  String.length s = length (list_ascii_of_string s).
Proof. induction s as [|c s IH]; simpl; [done | by rewrite IH]. Qed.

Lemma bytes_hex_length (b : bytes) :
  String.length (bytes_hex b) = (2 * length b)%nat.
Proof.
  unfold bytes_hex.
  rewrite string_length_list, list_ascii_of_string_of_list_ascii.
  induction b as [|x b IH]; [reflexivity |].
  cbn [flat_map]. rewrite length_app, IH, hex_digits_length.
  simpl length. lia.
Qed.

Lemma bytes_hex_lower (b : bytes) : lower_hex_string (bytes_hex b).
Proof.
  unfold lower_hex_string, bytes_hex.
  rewrite list_ascii_of_string_of_list_ascii.
  induction b as [|x b IH]; [constructor |].
  cbn [flat_map]. apply Forall_app. split; [apply hex_digits_lower | done].
Qed.

Lemma hex_width_word32 (x : Z) : 0 <= x < 2 ^ 32 -> (hex_width x <= 8)%nat.
Proof.
  intros H. unfold hex_width. destruct (Z.eqb_spec x 0); [lia |].
  assert (Z.log2 x < 32) by (apply Z.log2_lt_pow2; lia).
  pose proof (Z.log2_nonneg x).
  assert (Z.log2 x / 4 < 8) by (apply Z.div_lt_upper_bound; lia).
  pose proof (Z.div_pos (Z.log2 x) 4). lia.
Qed.

Lemma format_08x_word32 (x : Z) :
  0 <= x < 2 ^ 32 ->
  String.length (format_08x x) = 8%nat /\ lower_hex_string (format_08x x).
Proof.
  intros H. unfold format_08x, lower_hex_string.
  destruct (Z.ltb_spec x 0); [lia |].
  rewrite string_length_list, list_ascii_of_string_of_list_ascii.
  rewrite (Nat.max_l 8) by (apply hex_width_word32; done).
  split; [apply hex_digits_length | apply hex_digits_lower].
Qed.

End Encoding.

(** ** SHA-256: padding and block processing *)

Section Sha256.

Import SHA256.

Lemma land_mask32 (x : Z) : word32 (Z.land x 0xFFFFFFFF).
Proof.
  unfold word32. change 0xFFFFFFFF with (Z.ones 32).
  rewrite Z.land_ones by lia. apply Z.mod_pos_bound. lia.
Qed.

Lemma pad_zeros_unfold (fuel : nat) (message : bytes) :
  pad_zeros fuel message
  = if ((Z.of_nat (length message) * 8 + 64) mod 512 =? 0) then Some message
    else match fuel with
         | O => None
         | S fuel' => pad_zeros fuel' (message ++ [x00])
         end.
Proof. destruct fuel; reflexivity. Qed.

(** The loop test holds exactly at lengths congruent to 56 modulo 64. *)
Lemma pad_test (n : nat) :
  (Z.of_nat n * 8 + 64) mod 512 = 0 <-> Z.of_nat n mod 64 = 56.
Proof.
  replace (Z.of_nat n * 8 + 64) with (8 * (Z.of_nat n + 8)) by lia.
  change 512 with (8 * 64).
  rewrite Z.mul_mod_distr_l by lia.
  pose proof (Z.mod_pos_bound (Z.of_nat n + 8) 64 ltac:(lia)).
  pose proof (Z.mod_pos_bound (Z.of_nat n) 64 ltac:(lia)).
  pose proof (Z.div_mod (Z.of_nat n + 8) 64 ltac:(lia)).
  pose proof (Z.div_mod (Z.of_nat n) 64 ltac:(lia)).
  lia.
Qed.

Lemma pad_need_zero (message : bytes) :
  Z.of_nat (length message) mod 64 = 56 <-> pad_need message = 0%nat.
Proof.
  unfold pad_need.
  pose proof (Z.mod_pos_bound (56 - Z.of_nat (length message)) 64 ltac:(lia)).
  pose proof (Z.mod_pos_bound (Z.of_nat (length message)) 64 ltac:(lia)).
  pose proof (Z.div_mod (56 - Z.of_nat (length message)) 64 ltac:(lia)).
  pose proof (Z.div_mod (Z.of_nat (length message)) 64 ltac:(lia)).
  lia.
Qed.

Lemma pad_need_step (message : bytes) :
  pad_need message <> 0%nat ->
  pad_need message = S (pad_need (message ++ [x00])).
Proof.
  unfold pad_need. rewrite length_app. cbn [length]. intros Hne.
  pose proof (Z.mod_pos_bound (56 - Z.of_nat (length message)) 64 ltac:(lia)).
  pose proof (Z.mod_pos_bound
                (56 - Z.of_nat (length message + 1)) 64 ltac:(lia)).
  pose proof (Z.div_mod (56 - Z.of_nat (length message)) 64 ltac:(lia)).
  pose proof (Z.div_mod
                (56 - Z.of_nat (length message + 1)) 64 ltac:(lia)).
  lia.
Qed.

Lemma pad_need_bound (message : bytes) : (pad_need message < 64)%nat.
Proof.
  unfold pad_need.
  pose proof (Z.mod_pos_bound (56 - Z.of_nat (length message)) 64 ltac:(lia)).
  lia.
Qed.

Lemma pad_need_length (message : bytes) :
  Z.of_nat (length message + pad_need message) mod 64 = 56.
Proof.
  unfold pad_need.
  pose proof (Z.mod_pos_bound (56 - Z.of_nat (length message)) 64 ltac:(lia)).
  pose proof (Z.div_mod (56 - Z.of_nat (length message)) 64 ltac:(lia)).
  pose proof (Z.mod_pos_bound
                (Z.of_nat (length message
                           + Z.to_nat ((56 - Z.of_nat (length message)) mod 64)))
                64 ltac:(lia)).
  pose proof (Z.div_mod
                (Z.of_nat (length message
                           + Z.to_nat ((56 - Z.of_nat (length message)) mod 64)))
                64 ltac:(lia)).
  lia.
Qed.

(** The padding loop stops within its bound, after [pad_need] zeros. *)
Lemma pad_zeros_run (fuel : nat) :
  forall message : bytes,
    (pad_need message <= fuel)%nat ->
    pad_zeros fuel message
    = Some (message ++ repeat x00 (pad_need message)).
Proof.
  induction fuel as [|fuel IH]; intros message Hfuel;
    rewrite pad_zeros_unfold;
    destruct (Z.eqb_spec ((Z.of_nat (length message) * 8 + 64) mod 512) 0)
      as [Hz|Hnz].
  - apply pad_test, pad_need_zero in Hz. rewrite Hz. simpl.
    by rewrite app_nil_r.
  - exfalso. apply Hnz, pad_test, pad_need_zero. lia.
  - apply pad_test, pad_need_zero in Hz. rewrite Hz. simpl.
    by rewrite app_nil_r.
  - assert (Hne : pad_need message <> 0%nat).
    { intros H0. apply Hnz, pad_test, pad_need_zero. exact H0. }
    rewrite IH by (rewrite (pad_need_step _ Hne) in Hfuel; lia).
    rewrite (pad_need_step _ Hne). cbn [repeat].
    rewrite <- app_assoc. reflexivity.
Qed.

Lemma pad_message_run (message : bytes) :
  Z.of_nat (length message) * 8 < 2 ^ 64 ->
  _pad_message message
  = Ok ((message ++ [x80]) ++ repeat x00 (pad_need (message ++ [x80]))
        ++ be_bytes 8 (Z.of_nat (length message) * 8)).
Proof.
  intros Hlen. unfold _pad_message.
  rewrite pad_zeros_run by (pose proof (pad_need_bound (message ++ [x80])); lia).
  rewrite to_bytes_big_word64 by (unfold Words.word64; lia).
  cbn [bindR]. rewrite <- app_assoc. reflexivity.
Qed.

Lemma pad_message_overflow (message : bytes) :
  2 ^ 64 <= Z.of_nat (length message) * 8 ->
  _pad_message message = Raise OverflowError.
Proof.
  intros Hlen. unfold _pad_message.
  rewrite pad_zeros_run by (pose proof (pad_need_bound (message ++ [x80])); lia).
  unfold to_bytes_big. change (256 ^ Z.of_nat 8) with (2 ^ 64).
  destruct (Z.ltb_spec (Z.of_nat (length message) * 8) (2 ^ 64)); [lia |].
  rewrite andb_false_r. reflexivity.
Qed.

End Sha256.

(** ** SHA-256: every block is processed without an error *)

Section Sha256Blocks.

Import SHA256.

Lemma setitem_Ok {A : Type} (l : list A) (i : nat) (v : A) :
  (i < length l)%nat -> setitem l i v = Ok (<[i := v]> l).
Proof.
  intros H. unfold setitem. destruct (decide _); [reflexivity | lia].
Qed.

Lemma getitem_Ok {A : Type} (l : list A) (i : nat) :
  (i < length l)%nat -> exists v, getitem l i = Ok v.
Proof.
  intros H. unfold getitem.
  destruct (lookup_lt_is_Some_2 l i H) as [v ->]. eauto.
Qed.

Lemma load_word_run (block : bytes) (i : nat) (w : list Z) :
  (i < 16)%nat -> length w = 64%nat ->
  exists w', load_word block i w = Ok w' /\ length w' = 64%nat.
Proof.
  intros Hi Hw. unfold load_word. rewrite setitem_Ok by lia.
  eexists. split; [reflexivity |]. by rewrite length_insert.
Qed.

Lemma extend_word_run (i : nat) (w : list Z) :
  (16 <= i < 64)%nat -> length w = 64%nat ->
  exists w', extend_word i w = Ok w' /\ length w' = 64%nat.
Proof.
  intros Hi Hw. unfold extend_word.
  destruct (getitem_Ok w (i - 15) ltac:(lia)) as [w15 ->].
  destruct (getitem_Ok w (i - 2) ltac:(lia)) as [w2 ->].
  destruct (getitem_Ok w (i - 16) ltac:(lia)) as [w16 ->].
  destruct (getitem_Ok w (i - 7) ltac:(lia)) as [w7 ->].
  cbn [bindR]. rewrite setitem_Ok by lia.
  eexists. split; [reflexivity |]. by rewrite length_insert.
Qed.

Lemma round_run (kk w : list Z) (i : nat) (r : regs) :
  (i < 64)%nat -> length kk = 64%nat -> length w = 64%nat ->
  exists r', round kk w i r = Ok r'.
Proof.
  intros Hi Hk Hw. unfold round.
  destruct r as [[[[[[[a b] c] d] e] f] g] hh].
  destruct (getitem_Ok kk i ltac:(lia)) as [ki ->].
  destruct (getitem_Ok w i ltac:(lia)) as [wi ->].
  cbn [bindR]. eauto.
Qed.

Lemma zip_add_word32 (xs ys : list Z) : Forall word32 (zip_add xs ys).
Proof.
  unfold zip_add. apply Forall_map, Forall_forall.
  intros p _. apply land_mask32.
Qed.

Lemma process_block_run (self : t) (block : bytes) :
  length (h self) = 8%nat -> length (k self) = 64%nat ->
  exists self',
    _process_block self block = Ok self'
    /\ length (h self') = 8%nat
    /\ Forall word32 (h self')
    /\ k self' = k self.
Proof.
  intros Hh Hk. unfold _process_block.
  destruct (for_range_invariant (fun w => length w = 64%nat)
              (load_word block) 16 0 (repeat 0 64))
    as (w1 & -> & Hw1).
  { apply repeat_length. }
  { intros i w Hi Hw. apply load_word_run; [lia | done]. }
  cbn [bindR].
  destruct (for_range_invariant (fun w => length w = 64%nat)
              extend_word 48 16 w1)
    as (w2 & -> & Hw2).
  { exact Hw1. }
  { intros i w Hi Hw. apply extend_word_run; [lia | done]. }
  cbn [bindR].
  destruct (h self) as [|a [|b [|c [|d [|e [|f [|g [|hh [|]]]]]]]]] eqn:Eh;
    try discriminate.
  destruct (for_range_invariant (fun _ : regs => True)
              (round (k self) w2) 64 0 (a, b, c, d, e, f, g, hh))
    as (r & -> & _).
  { exact I. }
  { intros i r Hi _.
    destruct (round_run (k self) w2 i r ltac:(lia) Hk Hw2) as [r' ->].
    eauto. }
  cbn [bindR].
  destruct r as [[[[[[[a' b'] c'] d'] e'] f'] g'] hh'].
  eexists. split; [reflexivity |]. cbn [SHA256.h SHA256.k].
  split; [reflexivity |]. split; [apply zip_add_word32 | reflexivity].
Qed.

Lemma process_blocks_run (n : nat) :
  forall (i : nat) (padded : bytes) (self : t),
    length (h self) = 8%nat -> length (k self) = 64%nat ->
    (n = 0%nat -> Forall word32 (h self)) ->
    exists self',
      process_blocks n i padded self = Ok self'
      /\ length (h self') = 8%nat
      /\ Forall word32 (h self').
Proof.
  induction n as [|n IH]; intros i padded self Hh Hk H0.
  - exists self. split; [reflexivity |]. split; [done | by apply H0].
  - cbn [process_blocks].
    destruct (process_block_run self (slice padded i (i + 64)) Hh Hk)
      as (self1 & -> & Hh1 & HF1 & Hk1).
    cbn [bindR]. apply IH; [done | by rewrite Hk1 | done].
Qed.

Lemma init_ok :
  length (h __init__) = 8%nat /\ length (k __init__) = 64%nat
  /\ Forall word32 (h __init__).
Proof.
  split; [reflexivity |]. split; [reflexivity |].
  unfold word32. cbn [h __init__]. repeat constructor; lia.
Qed.

Lemma str_join_format (ws : list Z) :
  Forall word32 ws ->
  String.length (str_join (map format_08x ws)) = (8 * length ws)%nat
  /\ lower_hex_string (str_join (map format_08x ws)).
Proof.
  induction 1 as [|x ws Hx HF [IHl IHh]].
  - split; [reflexivity | constructor].
  - destruct (format_08x_word32 x Hx) as [Lx Hxh].
    cbn [map str_join fold_right]. fold (str_join (map format_08x ws)).
    split.
    + rewrite string_length_list, list_ascii_of_string_app, length_app,
        <- !string_length_list, Lx, IHl. cbn [length]. lia.
    + unfold lower_hex_string in *. rewrite list_ascii_of_string_app.
      apply Forall_app. done.
Qed.

(** [hash] starts from the initial constants whatever object it is
    called on. *)
Lemma hash_resets (self : t) (message : bytes) :
  hash self message = hash __init__ message.
Proof. reflexivity. Qed.

Lemma hash_run (self : t) (message : bytes) :
  Z.of_nat (length message) * 8 < 2 ^ 64 ->
  exists (s : string) (self' : t),
    hash self message = Ok (s, self')
    /\ String.length s = 64%nat
    /\ lower_hex_string s.
Proof.
  intros Hlen. unfold hash. rewrite (pad_message_run message Hlen).
  cbn [bindR].
  destruct init_ok as (Hh & Hk & HF).
  set (padded := (message ++ [x80])
                 ++ repeat x00 (pad_need (message ++ [x80]))
                 ++ be_bytes 8 (Z.of_nat (length message) * 8)).
  destruct (process_blocks_run (range_count (length padded))
              0 padded __init__ Hh Hk (fun _ => HF))
    as (self' & -> & Hh' & HF').
  cbn [bindR]. eexists _, _. split; [reflexivity |].
  destruct (str_join_format _ HF') as [L Hx].
  rewrite L, Hh'. done.
Qed.

Lemma hash_overflow (self : t) (message : bytes) :
  2 ^ 64 <= Z.of_nat (length message) * 8 ->
  hash self message = Raise OverflowError.
Proof.
  intros Hlen. unfold hash. rewrite (pad_message_overflow message Hlen).
  reflexivity.
Qed.

End Sha256Blocks.

(** ** Text candidates: [f"{text}{nonce}"] and its UTF-8 bytes *)

Section Candidates.

Lemma string_of_uint_ascii (d : Decimal.uint) :
  Forall (fun c => (N_of_ascii c < 128)%N)
         (list_ascii_of_string (NilEmpty.string_of_uint d)).
Proof.
  induction d; cbn [NilEmpty.string_of_uint list_ascii_of_string];
    try constructor; try done.
Qed.

(** The decimal text of an integer is plain ASCII. *)
Lemma str_of_int_ascii (n : Z) :
  Forall (fun c => (N_of_ascii c < 128)%N)
         (list_ascii_of_string (str_of_int n)).
Proof.
  unfold str_of_int, NilZero.string_of_int, NilZero.string_of_uint.
  destruct (Z.to_int n) as [d|d].
  - destruct d; try apply (string_of_uint_ascii (_ _)).
    repeat constructor.
  - cbn [list_ascii_of_string]. constructor; [done |].
    destruct d; try apply (string_of_uint_ascii (_ _)).
    repeat constructor.
Qed.

(** The decimal text reads back as the integer it was printed from. *)
Lemma str_of_int_reads_back (n : Z) :
  option_map Z.of_int (NilZero.int_of_string (str_of_int n)) = Some n.
Proof.
  unfold str_of_int. rewrite NilZero.isi.
  - cbn [option_map]. f_equal. apply DecimalZ.of_to.
  - destruct n as [|p|p]; cbn; try discriminate.
    intros [= H]. exact (DecimalPos.Unsigned.to_uint_nonnil p H).
  - destruct n as [|p|p]; cbn; try discriminate.
    intros [= H]. exact (DecimalPos.Unsigned.to_uint_nonnil p H).
Qed.

Lemma utf8_encode_app (s t : pystr) (a b : bytes) :
  utf8_encode s = Ok a -> utf8_encode t = Ok b ->
  utf8_encode (s ++ t) = Ok (a ++ b).
Proof.
  revert a. induction s as [|c s IH]; intros a Hs Ht.
  - injection Hs as <-. exact Ht.
  - cbn [utf8_encode app] in *.
    destruct (utf8_encode_cp c) as [hd|]; [| discriminate].
    cbn [bindR] in *.
    destruct (utf8_encode s) as [tl|]; [| discriminate].
    cbn [bindR] in *. injection Hs as <-.
    rewrite (IH tl eq_refl Ht). cbn [bindR]. by rewrite app_assoc.
Qed.

Lemma utf8_encode_ascii (l : list ascii) :
  Forall (fun c => (N_of_ascii c < 128)%N) l ->
  utf8_encode (map N_of_ascii l)
  = Ok (map (fun c => byte_of_Z (Z.of_N (N_of_ascii c))) l).
Proof.
  induction 1 as [|c l Hc HF IH]; [reflexivity |].
  cbn [map utf8_encode]. unfold utf8_encode_cp.
  destruct (N.ltb_spec (N_of_ascii c) 128); [| lia].
  cbn [bindR]. rewrite IH. reflexivity.
Qed.

Lemma with_nonce_encode (text : pystr) (tb : bytes) (nonce : Z) :
  utf8_encode text = Ok tb ->
  utf8_encode (miner.with_nonce text nonce) = Ok (tb ++ decimal_bytes nonce).
Proof.
  intros E. unfold miner.with_nonce, pystr_of_string, decimal_bytes.
  apply utf8_encode_app; [exact E |].
  apply utf8_encode_ascii, str_of_int_ascii.
Qed.

Lemma hash_sha256_with_nonce_run (text : pystr) (tb : bytes) (nonce : Z) :
  utf8_encode text = Ok tb ->
  miner.hash_sha256_with_nonce text nonce
  = SHA256.hash_bytes (tb ++ decimal_bytes nonce).
Proof.
  intros E. unfold miner.hash_sha256_with_nonce, SHA256.hash_string.
  rewrite (with_nonce_encode text tb nonce E). reflexivity.
Qed.

Lemma hash_smhash_with_nonce_run (text : pystr) (tb : bytes) (nonce : Z)
      (σ : heap) :
  utf8_encode text = Ok tb ->
  returns (miner.hash_smhash_with_nonce text nonce) σ
          (Words.digest_of STANDARD (tb ++ decimal_bytes nonce)).
Proof.
  intros E. apply hash_string_run, with_nonce_encode, E.
Qed.

End Candidates.

(** ** The two text searches *)

Section TextSearch.

Lemma range_from_snoc (count : nat) :
  forall start : Z,
    range_from start (S count)
    = range_from start count ++ [start + Z.of_nat count].
Proof.
  induction count as [|count IH]; intros start.
  - cbn. f_equal. lia.
  - change (range_from start (S (S count)))
      with (start :: range_from (start + 1) (S count)).
    rewrite IH. cbn [range_from app]. do 3 f_equal. lia.
Qed.

Lemma range_from_nat_succ (s : nat) :
  range_from 0 (S s) = range_from 0 s ++ [Z.of_nat s].
Proof. rewrite range_from_snoc. reflexivity. Qed.

(** [sha_loop] from nonce [s], after the progress lines of the nonces
    below [s], is the ascending scan from [s]. *)
Lemma sha_loop_run (text : pystr) (tb : bytes) (target : string) (M : Z)
      (count : nat) :
  utf8_encode text = Ok tb ->
  forall s : nat,
    (s + count)%nat = Z.to_nat M ->
    (r <- miner.sha_loop text target M count (Z.of_nat s) ;;
     Ok (flat_map miner.progress (range_from 0 s) ++ r))
    = (o <- first_hitR (fun n => SHA256.hash_bytes (tb ++ decimal_bytes n))
                       target (range_from (Z.of_nat s) count) ;;
       Ok (search_report text M o)).
Proof.
  intros E. induction count as [|count IH]; intros s Hs.
  - cbn [miner.sha_loop range_from first_hitR bindR search_report].
    rewrite <- Hs, Nat.add_0_r. reflexivity.
  - cbn [miner.sha_loop range_from first_hitR].
    rewrite (hash_sha256_with_nonce_run text tb _ E).
    destruct (SHA256.hash_bytes (tb ++ decimal_bytes (Z.of_nat s)))
      as [h0|]; [| reflexivity].
    cbn [bindR]. destruct (startswith h0 target).
    + cbn [bindR search_report].
      replace (Z.to_nat (Z.of_nat s + 1)) with (S s) by lia.
      rewrite range_from_nat_succ, flat_map_app, <- !app_assoc.
      cbn [flat_map]. rewrite app_nil_r. reflexivity.
    + replace (Z.of_nat s + 1) with (Z.of_nat (S s)) by lia.
      rewrite <- (IH (S s)) by lia.
      destruct (miner.sha_loop text target M count (Z.of_nat (S s)))
        as [rest|]; [| reflexivity].
      cbn [bindR].
      rewrite range_from_nat_succ, flat_map_app, <- !app_assoc.
      cbn [flat_map]. rewrite app_nil_r. reflexivity.
Qed.

Lemma mine_sha_256_hash_run (text : pystr) (tb : bytes) (k N : Z) :
  utf8_encode text = Ok tb ->
  - 2 ^ 63 <= k < 2 ^ 63 ->
  miner.mine_sha_256_hash text k N
  = (o <- first_hitR (fun n => SHA256.hash_bytes (tb ++ decimal_bytes n))
                     (repeated "0" k) (range_from 0 (Z.to_nat N)) ;;
     Ok (search_report text N o)).
Proof.
  intros E Hk. unfold miner.mine_sha_256_hash.
  rewrite (str_repeat_Ok _ _ Hk). cbn [bindR].
  rewrite <- (sha_loop_run text tb _ N (Z.to_nat N) E 0%nat) by lia.
  cbn [range_from flat_map app Z.of_nat].
  destruct (miner.sha_loop _ _ _ _ _); reflexivity.
Qed.

(** A count outside the index range stops both searches of [miner.py]
    at their first line, before any nonce is tried. *)
Lemma mine_sha_256_hash_overflow (text : pystr) (k N : Z) :
  k < - 2 ^ 63 \/ 2 ^ 63 <= k ->
  miner.mine_sha_256_hash text k N = Raise OverflowError.
Proof.
  intros Hk. unfold miner.mine_sha_256_hash.
  rewrite (str_repeat_overflow _ _ Hk). reflexivity.
Qed.

Lemma mine_smhash_hash_overflow (text : pystr) (k N : Z) (σ : heap) :
  k < - 2 ^ 63 \/ 2 ^ 63 <= k ->
  miner.mine_smhash_hash text k N σ = Raise OverflowError.
Proof.
  intros Hk. unfold miner.mine_smhash_hash, bindM.
  rewrite (str_repeat_overflow _ _ Hk). reflexivity.
Qed.

Lemma smhash_loop_run (text : pystr) (tb : bytes) (target : string) (M : Z)
      (count : nat) :
  utf8_encode text = Ok tb ->
  forall (s : nat) (σ : heap),
    (s + count)%nat = Z.to_nat M ->
    returns (r <~ miner.smhash_loop text target M count (Z.of_nat s) ;;
             ret (flat_map miner.progress (range_from 0 s) ++ r)) σ
            (search_report text M
               (first_hit (fun n => Words.digest_of STANDARD
                                      (tb ++ decimal_bytes n))
                          target (range_from (Z.of_nat s) count))).
Proof.
  intros E. induction count as [|count IH]; intros s σ Hs.
  - cbn [miner.smhash_loop range_from first_hit search_report].
    rewrite <- Hs, Nat.add_0_r. eexists. reflexivity.
  - cbn [miner.smhash_loop range_from first_hit].
    unfold returns. rewrite bindM_assoc.
    destruct (hash_smhash_with_nonce_run text tb (Z.of_nat s) σ E)
      as [σ1 E1].
    rewrite (bindM_run _ _ _ _ _ E1).
    destruct (startswith _ target).
    + cbn [search_report].
      replace (Z.to_nat (Z.of_nat s + 1)) with (S s) by lia.
      rewrite range_from_nat_succ, flat_map_app, <- !app_assoc.
      cbn [flat_map]. rewrite app_nil_r. eexists. reflexivity.
    + replace (Z.of_nat s + 1) with (Z.of_nat (S s)) by lia.
      destruct (IH (S s) σ1 ltac:(lia)) as [σ2 E2].
      exists σ2. rewrite <- E2. rewrite bindM_assoc.
      unfold bindM.
      destruct (miner.smhash_loop text target M count (Z.of_nat (S s)) σ1)
        as [[rest σ3]|]; [| reflexivity].
      unfold ret.
      rewrite range_from_nat_succ, flat_map_app, <- !app_assoc.
      cbn [flat_map]. rewrite app_nil_r. reflexivity.
Qed.

Lemma mine_smhash_hash_run (text : pystr) (tb : bytes) (k N : Z) (σ : heap) :
  utf8_encode text = Ok tb ->
  - 2 ^ 63 <= k < 2 ^ 63 ->
  returns (miner.mine_smhash_hash text k N) σ
          (search_report text N
             (first_hit (fun n => Words.digest_of STANDARD
                                    (tb ++ decimal_bytes n))
                        (repeated "0" k) (range_from 0 (Z.to_nat N)))).
Proof.
  intros E Hk. unfold miner.mine_smhash_hash.
  rewrite (str_repeat_Ok _ _ Hk).
  destruct (smhash_loop_run text tb (repeated "0" k) N (Z.to_nat N) E
              0%nat σ ltac:(lia)) as [σ' H].
  change (Z.of_nat 0) with 0 in H.
  exists σ'. rewrite <- H. cbn [range_from flat_map app].
  unfold bindM, lift.
  destruct (miner.smhash_loop _ _ _ _ _ σ) as [[r σ1]|]; reflexivity.
Qed.

End TextSearch.

(** ** Header packing and digest sizes *)

Section Packing.

Lemma le_bytes_length (n : nat) (x : Z) : length (le_bytes n x) = n.
Proof. unfold le_bytes. rewrite length_rev. apply be_bytes_length. Qed.

Lemma pack_I_Ok (x : Z) :
  0 <= x <= 0xFFFFFFFF -> pack_I x = Ok (le_bytes 4 x).
Proof.
  intros H. unfold pack_I.
  destruct (Z.leb_spec 0 x); [| lia].
  destruct (Z.leb_spec x 0xFFFFFFFF); [| lia]. reflexivity.
Qed.

Lemma pack_I_error (x : Z) :
  ~ (0 <= x <= 0xFFFFFFFF) -> pack_I x = Raise StructError.
Proof.
  intros H. unfold pack_I.
  destruct (Z.leb_spec 0 x); destruct (Z.leb_spec x 0xFFFFFFFF);
    try reflexivity. lia.
Qed.

Lemma pack_32s_length (b : bytes) : length (pack_32s b) = 32%nat.
Proof.
  unfold pack_32s. rewrite length_app, length_take, repeat_length. lia.
Qed.

Lemma pack_32s_exact (b : bytes) : length b = 32%nat -> pack_32s b = b.
Proof.
  intros H. unfold pack_32s. rewrite take_ge by lia.
  rewrite H, Nat.sub_diag. cbn [repeat]. apply app_nil_r.
Qed.

Lemma pack_32s_long (b : bytes) :
  (32 < length b)%nat -> pack_32s b = take 32 b.
Proof.
  intros H. unfold pack_32s.
  replace (32 - length b)%nat with 0%nat by lia.
  cbn [repeat]. apply app_nil_r.
Qed.

Lemma pack_32s_short (b : bytes) :
  (length b < 32)%nat -> pack_32s b = b ++ repeat x00 (32 - length b).
Proof. intros H. unfold pack_32s. rewrite take_ge by lia. reflexivity. Qed.

Lemma pack_header_Ok (version : Z) (prev_hash merkle_root : bytes)
      (timestamp bits nonce : Z) :
  0 <= version <= 0xFFFFFFFF -> 0 <= timestamp <= 0xFFFFFFFF ->
  0 <= bits <= 0xFFFFFFFF -> 0 <= nonce <= 0xFFFFFFFF ->
  pack_header version prev_hash merkle_root timestamp bits nonce
  = Ok (le_bytes 4 version ++ pack_32s prev_hash ++ pack_32s merkle_root
        ++ le_bytes 4 timestamp ++ le_bytes 4 bits ++ le_bytes 4 nonce).
Proof.
  intros Hv Ht Hb Hn. unfold pack_header.
  rewrite !pack_I_Ok by done. reflexivity.
Qed.

Lemma pack_header_error (version : Z) (prev_hash merkle_root : bytes)
      (timestamp bits nonce : Z) :
  ~ (0 <= version <= 0xFFFFFFFF /\ 0 <= timestamp <= 0xFFFFFFFF
     /\ 0 <= bits <= 0xFFFFFFFF /\ 0 <= nonce <= 0xFFFFFFFF) ->
  pack_header version prev_hash merkle_root timestamp bits nonce
  = Raise StructError.
Proof.
  intros H. unfold pack_header.
  destruct (Z.leb_spec 0 version); destruct (Z.leb_spec version 0xFFFFFFFF);
    try (rewrite (pack_I_error version) by lia; reflexivity).
  rewrite (pack_I_Ok version) by lia. cbn [bindR].
  destruct (Z.leb_spec 0 timestamp);
    destruct (Z.leb_spec timestamp 0xFFFFFFFF);
    try (rewrite (pack_I_error timestamp) by lia; reflexivity).
  rewrite (pack_I_Ok timestamp) by lia. cbn [bindR].
  destruct (Z.leb_spec 0 bits); destruct (Z.leb_spec bits 0xFFFFFFFF);
    try (rewrite (pack_I_error bits) by lia; reflexivity).
  rewrite (pack_I_Ok bits) by lia. cbn [bindR].
  rewrite (pack_I_error nonce) by lia. reflexivity.
Qed.

Lemma words_hex_length (ws : list Z) :
  String.length (Words.words_hex ws) = (16 * length ws)%nat.
Proof.
  unfold Words.words_hex. rewrite bytes_hex_length, words_bytes_length. lia.
Qed.

Lemma nonce_digest_length (m : MiningMode) (data : bytes) (nonce : Z) :
  String.length (Words.nonce_digest m data nonce) = 64%nat.
Proof.
  unfold Words.nonce_digest.
  rewrite words_hex_length, finalize_length, nonce_mix_length,
    absorb_length. reflexivity.
Qed.

Lemma eqb_other_length (s t : string) :
  String.length s <> String.length t -> String.eqb s t = false.
Proof.
  intros H. destruct (String.eqb_spec s t) as [-> |]; [done | reflexivity].
Qed.

End Packing.

(** ** Reachable engines *)

Section Reachable.

Import BlockHash Words.

(** A new engine is reachable. *)
Lemma init_reachable (m : MiningMode) (σ : heap) :
  exists (e : t) (σ' : heap),
    __init__ m σ = Ok (e, σ')
    /\ engine_reachable σ' e MINING_CONSTANTS /\ mode e = m /\ buffer e = [].
Proof.
  eexists _, _. split; [apply init_run |].
  split; [| done]. split; [| simpl; lia].
  split; [apply lookup_insert_eq | apply MINING_CONSTANTS_ok].
Qed.

(** [update] keeps an engine reachable, whatever was buffered. *)
Lemma update_reachable (e : t) (data : bytes) (σ : heap) (ws : list Z) :
  engine_ok σ e ws ->
  exists (e' : t) (σ' : heap) (ws' : list Z),
    update e (PyBytes data) σ = Ok (e', σ')
    /\ engine_reachable σ' e' ws' /\ mode e' = mode e.
Proof.
  intros (Hr & Hlen & HF).
  eexists _, _, _. split; [apply update_bytes_run; done |].
  split; [| reflexivity]. split; [| apply leftover_length].
  repeat split;
    [apply lookup_insert_eq | by rewrite absorb_length
     | by apply absorb_word64].
Qed.

(** So does [_fast_nonce_mix], for every integer nonce. *)
Lemma fast_nonce_mix_reachable (e : t) (nonce : Z) (σ : heap) (ws : list Z) :
  engine_reachable σ e ws ->
  exists σ' : heap,
    _fast_nonce_mix (state e) nonce σ = Ok (state e, σ')
    /\ engine_reachable σ' e (nonce_mix nonce ws).
Proof.
  intros [(Hr & Hlen & HF) Hb].
  eexists. split; [apply fast_nonce_mix_run; done |].
  split; [| exact Hb].
  repeat split;
    [apply lookup_insert_eq | by rewrite nonce_mix_length
     | by apply nonce_mix_word64].
Qed.

End Reachable.

(** ** Rotations and the mixing step as bijections *)

Section Rotations.

Import BlockHash Words.

Lemma word64_high_bits (x i : Z) :
  word64 x -> 64 <= i -> Z.testbit x i = false.
Proof.
  intros Hx Hi. rewrite <- (word64_land x Hx), Z.land_spec.
  rewrite Z.ones_spec_high by lia. apply andb_false_r.
Qed.

Lemma word64_bits_eq (x y : Z) :
  word64 x -> word64 y ->
  (forall i, 0 <= i < 64 -> Z.testbit x i = Z.testbit y i) -> x = y.
Proof.
  intros Hx Hy H. apply Z.bits_inj'. intros i Hi.
  destruct (Z.lt_ge_cases i 64); [apply H; lia |].
  rewrite !word64_high_bits by (done || lia). reflexivity.
Qed.

(** Bit [i] of [_rotright x s] is bit [i + s] of [x], counted modulo 64. *)
Lemma rotright_testbit (x s i : Z) :
  word64 x -> 0 < s < 64 -> 0 <= i < 64 ->
  Z.testbit (_rotright x s) i = Z.testbit x ((i + s) mod 64).
Proof.
  intros Hx Hs Hi. unfold _rotright.
  rewrite mask64_ones, Z.land_spec, Z.ones_spec_low, andb_true_r by lia.
  rewrite Z.lor_spec, Z.shiftr_spec, Z.shiftl_spec by lia.
  destruct (Z.lt_ge_cases (i + s) 64) as [Hlt|Hge].
  - rewrite Z.mod_small by lia.
    rewrite (Z.testbit_neg_r x (i - (64 - s))) by lia.
    apply orb_false_r.
  - rewrite (word64_high_bits x (i + s)) by (done || lia).
    replace ((i + s) mod 64) with (i - (64 - s)); [reflexivity |].
    apply (Z.mod_unique (i + s) 64 1); lia.
Qed.

(** Bit [i] of [_rotleft x s] is bit [i - s] of [x], counted modulo 64. *)
Lemma rotleft_testbit (x s i : Z) :
  word64 x -> 0 < s < 64 -> 0 <= i < 64 ->
  Z.testbit (_rotleft x s) i = Z.testbit x ((i - s) mod 64).
Proof.
  intros Hx Hs Hi. unfold _rotleft.
  rewrite mask64_ones, Z.land_spec, Z.ones_spec_low, andb_true_r by lia.
  rewrite Z.lor_spec, Z.shiftr_spec, Z.shiftl_spec by lia.
  destruct (Z.lt_ge_cases i s) as [Hlt|Hge].
  - rewrite (Z.testbit_neg_r x (i - s)) by lia.
    replace ((i - s) mod 64) with (i + (64 - s)); [reflexivity |].
    apply (Z.mod_unique (i - s) 64 (-1)); lia.
  - rewrite Z.mod_small by lia.
    rewrite (word64_high_bits x (i + (64 - s))) by (done || lia).
    apply orb_false_r.
Qed.

Lemma rotleft_rotright (x s : Z) :
  word64 x -> 0 < s < 64 -> _rotleft (_rotright x s) s = x.
Proof.
  intros Hx Hs.
  apply word64_bits_eq; [apply rotleft_word64 | done |].
  intros i Hi.
  rewrite rotleft_testbit by (apply rotright_word64 || lia).
  rewrite rotright_testbit by (done || lia || (apply Z.mod_pos_bound; lia)).
  f_equal. rewrite Zplus_mod_idemp_l.
  replace (i - s + s) with i by lia. apply Z.mod_small. lia.
Qed.

Lemma rotright_rotleft (x s : Z) :
  word64 x -> 0 < s < 64 -> _rotright (_rotleft x s) s = x.
Proof.
  intros Hx Hs.
  apply word64_bits_eq; [apply rotright_word64 | done |].
  intros i Hi.
  rewrite rotright_testbit by (apply rotleft_word64 || lia).
  rewrite rotleft_testbit by (done || lia || (apply Z.mod_pos_bound; lia)).
  f_equal. rewrite Zminus_mod_idemp_l.
  replace (i + s - s) with i by lia. apply Z.mod_small. lia.
Qed.

Lemma rotright_inj (x y s : Z) :
  word64 x -> word64 y -> 0 < s < 64 ->
  _rotright x s = _rotright y s -> x = y.
Proof.
  intros Hx Hy Hs E.
  rewrite <- (rotleft_rotright x s Hx Hs), <- (rotleft_rotright y s Hy Hs).
  by rewrite E.
Qed.

Lemma rotleft_inj (x y s : Z) :
  word64 x -> word64 y -> 0 < s < 64 ->
  _rotleft x s = _rotleft y s -> x = y.
Proof.
  intros Hx Hy Hs E.
  rewrite <- (rotright_rotleft x s Hx Hs), <- (rotright_rotleft y s Hy Hs).
  by rewrite E.
Qed.

Lemma lxor_cancel_r (a b c : Z) : Z.lxor a c = Z.lxor b c -> a = b.
Proof.
  intros E.
  assert (G : forall u, Z.lxor (Z.lxor u c) c = u)
    by (intros u; rewrite Z.lxor_assoc, Z.lxor_nilpotent; apply Z.lxor_0_r).
  rewrite <- (G a), <- (G b), E. reflexivity.
Qed.

Lemma lxor_cancel_l (a b c : Z) : Z.lxor c a = Z.lxor c b -> a = b.
Proof. rewrite !(Z.lxor_comm c). apply lxor_cancel_r. Qed.

(** Different pairs of 64-bit words are mixed to different pairs. *)
Lemma mix_mining_inj (x y x' y' : Z) :
  word64 x -> word64 y -> word64 x' -> word64 y' ->
  _mix_mining x y = _mix_mining x' y' -> x = x' /\ y = y'.
Proof.
  intros Hx Hy Hx' Hy'. unfold _mix_mining. intros [= E2 E3].
  set (x1 := Z.lxor (_rotright x 13) y) in *.
  set (x1' := Z.lxor (_rotright x' 13) y') in *.
  set (y1 := Z.lxor (_rotleft y 17) x1) in *.
  set (y1' := Z.lxor (_rotleft y' 17) x1') in *.
  assert (W1 : word64 x1)
    by (apply lxor_word64; [apply rotright_word64 | done]).
  assert (W1' : word64 x1')
    by (apply lxor_word64; [apply rotright_word64 | done]).
  assert (V1 : word64 y1)
    by (apply lxor_word64; [apply rotleft_word64 | done]).
  assert (V1' : word64 y1')
    by (apply lxor_word64; [apply rotleft_word64 | done]).
  rewrite E2 in E3. apply lxor_cancel_r in E3.
  apply rotleft_inj in E3; [| done | done | lia].
  rewrite E3 in E2. apply lxor_cancel_r in E2.
  apply rotright_inj in E2; [| done | done | lia].
  unfold y1, y1' in E3. rewrite E2 in E3. apply lxor_cancel_r in E3.
  apply rotleft_inj in E3; [| done | done | lia].
  unfold x1, x1' in E2. rewrite E3 in E2. apply lxor_cancel_r in E2.
  apply rotright_inj in E2; [| done | done | lia].
  done.
Qed.

End Rotations.

(** ** Block processing as a bijection on the state words *)

Section Injective.

Import BlockHash Words.

Lemma list4_inv (ws : list Z) :
  length ws = 4%nat -> exists a b c d, ws = [a; b; c; d].
Proof.
  destruct ws as [|a [|b [|c [|d [|]]]]]; try discriminate. eauto.
Qed.

Lemma Forall4_inv (P : Z -> Prop) (a b c d : Z) :
  Forall P [a; b; c; d] -> P a /\ P b /\ P c /\ P d.
Proof.
  intros H. apply Forall_cons in H as [Ha H].
  apply Forall_cons in H as [Hb H]. apply Forall_cons in H as [Hc H].
  apply Forall_cons in H as [Hd _]. done.
Qed.

Lemma xor_at_inj (i : nat) (v : Z) (ws ws' : list Z) :
  length ws = 4%nat -> length ws' = 4%nat ->
  xor_at i v ws = xor_at i v ws' -> ws = ws'.
Proof.
  intros L L'.
  destruct (list4_inv ws L) as (a & b & c & d & ->).
  destruct (list4_inv ws' L') as (a' & b' & c' & d' & ->).
  unfold xor_at.
  destruct i as [|[|[|[|i]]]]; cbn [nth list_insert insert];
    intros [= ? ? ? ?]; subst;
    repeat match goal with
           | H : Z.lxor _ v = Z.lxor _ v |- _ =>
               apply lxor_cancel_r in H; subst
           end; reflexivity.
Qed.

Lemma mix_at_inj (i j : nat) (ws ws' : list Z) :
  (i, j) = (0, 1)%nat \/ (i, j) = (2, 3)%nat
  \/ (i, j) = (0, 2)%nat \/ (i, j) = (1, 3)%nat ->
  length ws = 4%nat -> length ws' = 4%nat ->
  Forall word64 ws -> Forall word64 ws' ->
  mix_at i j ws = mix_at i j ws' -> ws = ws'.
Proof.
  intros Hij L L' HF HF'.
  destruct (list4_inv ws L) as (a & b & c & d & ->).
  destruct (list4_inv ws' L') as (a' & b' & c' & d' & ->).
  apply Forall4_inv in HF as (Ha & Hb & Hc & Hd).
  apply Forall4_inv in HF' as (Ha' & Hb' & Hc' & Hd').
  unfold mix_at.
  destruct Hij as [[= -> ->]|[[= -> ->]|[[= -> ->]|[= -> ->]]]];
    cbn [nth];
    match goal with
    | |- context [_mix_mining ?x ?y] =>
        match goal with
        | |- context [_mix_mining ?x' ?y'] =>
            lazymatch x' with
            | x => fail
            | _ =>
                pose proof (mix_mining_inj x y x' y') as Hinj;
                destruct (_mix_mining x y) as [p q];
                destruct (_mix_mining x' y') as [p' q']
            end
        end
    end;
    cbn [list_insert insert]; intros [= ? ? ? ?]; subst;
    destruct Hinj as [-> ->]; done.
Qed.

Lemma ingest_inj (block : bytes) (ws ws' : list Z) :
  length ws = 4%nat -> length ws' = 4%nat ->
  ingest block ws = ingest block ws' -> ws = ws'.
Proof.
  intros L L'. unfold ingest. intros E.
  repeat (apply xor_at_inj in E; [| rewrite ?xor_at_length; done ..]).
  exact E.
Qed.

Lemma mix_round_inj (ws ws' : list Z) :
  length ws = 4%nat -> length ws' = 4%nat ->
  Forall word64 ws -> Forall word64 ws' ->
  mix_round ws = mix_round ws' -> ws = ws'.
Proof.
  intros L L' HF HF'. unfold mix_round. intros E.
  apply mix_at_inj in E;
    [| tauto | rewrite !mix_at_length; done ..
     | repeat (apply mix_at_word64; [rewrite ?mix_at_length; lia |]); done
     | repeat (apply mix_at_word64; [rewrite ?mix_at_length; lia |]); done].
  apply mix_at_inj in E;
    [| tauto | rewrite !mix_at_length; done ..
     | repeat (apply mix_at_word64; [rewrite ?mix_at_length; lia |]); done
     | repeat (apply mix_at_word64; [rewrite ?mix_at_length; lia |]); done].
  apply mix_at_inj in E;
    [| tauto | rewrite !mix_at_length; done ..
     | repeat (apply mix_at_word64; [rewrite ?mix_at_length; lia |]); done
     | repeat (apply mix_at_word64; [rewrite ?mix_at_length; lia |]); done].
  apply mix_at_inj in E; [done | tauto | done ..].
Qed.

Lemma iter_mix_round_word64 (n : nat) (ws : list Z) :
  length ws = 4%nat -> Forall word64 ws ->
  Forall word64 (Nat.iter n mix_round ws).
Proof.
  intros L HF. induction n as [|n IH]; [done |].
  rewrite Nat.iter_succ. apply mix_round_word64; [| done].
  by rewrite iter_mix_round_length.
Qed.

Lemma iter_mix_round_inj (n : nat) (ws ws' : list Z) :
  length ws = 4%nat -> length ws' = 4%nat ->
  Forall word64 ws -> Forall word64 ws' ->
  Nat.iter n mix_round ws = Nat.iter n mix_round ws' -> ws = ws'.
Proof.
  intros L L' HF HF'. induction n as [|n IH]; [done |].
  rewrite !Nat.iter_succ. intros E. apply IH.
  apply mix_round_inj in E;
    [done | by rewrite iter_mix_round_length ..
     | by apply iter_mix_round_word64 | by apply iter_mix_round_word64].
Qed.

(** For a fixed block, different state words stay different. *)
Lemma process_inj (m : MiningMode) (block : bytes) (ws ws' : list Z) :
  length ws = 4%nat -> length ws' = 4%nat ->
  Forall word64 ws -> Forall word64 ws' ->
  process m block ws = process m block ws' -> ws = ws'.
Proof.
  intros L L' HF HF'. unfold process. intros E.
  apply iter_mix_round_inj in E;
    [| by rewrite ingest_length .. | by apply ingest_word64
     | by apply ingest_word64].
  by apply ingest_inj in E.
Qed.

End Injective.

(** ** Consequences for whole messages *)

Section Messages.

Import BlockHash Words.

Lemma leftover_length_mod (buf : bytes) :
  length (leftover buf) = (length buf mod 64)%nat.
Proof.
  unfold leftover, blocks_in. rewrite length_drop.
  pose proof (Nat.div_mod_eq (length buf) 64). lia.
Qed.

Lemma leftover_nil_iff (buf : bytes) :
  leftover buf = [] <-> (length buf mod 64 = 0)%nat.
Proof.
  rewrite <- leftover_length_mod. split; [by intros -> |].
  destruct (leftover buf); [done | discriminate].
Qed.

Lemma zero_pad_zeros (l : bytes) (k : nat) :
  (length l + k <= 64)%nat ->
  zero_pad (l ++ repeat x00 k) = zero_pad l.
Proof.
  intros H. unfold zero_pad. rewrite length_app, repeat_length.
  rewrite <- app_assoc, <- repeat_app. do 2 f_equal. lia.
Qed.

(** Zero bytes appended inside the last, partly filled block are
    invisible to finalization. *)
Lemma finalize_trailing_zeros (m : MiningMode) (l : bytes) (k : nat)
      (ws : list Z) :
  l <> [] -> (length l + k <= 64)%nat ->
  finalize m (leftover (l ++ repeat x00 k))
           (absorb m (blocks_in (l ++ repeat x00 k)) (l ++ repeat x00 k) ws)
  = finalize m l ws.
Proof.
  intros Hl Hk.
  destruct (Nat.eq_dec (length l + k)%nat 64%nat) as [E64|Hlt].
  - assert (Hlen : length (l ++ repeat x00 k) = 64%nat)
      by (rewrite length_app, repeat_length; exact E64).
    assert (Hb : blocks_in (l ++ repeat x00 k) = 1%nat)
      by (unfold blocks_in; rewrite Hlen; reflexivity).
    unfold leftover. rewrite Hb. cbn [absorb].
    rewrite take_ge, drop_ge by lia.
    unfold finalize. destruct l as [|b0 l]; [done |].
    f_equal. f_equal. unfold zero_pad.
    replace (64 - length (b0 :: l))%nat with k by lia. reflexivity.
  - assert (Hlen : (length (l ++ repeat x00 k) < 64)%nat)
      by (rewrite length_app, repeat_length; lia).
    rewrite (leftover_small _ Hlen), (blocks_in_small _ Hlen).
    cbn [absorb]. unfold finalize.
    destruct l as [|b0 l]; [done |].
    cbn [app]. change (b0 :: l ++ repeat x00 k)
      with ((b0 :: l) ++ repeat x00 k).
    rewrite zero_pad_zeros by lia. reflexivity.
Qed.

Lemma digest_of_trailing_zeros (m : MiningMode) (data : bytes) (k : nat) :
  (length data mod 64 <> 0)%nat ->
  (length data mod 64 + k <= 64)%nat ->
  digest_of m (data ++ repeat x00 k) = digest_of m data.
Proof.
  intros Hne Hk. unfold digest_of. f_equal.
  rewrite absorb_leftover_app, leftover_app.
  apply finalize_trailing_zeros.
  - intros E. apply leftover_nil_iff in E. done.
  - rewrite leftover_length_mod. exact Hk.
Qed.

Lemma prefix_length (t s : string) :
  String.prefix t s = true -> (String.length t <= String.length s)%nat.
Proof.
  revert s. induction t as [|c t IH]; intros s.
  - simpl. lia.
  - destruct s as [|c' s]; cbn [String.prefix]; [discriminate |].
    destruct (ascii_dec c c'); [| discriminate].
    intros H. apply IH in H. simpl. lia.
Qed.

Lemma repeated_length (c : ascii) (k : Z) :
  String.length (repeated c k) = Z.to_nat k.
Proof.
  unfold repeated.
  rewrite string_length_list, list_ascii_of_string_of_list_ascii.
  apply repeat_length.
Qed.

Lemma first_hit_never (digest : Z -> string) (target : string)
      (candidates : list Z) :
  (forall n, startswith (digest n) target = false) ->
  first_hit digest target candidates = None.
Proof.
  intros H. induction candidates as [|n rest IH]; [reflexivity |].
  cbn [first_hit]. rewrite H. exact IH.
Qed.

Lemma reset_run (self : t) (σ : heap) :
  reset self σ
  = Ok ({| mode := mode self; state := fresh (dom σ); buffer := [] |},
        <[fresh (dom σ) := MINING_CONSTANTS]> σ).
Proof. reflexivity. Qed.

Lemma digest_of_length (m : MiningMode) (data : bytes) :
  String.length (digest_of m data) = 64%nat.
Proof.
  unfold digest_of.
  rewrite words_hex_length, finalize_length, absorb_length. reflexivity.
Qed.

End Messages.

(** ** SHA-256: the bit functions and the padded length *)

Section Sha256Bits.

Import SHA256.

Lemma word32_high_bits (x i : Z) :
  word32 x -> 32 <= i -> Z.testbit x i = false.
Proof.
  intros Hx Hi.
  assert (E : Z.land x (Z.ones 32) = x)
    by (rewrite Z.land_ones by lia; apply Z.mod_small; exact Hx).
  rewrite <- E, Z.land_spec, Z.ones_spec_high by lia. apply andb_false_r.
Qed.

Lemma word32_bits_eq (x y : Z) :
  word32 x -> word32 y ->
  (forall i, 0 <= i < 32 -> Z.testbit x i = Z.testbit y i) -> x = y.
Proof.
  intros Hx Hy H. apply Z.bits_inj'. intros i Hi.
  destruct (Z.lt_ge_cases i 32); [apply H; lia |].
  rewrite !word32_high_bits by (done || lia). reflexivity.
Qed.

Lemma right_rotate_testbit (x n i : Z) :
  word32 x -> 0 < n < 32 -> 0 <= i < 32 ->
  Z.testbit (_right_rotate x n) i = Z.testbit x ((i + n) mod 32).
Proof.
  intros Hx Hn Hi. unfold _right_rotate.
  change 0xFFFFFFFF with (Z.ones 32).
  rewrite Z.land_spec, Z.ones_spec_low, andb_true_r by lia.
  rewrite Z.lor_spec, Z.shiftr_spec, Z.shiftl_spec by lia.
  destruct (Z.lt_ge_cases (i + n) 32) as [Hlt|Hge].
  - rewrite Z.mod_small by lia.
    rewrite (Z.testbit_neg_r x (i - (32 - n))) by lia.
    apply orb_false_r.
  - rewrite (word32_high_bits x (i + n)) by (done || lia).
    replace ((i + n) mod 32) with (i - (32 - n)); [reflexivity |].
    apply (Z.mod_unique (i + n) 32 1); lia.
Qed.

Lemma right_rotate_word32 (x n : Z) : word32 (_right_rotate x n).
Proof. apply land_mask32. Qed.

Lemma right_rotate_back (x n : Z) :
  word32 x -> 0 < n < 32 ->
  _right_rotate (_right_rotate x n) (32 - n) = x.
Proof.
  intros Hx Hn.
  apply word32_bits_eq; [apply right_rotate_word32 | done |].
  intros i Hi.
  rewrite right_rotate_testbit by (apply right_rotate_word32 || lia).
  rewrite right_rotate_testbit
    by (done || lia || (apply Z.mod_pos_bound; lia)).
  f_equal. rewrite Zplus_mod_idemp_l.
  replace (i + (32 - n) + n) with (i + 1 * 32) by lia.
  rewrite Z.mod_add by lia. apply Z.mod_small. lia.
Qed.

Lemma ch_testbit (x y z i : Z) :
  0 <= i ->
  Z.testbit (_sha256_functions x y z "Ch") i
  = if Z.testbit x i then Z.testbit y i else Z.testbit z i.
Proof.
  intros Hi. unfold _sha256_functions. rewrite String.eqb_refl.
  rewrite Z.lxor_spec, !Z.land_spec, Z.lnot_spec by lia.
  destruct (Z.testbit x i), (Z.testbit y i), (Z.testbit z i); reflexivity.
Qed.

Lemma other_operation_is_maj (x y z : Z) (operation : string) :
  operation <> "Ch"%string ->
  _sha256_functions x y z operation
  = Z.lxor (Z.lxor (Z.land x y) (Z.land x z)) (Z.land y z).
Proof.
  intros Hne. unfold _sha256_functions.
  destruct (String.eqb_spec operation "Ch"); [done | reflexivity].
Qed.

Lemma maj_testbit (x y z i : Z) (operation : string) :
  operation <> "Ch"%string -> 0 <= i ->
  Z.testbit (_sha256_functions x y z operation) i
  = (Z.testbit x i && Z.testbit y i
     || Z.testbit x i && Z.testbit z i
     || Z.testbit y i && Z.testbit z i)%bool.
Proof.
  intros Hne Hi. rewrite other_operation_is_maj by done.
  rewrite !Z.lxor_spec, !Z.land_spec.
  destruct (Z.testbit x i), (Z.testbit y i), (Z.testbit z i); reflexivity.
Qed.

Lemma nonneg_high_bits_word32 (v : Z) :
  0 <= v -> (forall i, 32 <= i -> Z.testbit v i = false) -> word32 v.
Proof.
  intros Hv H. unfold word32. split; [done |].
  destruct (Z.eq_dec v 0) as [-> | Hne]; [lia |].
  apply Z.log2_lt_pow2; [lia |].
  destruct (Z.lt_ge_cases (Z.log2 v) 32) as [|Hge]; [done |].
  pose proof (Z.bit_log2 v ltac:(lia)) as Hb.
  rewrite H in Hb by lia. discriminate.
Qed.

Lemma ch_word32 (x y z : Z) :
  word32 y -> word32 z -> word32 (_sha256_functions x y z "Ch").
Proof.
  intros Hy Hz. apply nonneg_high_bits_word32.
  - unfold _sha256_functions. rewrite String.eqb_refl.
    apply Z.lxor_nonneg.
    assert (0 <= Z.land x y) by (apply Z.land_nonneg; right; apply Hy).
    assert (0 <= Z.land (Z.lnot x) z)
      by (apply Z.land_nonneg; right; apply Hz).
    tauto.
  - intros i Hi. rewrite ch_testbit by lia.
    rewrite (word32_high_bits y i), (word32_high_bits z i) by (done || lia).
    destruct (Z.testbit x i); reflexivity.
Qed.

Lemma padded_length_formula (L z : nat) :
  (z < 64)%nat -> Z.of_nat (L + 1 + z) mod 64 = 56 ->
  (L + 1 + z + 8 = 64 * ((L + 8) / 64 + 1))%nat.
Proof.
  intros Hz Hmod.
  pose proof (Nat.div_mod_eq (L + 8) 64) as D.
  pose proof (Nat.mod_upper_bound (L + 8) 64 ltac:(lia)) as B.
  pose proof (Z.div_mod (Z.of_nat (L + 1 + z)) 64 ltac:(lia)) as DZ.
  rewrite Hmod in DZ.
  set (q := Z.of_nat (L + 1 + z) / 64) in *.
  set (a := ((L + 8) / 64)%nat) in *.
  set (b := ((L + 8) mod 64)%nat) in *.
  lia.
Qed.

(** Unpacking [self.h] into eight names fails on any other length. *)
Lemma process_block_bad_state (self : t) (block : bytes) :
  length (h self) <> 8%nat -> _process_block self block = Raise ValueError.
Proof.
  intros Hh. unfold _process_block.
  destruct (for_range_invariant (fun w => length w = 64%nat)
              (load_word block) 16 0 (repeat 0 64))
    as (w1 & -> & Hw1).
  { apply repeat_length. }
  { intros i w Hi Hw. apply load_word_run; [lia | done]. }
  cbn [bindR].
  destruct (for_range_invariant (fun w => length w = 64%nat)
              extend_word 48 16 w1)
    as (w2 & -> & Hw2).
  { exact Hw1. }
  { intros i w Hi Hw. apply extend_word_run; [lia | done]. }
  cbn [bindR].
  destruct (h self) as [|a [|b [|c [|d [|e [|f [|g [|hh [|]]]]]]]]];
    try reflexivity.
  exfalso. apply Hh. reflexivity.
Qed.

End Sha256Bits.

(** ** What the text searches report *)

Section Reports.

Lemma progress_lines (candidates : list Z) :
  flat_map miner.progress candidates
  = map miner.Trying
        (List.filter (fun j => j mod 100000 =? 0) candidates).
Proof.
  induction candidates as [|j rest IH]; [reflexivity |].
  cbn [flat_map List.filter]. unfold miner.progress at 1.
  destruct (j mod 100000 =? 0); cbn [map app]; by rewrite IH.
Qed.

(** A scan whose digest never raises on the candidates is the scan of
    the digest's values. *)
Lemma first_hitR_total (digest : Z -> result string) (value : Z -> string)
      (target : string) (candidates : list Z) :
  (forall n, In n candidates -> digest n = Ok (value n)) ->
  first_hitR digest target candidates
  = Ok (first_hit value target candidates).
Proof.
  induction candidates as [|n rest IH]; intros H; [reflexivity |].
  cbn [first_hitR first_hit].
  rewrite (H n) by (left; reflexivity). cbn [bindR].
  destruct (startswith (value n) target); [reflexivity |].
  apply IH. intros n' Hn'. apply H. right. exact Hn'.
Qed.

Lemma hash_bytes_Ok (message : bytes) :
  Z.of_nat (length message) * 8 < 2 ^ 64 ->
  exists h : string,
    SHA256.hash_bytes message = Ok h /\ String.length h = 64%nat.
Proof.
  intros Hlen. unfold SHA256.hash_bytes.
  destruct (hash_run SHA256.__init__ message Hlen) as (s & self' & -> & L & _).
  cbn [bindR fst]. eauto.
Qed.

End Reports.

(** ** The bit comparisons of the analyzers *)

Section Analyzer.

Import analyzer.

(** What [bin(int(c, 16))[2:].zfill(4)] is for each character: four
    binary digits whose value is the digit's, or [ValueError]. *)
Lemma nibble_bits_cases (c : ascii) :
  (is_hex_digit c = true
   /\ exists b3 b2 b1 b0 : ascii,
        nibble_bits c = Ok (String b3 (String b2 (String b1 (String b0 ""))))
        /\ binary_string (String b3 (String b2 (String b1 (String b0 ""))))
        /\ forall acc,
             number_from 2 acc
               (bit_values (String b3 (String b2 (String b1 (String b0 "")))))
             = number_from 16 acc (hex_digit_values (String c "")))
  \/ (is_hex_digit c = false /\ nibble_bits c = Raise ValueError).
Proof.
  destruct c as [[] [] [] [] [] [] [] []];
    first
      [ right; split; vm_compute; reflexivity
      | left; split; [vm_compute; reflexivity |];
        eexists _, _, _, _; split; [vm_compute; reflexivity |];
        split;
        [ unfold binary_string; cbn [list_ascii_of_string];
          repeat (apply List.Forall_cons; [tauto |]); apply List.Forall_nil
        | intros acc; cbv [number_from bit_values hex_digit_values
                             list_ascii_of_string map fold_left];
          vm_compute (Ascii.eqb _ _);
          match goal with
          | |- context [int16 ?c] =>
              let v := eval vm_compute in (int16 c) in
              change (int16 c) with v
          end; cbv iota; lia ] ].
Qed.

Lemma binary_string_app (s t : string) :
  binary_string s -> binary_string t -> binary_string (s ++ t).
Proof.
  unfold binary_string. rewrite list_ascii_of_string_app.
  intros Hs Ht. apply Forall_app. split; assumption.
Qed.

Lemma string_length_app (s t : string) :
  String.length (s ++ t) = (String.length s + String.length t)%nat.
Proof.
  rewrite !string_length_list, list_ascii_of_string_app. apply length_app.
Qed.

Lemma bit_values_app (s t : string) :
  bit_values (s ++ t) = bit_values s ++ bit_values t.
Proof.
  unfold bit_values. rewrite list_ascii_of_string_app. apply map_app.
Qed.

Lemma number_from_app (base acc : Z) (xs ys : list Z) :
  number_from base acc (xs ++ ys)
  = number_from base (number_from base acc xs) ys.
Proof. unfold number_from. apply fold_left_app. Qed.

(** [hex_to_binary] on hexadecimal text. *)
Lemma hex_to_binary_run (s : string) :
  hex_string s ->
  exists b : string,
    hex_to_binary s = Ok b
    /\ String.length b = (4 * String.length s)%nat
    /\ binary_string b
    /\ forall acc,
         number_from 2 acc (bit_values b)
         = number_from 16 acc (hex_digit_values s).
Proof.
  unfold hex_string. induction s as [|c s IH]; cbn [list_ascii_of_string].
  - intros _. exists EmptyString.
    split; [reflexivity |]. split; [reflexivity |].
    split; [constructor |]. intros acc. reflexivity.
  - intros H. apply Forall_cons in H as [Hc Hs].
    destruct (IH Hs) as (tl & Etl & Ltl & Btl & Vtl).
    destruct (nibble_bits_cases c)
      as [(_ & b3 & b2 & b1 & b0 & Ec & Bc & Vc) | (Hn & _)];
      [| congruence].
    cbn [hex_to_binary]. rewrite Ec, Etl. cbn [bindR].
    eexists. split; [reflexivity |].
    split; [rewrite string_length_app, Ltl; cbn [String.length]; lia |].
    split; [apply binary_string_app; assumption |].
    intros acc. rewrite bit_values_app, number_from_app, Vc, Vtl.
    reflexivity.
Qed.

(** Any other character makes [int(c, 16)] raise. *)
Lemma hex_to_binary_error (s : string) :
  ~ hex_string s -> hex_to_binary s = Raise ValueError.
Proof.
  unfold hex_string. induction s as [|c s IH]; cbn [list_ascii_of_string].
  - intros H. exfalso. apply H. constructor.
  - intros H. cbn [hex_to_binary].
    destruct (nibble_bits_cases c)
      as [(Hc & b3 & b2 & b1 & b0 & Ec & _) | (_ & Ec)];
      rewrite Ec; cbn [bindR]; [| reflexivity].
    rewrite IH; [reflexivity |].
    intros Hs. apply H. apply List.Forall_cons; assumption.
Qed.

Lemma hamming_distance_sym (s t : string) :
  hamming_distance s t = hamming_distance t s.
Proof.
  revert t. induction s as [|c s IH]; intros [|d t]; cbn [hamming_distance];
    try reflexivity.
  rewrite IH, (Ascii.eqb_sym c d). reflexivity.
Qed.

Lemma hamming_distance_bounds (s t : string) :
  0 <= hamming_distance s t
    <= Z.of_nat (Nat.min (String.length s) (String.length t)).
Proof.
  revert t. induction s as [|c s IH]; intros [|d t];
    cbn [hamming_distance String.length Nat.min]; try lia.
  specialize (IH t). destruct (Ascii.eqb c d); lia.
Qed.

Lemma hamming_distance_zero (s t : string) :
  String.length s = String.length t ->
  (hamming_distance s t = 0 <-> s = t).
Proof.
  revert t. induction s as [|c s IH]; intros [|d t];
    cbn [hamming_distance String.length]; try (intros; discriminate).
  - intros _. split; reflexivity.
  - intros [= L]. pose proof (hamming_distance_bounds s t) as B.
    destruct (Ascii.eqb_spec c d) as [-> | Hne].
    + rewrite Z.add_0_l, (IH t L). split; [intros -> | intros [= ->]];
        reflexivity.
    + split; [lia | intros [= ? ?]; contradiction].
Qed.

(** What lies beyond the shorter string is not compared. *)
Lemma hamming_distance_extra (s t u : string) :
  (String.length s <= String.length t)%nat ->
  hamming_distance s (t ++ u) = hamming_distance s t.
Proof.
  revert t. induction s as [|c s IH]; intros t L.
  - reflexivity.
  - destruct t as [|d t]; cbn [String.length] in L; [lia |].
    simpl. rewrite IH by lia. reflexivity.
Qed.

Lemma hamming_distance_app (a b c d : string) :
  String.length a = String.length b ->
  hamming_distance (a ++ c) (b ++ d)
  = hamming_distance a b + hamming_distance c d.
Proof.
  revert b. induction a as [|x a IH]; intros [|y b] L;
    cbn [String.length] in L; try discriminate.
  - change (hamming_distance EmptyString EmptyString) with 0.
    rewrite Z.add_0_l. reflexivity.
  - injection L as L. simpl. rewrite (IH b L). lia.
Qed.

Lemma lower_hex_cases (c : ascii) :
  is_lower_hex c = true ->
  In c (list_ascii_of_string "0123456789abcdef").
Proof.
  destruct c as [[] [] [] [] [] [] [] []]; vm_compute;
    first [discriminate | intros _; tauto].
Qed.

(** Two lowercase digits with the same four bits are the same digit. *)
Lemma nibble_bits_lower_inj (c d : ascii) (b : string) :
  is_lower_hex c = true -> is_lower_hex d = true ->
  nibble_bits c = Ok b -> nibble_bits d = Ok b -> c = d.
Proof.
  intros Hc Hd. apply lower_hex_cases in Hc. apply lower_hex_cases in Hd.
  cbn [list_ascii_of_string In] in Hc, Hd.
  repeat (destruct Hc as [<- | Hc]); try contradiction;
    repeat (destruct Hd as [<- | Hd]); try contradiction;
    vm_compute; congruence.
Qed.

Lemma nibble_bits_length (c : ascii) (b : string) :
  nibble_bits c = Ok b -> String.length b = 4%nat.
Proof.
  destruct (nibble_bits_cases c)
    as [(_ & b3 & b2 & b1 & b0 & -> & _) | (_ & ->)]; [| discriminate].
  intros [= <-]. reflexivity.
Qed.

(** On lowercase hexadecimal text of one length, the bit strings differ
    somewhere unless the texts are equal. *)
Lemma hex_to_binary_lower_zero (s : string) :
  forall (t b1 b2 : string),
    lower_hex_string s -> lower_hex_string t ->
    String.length s = String.length t ->
    hex_to_binary s = Ok b1 -> hex_to_binary t = Ok b2 ->
    (hamming_distance b1 b2 = 0 <-> s = t).
Proof.
  unfold lower_hex_string.
  induction s as [|c s IH]; intros [|d t] b1 b2;
    cbn [list_ascii_of_string String.length hex_to_binary];
    try (intros; discriminate).
  - intros _ _ _ [= <-] [= <-]. split; reflexivity.
  - intros Hs Ht [= L].
    apply Forall_cons in Hs as [Hc Hs]. apply Forall_cons in Ht as [Hd Ht].
    destruct (nibble_bits c) as [nc|] eqn:Ec; [| discriminate].
    destruct (nibble_bits d) as [nd|] eqn:Ed; [| discriminate].
    cbn [bindR].
    destruct (hex_to_binary s) as [bs|] eqn:Es; [| discriminate].
    destruct (hex_to_binary t) as [bt|] eqn:Et; [| discriminate].
    cbn [bindR]. intros [= <-] [= <-].
    pose proof (nibble_bits_length c nc Ec) as Lc.
    pose proof (nibble_bits_length d nd Ed) as Ld.
    rewrite hamming_distance_app by congruence.
    pose proof (hamming_distance_bounds nc nd) as B1.
    pose proof (hamming_distance_bounds bs bt) as B2.
    pose proof (IH t bs bt Hs Ht L eq_refl Et) as IHst.
    split.
    + intros H0.
      assert (H1 : hamming_distance nc nd = 0) by lia.
      assert (H2 : hamming_distance bs bt = 0) by lia.
      apply hamming_distance_zero in H1; [| congruence].
      apply IHst in H2. subst nd t.
      rewrite (nibble_bits_lower_inj c d nc Hc Hd Ec Ed). reflexivity.
    + intros [= -> ->]. rewrite Ec in Ed. injection Ed as <-.
      assert (H1 : hamming_distance nc nc = 0)
        by (apply hamming_distance_zero; reflexivity).
      assert (H2 : hamming_distance bs bt = 0)
        by (apply IHst; reflexivity).
      lia.
Qed.

End Analyzer.

(** * The claims *)

(** Discharges, by evaluation, that a concrete store holds a concrete
    engine. *)
Ltac words_in_range :=
  repeat (apply List.Forall_cons; [unfold Words.word64; lia |]);
  apply List.Forall_nil.

Ltac engine_ok_by_evaluation :=
  split; [reflexivity | split; [reflexivity | words_in_range]].

Ltac engine_reachable_by_evaluation :=
  split; [engine_ok_by_evaluation | simpl; lia].

(** ** Claim C1 *)

(** C1, as stated, fails: the string it quotes has 63 characters, and
    hashing the empty byte string does not return it. *)
Lemma sha256_empty_is_not_the_quoted_string :
  String.length
    "e3b0c44298fc1c149afbf4c8996fb92427ae41e4649b934ca495991b7852b85" = 63%nat
  /\ SHA256.hash_bytes []
     <> Ok "e3b0c44298fc1c149afbf4c8996fb92427ae41e4649b934ca495991b7852b85"%string
  /\ forall self' : SHA256.t,
       SHA256.hash SHA256.__init__ []
       <> Ok ("e3b0c44298fc1c149afbf4c8996fb92427ae41e4649b934ca495991b7852b85"%string,
              self').
Proof.
  split; [reflexivity |]. split.
  - vm_compute. discriminate.
  - intros self'. vm_compute. intros H. discriminate H.
Qed.

(** C1, amended: called on any [SHA256] object, [hash] of the empty byte
    string returns the 64 character string
    [e3b0c44298fc1c149afbf4c8996fb92427ae41e4649b934ca495991b7852b855],
    and so does the module-level [hash_bytes]. *)
Theorem sha256_empty_vector (self : SHA256.t) :
  (exists self' : SHA256.t,
     SHA256.hash self []
     = Ok ("e3b0c44298fc1c149afbf4c8996fb92427ae41e4649b934ca495991b7852b855"%string,
           self'))
  /\ SHA256.hash_bytes []
     = Ok "e3b0c44298fc1c149afbf4c8996fb92427ae41e4649b934ca495991b7852b855"%string.
Proof.
  split.
  - rewrite hash_resets. eexists. vm_compute. reflexivity.
  - vm_compute. reflexivity.
Qed.

(** ** Claim C2 *)

(** C2: on the header of eighty zero bytes with target 0 and bound 1,
    [mine_block] reports nonce 0 with the digest it computed in FAST mode,
    and [verify_block] on that very header, nonce and digest answers
    [False], because it recomputes the digest in SECURE mode. *)
Theorem mined_block_fails_verification (σ σ' : heap) :
  exists h : string,
    returns (smhash.mine_block (repeat x00 80) 0 1) σ (0, h)
    /\ returns (smhash.verify_block (repeat x00 80) 0 h) σ' false.
Proof.
  exists (Words.nonce_digest FAST (repeat x00 80) 0). split.
  - pose proof (mine_block_run (repeat x00 80) 0 1 σ ltac:(lia)) as H.
    replace (block_result _) with (0, Words.nonce_digest FAST (repeat x00 80) 0)
      in H by (vm_compute; reflexivity).
    exact H.
  - pose proof (verify_block_run (repeat x00 80) 0
                  (Words.nonce_digest FAST (repeat x00 80) 0) σ') as H.
    replace (String.eqb _ _) with false in H by (vm_compute; reflexivity).
    exact H.
Qed.

(** ** Claim C3 *)

(** C3, as stated, fails for [mine_block]: on the empty header with
    target 0 and bound 1 it reports nonce 0 with a digest that is not the
    digest of the header followed by the decimal text ["0"], in any mode
    of [BlockHash] nor under SHA-256. *)
Lemma mine_block_does_not_hash_decimal_nonce :
  exists h : string,
    (forall σ : heap, returns (smhash.mine_block [] 0 1) σ (0, h))
    /\ (forall (m : MiningMode) (σ : heap),
          ~ returns (smhash.hash_bytes ([] ++ decimal_bytes 0) m) σ h)
    /\ SHA256.hash_bytes ([] ++ decimal_bytes 0) <> Ok h.
Proof.
  exists (Words.nonce_digest FAST [] 0). split; [| split].
  - intros σ. pose proof (mine_block_run [] 0 1 σ ltac:(lia)) as H.
    replace (block_result _) with (0, Words.nonce_digest FAST [] 0)
      in H by (vm_compute; reflexivity).
    exact H.
  - intros m σ Hret.
    pose proof (returns_functional _ _ _ _ Hret (hash_bytes_run _ m σ)) as E.
    destruct m; vm_compute in E; discriminate E.
  - vm_compute. discriminate.
Qed.

(** C3, amended: all three searches try the nonces [0, 1, 2, ...] in
    ascending order and stop at the first digest with the target prefix,
    and every attempt starts from the initial constants, whatever earlier
    attempts left behind; the number [k] of zeros asked for lies in the
    index range of ['0' * k], [-2^63 <= k < 2^63]. [mine_sha_256_hash] and
    [mine_smhash_hash] hash the UTF-8 bytes of the text followed by the
    decimal text of the nonce. [mine_block] hashes the header alone and
    then mixes the integer nonce into the state words with
    [_fast_nonce_mix] before finalization. *)
Theorem searches_scan_nonces_in_ascending_order
        (text : pystr) (tb header : bytes) (k N : Z) (σ : heap) :
  utf8_encode text = Ok tb ->
  - 2 ^ 63 <= k < 2 ^ 63 ->
  (* the nonces of [range(N)], in order *)
  (forall i : nat, (i < Z.to_nat N)%nat ->
                   range_from 0 (Z.to_nat N) !! i = Some (Z.of_nat i))
  (* the decimal text of a nonce *)
  /\ (forall n : Z,
        option_map Z.of_int (NilZero.int_of_string (str_of_int n)) = Some n)
  (* mine_sha_256_hash *)
  /\ miner.mine_sha_256_hash text k N
     = (o <- first_hitR (fun n => SHA256.hash_bytes (tb ++ decimal_bytes n))
                        (repeated "0" k) (range_from 0 (Z.to_nat N)) ;;
        Ok (search_report text N o))
  /\ (forall n : Z,
        miner.hash_sha256_with_nonce text n
        = SHA256.hash_bytes (tb ++ decimal_bytes n))
  /\ (forall (self : SHA256.t) (message : bytes),
        SHA256.hash self message = SHA256.hash SHA256.__init__ message)
  (* mine_smhash_hash *)
  /\ returns (miner.mine_smhash_hash text k N) σ
             (search_report text N
                (first_hit (fun n => Words.digest_of STANDARD
                                       (tb ++ decimal_bytes n))
                           (repeated "0" k) (range_from 0 (Z.to_nat N))))
  /\ (forall (n : Z) (σ0 : heap),
        returns (miner.hash_smhash_with_nonce text n) σ0
                (Words.digest_of STANDARD (tb ++ decimal_bytes n))
        /\ returns (smhash.hash_bytes (tb ++ decimal_bytes n) STANDARD) σ0
                   (Words.digest_of STANDARD (tb ++ decimal_bytes n)))
  (* mine_block *)
  /\ returns (smhash.mine_block header k N) σ
             (block_result
                (first_hit (Words.nonce_digest FAST header)
                           (repeated "0" k) (range_from 0 (Z.to_nat N))))
  /\ (forall (n : Z) (σ0 : heap),
        returns (BlockHash.hash_with_nonce header n FAST) σ0
                (Words.nonce_digest FAST header n))
  /\ (forall n : Z,
        Words.nonce_digest FAST header n
        = Words.words_hex
            (Words.finalize FAST (Words.leftover header)
               (Words.nonce_mix n
                  (Words.absorb FAST (Words.blocks_in header) header
                                BlockHash.MINING_CONSTANTS)))).
Proof.
  intros E Hk.
  split; [intros i Hi; rewrite range_from_lookup by done; f_equal; lia |].
  split; [apply str_of_int_reads_back |].
  split; [apply mine_sha_256_hash_run; [exact E | exact Hk] |].
  split; [intros n; apply hash_sha256_with_nonce_run; exact E |].
  split; [intros self message; apply hash_resets |].
  split; [apply mine_smhash_hash_run; [exact E | exact Hk] |].
  split.
  { intros n σ0. split;
      [apply hash_smhash_with_nonce_run; exact E | apply hash_bytes_run]. }
  split; [apply mine_block_run; exact Hk |].
  split; [intros n σ0; apply hash_with_nonce_run |].
  intros n. reflexivity.
Qed.

Lemma searches_scan_nonces_in_ascending_order_witness :
  utf8_encode (pystr_of_string "ab") = Ok [x61; x62]
  /\ - 2 ^ 63 <= 1 < 2 ^ 63
  /\ miner.mine_sha_256_hash (pystr_of_string "ab") 1 3
     = (o <- first_hitR
               (fun n => SHA256.hash_bytes ([x61; x62] ++ decimal_bytes n))
               (repeated "0" 1) (range_from 0 (Z.to_nat 3)) ;;
        Ok (search_report (pystr_of_string "ab") 3 o))
  /\ returns (smhash.mine_block [x61; x62] 1 3) ∅
             (block_result
                (first_hit (Words.nonce_digest FAST [x61; x62])
                           (repeated "0" 1) (range_from 0 (Z.to_nat 3)))).
Proof.
  assert (E : utf8_encode (pystr_of_string "ab") = Ok [x61; x62])
    by (vm_compute; reflexivity).
  assert (Hk : - 2 ^ 63 <= 1 < 2 ^ 63) by lia.
  split; [exact E |]. split; [exact Hk |].
  pose proof (searches_scan_nonces_in_ascending_order
                (pystr_of_string "ab") [x61; x62] [x61; x62] 1 3 ∅ E Hk)
    as (_ & _ & Hsha & _ & _ & _ & _ & Hblock & _).
  split; [exact Hsha | exact Hblock].
Defined.

Example mine_sha_256_hash_exhausts :
  miner.mine_sha_256_hash (pystr_of_string "ab") 1 3
  = Ok [miner.Trying 0; miner.Exhausted 3].
Proof. vm_compute. reflexivity. Qed.

(** ** Claim C4 *)



Example mine_block_finds_12 (σ : heap) :
  returns (smhash.mine_block (repeat x00 80) 1 40) σ
    (12, "00fffe1b8936150a187be06193a173b1100b75bee4049680111cab750b5e3634"%string).
Proof.
  pose proof (mine_block_run (repeat x00 80) 1 40 σ ltac:(lia)) as H.
  vm_compute block_result in H. exact H.
Qed.

(** ** Claim C5 *)

(** C5, as stated, fails on an engine whose buffer is empty: the words
    left by [_finalize_mining] are not those of padding the empty buffer
    to a zero block, running it and cross mixing. *)
Lemma finalize_empty_buffer_skips_block :
  let e := {| BlockHash.mode := STANDARD; BlockHash.state := 1%positive;
              BlockHash.buffer := [] |} in
  let σ : heap := {[ 1%positive := BlockHash.MINING_CONSTANTS ]} in
  engine_reachable σ e BlockHash.MINING_CONSTANTS
  /\ exists σ',
       BlockHash._finalize_mining e σ = Ok (tt, σ')
       /\ σ' !! 1%positive
          <> Some (Words.finalize_always_padding STANDARD []
                     BlockHash.MINING_CONSTANTS).
Proof.
  intros e σ.
  assert (Hr : σ !! BlockHash.state e = Some BlockHash.MINING_CONSTANTS)
    by apply lookup_singleton_eq.
  split.
  - engine_reachable_by_evaluation.
  - destruct (finalize_mining_in_place e ltac:(simpl; lia) σ _ Hr eq_refl)
      as [E _].
    eexists. split; [exact E |].
    rewrite lookup_insert_eq. vm_compute. discriminate.
Qed.

(** C5, amended: on a reachable engine [_finalize_mining] succeeds and
    rewrites the state words in place. With a non-empty buffer (1 to 63
    bytes) the buffer is zero padded to 64 bytes and given one full
    ingestion and mixing pass before the two cross mixes of words (0, 2)
    and (1, 3); with an empty buffer only the two cross mixes run. *)
Theorem finalize_pads_only_pending_bytes
        (self : BlockHash.t) (σ : heap) (ws : list Z) :
  engine_reachable σ self ws ->
  exists ws' : list Z,
    BlockHash._finalize_mining self σ
    = Ok (tt, <[BlockHash.state self := ws']> σ)
    /\ (BlockHash.buffer self = [] ->
        ws' = Words.mix_at 1 3 (Words.mix_at 0 2 ws))
    /\ (BlockHash.buffer self <> [] ->
        length (Words.zero_pad (BlockHash.buffer self)) = 64%nat
        /\ in_place (BlockHash.state self)
                    (BlockHash._process_mining_block self
                       (Words.zero_pad (BlockHash.buffer self)))
                    (Words.process (BlockHash.mode self)
                       (Words.zero_pad (BlockHash.buffer self)))
        /\ ws' = Words.mix_at 1 3 (Words.mix_at 0 2
                   (Words.process (BlockHash.mode self)
                      (Words.zero_pad (BlockHash.buffer self)) ws))).
Proof.
  intros [(Hr & Hlen & HF) Hb].
  destruct (finalize_mining_in_place self ltac:(lia) σ ws Hr Hlen) as [E _].
  eexists. split; [exact E |].
  unfold Words.finalize, Words.cross_mix.
  destruct (BlockHash.buffer self) as [|b0 rest] eqn:Ebuf.
  - split; [reflexivity | done].
  - split; [done |]. intros _.
    assert (L : length (Words.zero_pad (b0 :: rest)) = 64%nat)
      by (apply zero_pad_length; lia).
    split; [exact L |]. split; [| reflexivity].
    apply process_mining_block_in_place. exact L.
Qed.

Lemma finalize_pads_only_pending_bytes_witness :
  let e := {| BlockHash.mode := FAST; BlockHash.state := 1%positive;
              BlockHash.buffer := [x01] |} in
  let σ : heap := {[ 1%positive := BlockHash.MINING_CONSTANTS ]} in
  engine_reachable σ e BlockHash.MINING_CONSTANTS
  /\ exists ws' : list Z,
       BlockHash._finalize_mining e σ
       = Ok (tt, <[BlockHash.state e := ws']> σ)
       /\ (BlockHash.buffer e = [] ->
           ws' = Words.mix_at 1 3 (Words.mix_at 0 2 BlockHash.MINING_CONSTANTS))
       /\ (BlockHash.buffer e <> [] ->
           length (Words.zero_pad (BlockHash.buffer e)) = 64%nat
           /\ in_place (BlockHash.state e)
                       (BlockHash._process_mining_block e
                          (Words.zero_pad (BlockHash.buffer e)))
                       (Words.process (BlockHash.mode e)
                          (Words.zero_pad (BlockHash.buffer e)))
           /\ ws' = Words.mix_at 1 3 (Words.mix_at 0 2
                      (Words.process (BlockHash.mode e)
                         (Words.zero_pad (BlockHash.buffer e))
                         BlockHash.MINING_CONSTANTS))).
Proof.
  intros e σ.
  assert (H : engine_reachable σ e BlockHash.MINING_CONSTANTS)
    by engine_reachable_by_evaluation.
  split; [exact H |].
  exact (finalize_pads_only_pending_bytes e σ BlockHash.MINING_CONSTANTS H).
Defined.

(** ** Claim C6 *)

(** C6: on every reachable engine [digest] (and [hexdigest]) succeeds and
    hands back an engine in the same mode whose state words and buffer
    are those before the call; every other list object of the store is
    untouched; a second call returns the same output; and an [update]
    after the call ends with the words and buffer that the same [update]
    reaches without the call. *)
Theorem digest_leaves_engine_unchanged
        (self : BlockHash.t) (σ : heap) (ws : list Z) :
  engine_reachable σ self ws ->
  exists (out : bytes) (self' : BlockHash.t) (σ' : heap),
    BlockHash.digest self σ = Ok ((out, self'), σ')
    /\ BlockHash.hexdigest self σ = Ok ((bytes_hex out, self'), σ')
    /\ engine_reachable σ' self' ws
    /\ BlockHash.buffer self' = BlockHash.buffer self
    /\ BlockHash.mode self' = BlockHash.mode self
    /\ (forall r, r <> BlockHash.state self -> r <> BlockHash.state self' ->
                  σ' !! r = σ !! r)
    /\ (exists self'' σ'', BlockHash.digest self' σ' = Ok ((out, self''), σ''))
    /\ (forall data : bytes,
          exists (e1 e2 : BlockHash.t) (σ1 σ2 : heap) (ws' : list Z),
            BlockHash.update self (PyBytes data) σ = Ok (e1, σ1)
            /\ BlockHash.update self' (PyBytes data) σ' = Ok (e2, σ2)
            /\ BlockHash.buffer e2 = BlockHash.buffer e1
            /\ engine_reachable σ1 e1 ws'
            /\ engine_reachable σ2 e2 ws').
Proof.
  intros [Hok Hb]. pose proof Hok as (Hr & Hlen & HF).
  set (r' := fresh (dom σ)).
  assert (Hne : BlockHash.state self <> r') by (eapply fresh_differs; eauto).
  pose proof (digest_run self σ ws Hok ltac:(lia)) as E.
  pose proof (hexdigest_run self σ ws Hok ltac:(lia)) as Eh.
  fold r' in E, Eh.
  set (σ' := <[BlockHash.state self :=
                 Words.finalize (BlockHash.mode self) (BlockHash.buffer self) ws]>
               (<[r' := ws]> σ)) in *.
  assert (Hr' : σ' !! r' = Some ws).
  { unfold σ'. rewrite lookup_insert_ne by done. apply lookup_insert_eq. }
  assert (Hok' : engine_ok σ' (BlockHash.set_state self r') ws)
    by (repeat split; done).
  exists (Words.words_bytes
            (Words.finalize (BlockHash.mode self) (BlockHash.buffer self) ws)),
         (BlockHash.set_state self r'), σ'.
  split; [exact E |]. split; [exact Eh |].
  split; [split; [exact Hok' | exact Hb] |].
  split; [reflexivity |]. split; [reflexivity |].
  split.
  { intros r H1 H2. unfold σ'. cbn [BlockHash.set_state BlockHash.state] in H2.
    rewrite !lookup_insert_ne by done. reflexivity. }
  split.
  { eexists _, _.
    exact (digest_run (BlockHash.set_state self r') σ' ws Hok' ltac:(simpl; lia)). }
  intros data.
  pose proof (update_bytes_run self data σ ws Hr Hlen) as U1.
  pose proof (update_bytes_run (BlockHash.set_state self r') data σ' ws Hr' Hlen)
    as U2.
  eexists _, _, _, _, _.
  split; [exact U1 |]. split; [exact U2 |]. split; [reflexivity |].
  cbn [BlockHash.set_state BlockHash.set_buffer BlockHash.mode
         BlockHash.state BlockHash.buffer].
  split.
  - split; [| apply leftover_length].
    repeat split;
      [apply lookup_insert_eq | by rewrite absorb_length
       | by apply absorb_word64].
  - split; [| apply leftover_length].
    repeat split;
      [apply lookup_insert_eq | by rewrite absorb_length
       | by apply absorb_word64].
Qed.

Lemma digest_leaves_engine_unchanged_witness :
  let e := {| BlockHash.mode := SECURE; BlockHash.state := 1%positive;
              BlockHash.buffer := [x61; x62; x63] |} in
  let σ : heap := {[ 1%positive := BlockHash.MINING_CONSTANTS ]} in
  engine_reachable σ e BlockHash.MINING_CONSTANTS
  /\ exists (out : bytes) (self' : BlockHash.t) (σ' : heap),
       BlockHash.digest e σ = Ok ((out, self'), σ')
       /\ BlockHash.hexdigest e σ = Ok ((bytes_hex out, self'), σ')
       /\ engine_reachable σ' self' BlockHash.MINING_CONSTANTS
       /\ BlockHash.buffer self' = BlockHash.buffer e
       /\ BlockHash.mode self' = BlockHash.mode e
       /\ (forall r, r <> BlockHash.state e -> r <> BlockHash.state self' ->
                     σ' !! r = σ !! r)
       /\ (exists self'' σ'',
             BlockHash.digest self' σ' = Ok ((out, self''), σ''))
       /\ (forall data : bytes,
             exists (e1 e2 : BlockHash.t) (σ1 σ2 : heap) (ws' : list Z),
               BlockHash.update e (PyBytes data) σ = Ok (e1, σ1)
               /\ BlockHash.update self' (PyBytes data) σ' = Ok (e2, σ2)
               /\ BlockHash.buffer e2 = BlockHash.buffer e1
               /\ engine_reachable σ1 e1 ws'
               /\ engine_reachable σ2 e2 ws').
Proof.
  intros e σ.
  assert (H : engine_reachable σ e BlockHash.MINING_CONSTANTS)
    by engine_reachable_by_evaluation.
  split; [exact H |].
  exact (digest_leaves_engine_unchanged e σ BlockHash.MINING_CONSTANTS H).
Defined.

(** ** Claim C7 *)

(** C7: for every message of [L] bytes with [8 L < 2 ^ 64], [_pad_message]
    returns a byte string that starts with the message, has a positive
    length that is a multiple of 64, holds [0x80] at index [L], and ends
    with eight bytes that read, big endian, as [8 L]; for the empty
    message the length is exactly 64. *)
Theorem pad_message_shape (message : bytes) :
  Z.of_nat (length message) * 8 < 2 ^ 64 ->
  exists padded : bytes,
    SHA256._pad_message message = Ok padded
    /\ (0 < length padded)%nat
    /\ (length padded mod 64 = 0)%nat
    /\ take (length message) padded = message
    /\ padded !! length message = Some x80
    /\ length (drop (length padded - 8) padded) = 8%nat
    /\ from_bytes_big (drop (length padded - 8) padded)
       = Z.of_nat (length message) * 8
    /\ (message = [] -> length padded = 64%nat).
Proof.
  intros Hlen. eexists. split; [apply pad_message_run; exact Hlen |].
  set (zeros := repeat x00 (pad_need (message ++ [x80]))).
  set (tail := be_bytes 8 (Z.of_nat (length message) * 8)).
  assert (Lt : length tail = 8%nat) by apply be_bytes_length.
  assert (Lz : length zeros = pad_need (message ++ [x80]))
    by apply repeat_length.
  pose proof (pad_need_length (message ++ [x80])) as Hmod.
  rewrite <- Lz in Hmod.
  assert (Ltot : length ((message ++ [x80]) ++ zeros ++ tail)
                 = (length (message ++ [x80]) + length zeros + 8)%nat).
  { rewrite !length_app, Lt. lia. }
  assert (Hdrop : drop (length ((message ++ [x80]) ++ zeros ++ tail) - 8)
                       ((message ++ [x80]) ++ zeros ++ tail) = tail).
  { rewrite app_assoc.
    rewrite drop_app_length'; [reflexivity |].
    rewrite !length_app in *. cbn [length] in *. lia. }
  split; [rewrite Ltot; lia |].
  split.
  { rewrite Ltot.
    apply Nat2Z.inj. rewrite Nat2Z.inj_mod.
    pose proof (Z.mod_pos_bound
                  (Z.of_nat (length (message ++ [x80]) + length zeros)) 64
                  ltac:(lia)).
    pose proof (Z.div_mod
                  (Z.of_nat (length (message ++ [x80]) + length zeros)) 64
                  ltac:(lia)).
    pose proof (Z.mod_pos_bound
                  (Z.of_nat (length (message ++ [x80]) + length zeros + 8)) 64
                  ltac:(lia)).
    pose proof (Z.div_mod
                  (Z.of_nat (length (message ++ [x80]) + length zeros + 8)) 64
                  ltac:(lia)).
    lia. }
  split.
  { rewrite <- !app_assoc. rewrite take_app_length. reflexivity. }
  split.
  { rewrite <- !app_assoc. rewrite lookup_app_r by lia.
    rewrite Nat.sub_diag. reflexivity. }
  rewrite Hdrop.
  split; [exact Lt |].
  split.
  { unfold tail. rewrite from_bytes_big_be_bytes.
    change (256 ^ Z.of_nat 8) with (2 ^ 64). apply Z.mod_small. lia. }
  intros ->. reflexivity.
Qed.

Lemma pad_message_shape_witness :
  Z.of_nat (length [x61; x62; x63]) * 8 < 2 ^ 64
  /\ exists padded : bytes,
       SHA256._pad_message [x61; x62; x63] = Ok padded
       /\ (0 < length padded)%nat
       /\ (length padded mod 64 = 0)%nat
       /\ take (length [x61; x62; x63]) padded = [x61; x62; x63]
       /\ padded !! length [x61; x62; x63] = Some x80
       /\ length (drop (length padded - 8) padded) = 8%nat
       /\ from_bytes_big (drop (length padded - 8) padded)
          = Z.of_nat (length [x61; x62; x63]) * 8
       /\ ([x61; x62; x63] = [] -> length padded = 64%nat).
Proof.
  assert (H : Z.of_nat (length [x61; x62; x63]) * 8 < 2 ^ 64)
    by (vm_compute; reflexivity).
  split; [exact H |].
  exact (pad_message_shape [x61; x62; x63] H).
Defined.

(** ** Claim C8 *)

(** C8: the digest is a string of exactly 64 lowercase hexadecimal
    characters. For SHA-256 this holds for every message whose bit length
    fits the 64-bit length field, the empty one included; for [BlockHash]
    it holds in every mode, for every byte string fed to a newly built
    engine, from every store. *)
Theorem digest_is_64_lower_hex (x : bytes) :
  (Z.of_nat (length x) * 8 < 2 ^ 64 ->
   forall self : SHA256.t,
   exists (s : string) (self' : SHA256.t),
     SHA256.hash self x = Ok (s, self')
     /\ String.length s = 64%nat
     /\ lower_hex_string s)
  /\ (forall (m : MiningMode) (σ : heap),
      exists (s : string) (e : BlockHash.t) (σ' : heap),
        (e0 <~ BlockHash.__init__ m ;;
         e1 <~ BlockHash.update e0 (PyBytes x) ;;
         BlockHash.hexdigest e1) σ = Ok ((s, e), σ')
        /\ String.length s = 64%nat
        /\ lower_hex_string s).
Proof.
  split.
  - intros Hlen self. apply hash_run. exact Hlen.
  - intros m σ.
    rewrite <- bindM_assoc.
    rewrite (bindM_run _ _ _ _ _ (fresh_update_run m x σ)).
    set (ws := Words.absorb m (Words.blocks_in x) x BlockHash.MINING_CONSTANTS).
    assert (Hok : engine_ok (<[fresh (dom σ) := ws]> σ)
                    {| BlockHash.mode := m; BlockHash.state := fresh (dom σ);
                       BlockHash.buffer := Words.leftover x |} ws).
    { repeat split.
      - apply lookup_insert_eq.
      - unfold ws. by rewrite absorb_length.
      - apply absorb_word64; apply MINING_CONSTANTS_ok. }
    rewrite (hexdigest_run _ _ ws Hok)
      by (pose proof (leftover_length x); simpl; lia).
    eexists _, _, _. split; [reflexivity |].
    unfold Words.words_hex. split; [| apply bytes_hex_lower].
    rewrite bytes_hex_length, words_bytes_length, finalize_length.
    destruct Hok as (_ & -> & _). reflexivity.
Qed.

Lemma digest_is_64_lower_hex_witness :
  Z.of_nat (length (@nil byte)) * 8 < 2 ^ 64
  /\ (exists (s : string) (self' : SHA256.t),
        SHA256.hash SHA256.__init__ [] = Ok (s, self')
        /\ String.length s = 64%nat
        /\ lower_hex_string s)
  /\ (forall (m : MiningMode) (σ : heap),
      exists (s : string) (e : BlockHash.t) (σ' : heap),
        (e0 <~ BlockHash.__init__ m ;;
         e1 <~ BlockHash.update e0 (PyBytes []) ;;
         BlockHash.hexdigest e1) σ = Ok ((s, e), σ')
        /\ String.length s = 64%nat
        /\ lower_hex_string s).
Proof.
  assert (H : Z.of_nat (length (@nil byte)) * 8 < 2 ^ 64)
    by (vm_compute; reflexivity).
  split; [exact H |].
  split.
  - exact (proj1 (digest_is_64_lower_hex []) H SHA256.__init__).
  - exact (proj2 (digest_is_64_lower_hex [])).
Defined.

(** ** Claim C9 *)

(** C9, as stated, fails: packing a header whose [prev_hash] has one byte
    and whose [merkle_root] has forty succeeds, giving eighty bytes with
    the first field zero filled and the second cut; and [verify_block]
    given a three character hash returns [False] without raising. *)
Lemma wrong_sizes_are_not_surfaced :
  (exists header : bytes,
     pack_header 1 [xff] (repeat xee 40) 0 0 0 = Ok header
     /\ length header = 80%nat
     /\ take 32 (drop 4 header) = xff :: repeat x00 31
     /\ take 32 (drop 36 header) = repeat xee 32)
  /\ (forall σ : heap,
        returns (smhash.verify_block [] 0 "abc") σ false).
Proof.
  split.
  - eexists. split; [vm_compute; reflexivity |].
    repeat split; reflexivity.
  - intros σ. pose proof (verify_block_run [] 0 "abc" σ) as H.
    rewrite eqb_other_length in H; [exact H |].
    rewrite nonce_digest_length. cbn. lia.
Qed.

(** C9, amended: [hash_block_header] raises [struct.error] whenever
    [version], [timestamp], [bits] or [nonce] is outside [0 .. 2^32 - 1].
    With the four integers in range the packing succeeds with eighty
    bytes for byte fields of any length: a [prev_hash] or [merkle_root]
    of 32 bytes is laid out as it is, a longer one is cut to its first 32
    bytes and a shorter one is filled with zero bytes. [verify_block]
    never raises: given an expected hash that is not 64 characters long
    it returns [False]. *)
Theorem header_errors_as_implemented
        (self : BlockHash.t) (version : Z) (prev_hash merkle_root : bytes)
        (timestamp bits nonce : Z)
        (block_header : bytes) (expected_hash : string) (σ : heap) :
  (~ (0 <= version <= 0xFFFFFFFF /\ 0 <= timestamp <= 0xFFFFFFFF
      /\ 0 <= bits <= 0xFFFFFFFF /\ 0 <= nonce <= 0xFFFFFFFF) ->
   BlockHash.hash_block_header self version prev_hash merkle_root
                               timestamp bits nonce σ
   = Raise StructError)
  /\ (0 <= version <= 0xFFFFFFFF -> 0 <= timestamp <= 0xFFFFFFFF ->
      0 <= bits <= 0xFFFFFFFF -> 0 <= nonce <= 0xFFFFFFFF ->
      exists header : bytes,
        pack_header version prev_hash merkle_root timestamp bits nonce
        = Ok header
        /\ length header = 80%nat
        /\ header = le_bytes 4 version ++ pack_32s prev_hash
                    ++ pack_32s merkle_root ++ le_bytes 4 timestamp
                    ++ le_bytes 4 bits ++ le_bytes 4 nonce)
  /\ (forall b : bytes,
        (length b = 32%nat -> pack_32s b = b)
        /\ ((32 < length b)%nat -> pack_32s b = take 32 b)
        /\ ((length b < 32)%nat ->
            pack_32s b = b ++ repeat x00 (32 - length b)))
  /\ (exists answer : bool,
        returns (smhash.verify_block block_header nonce expected_hash) σ answer
        /\ (String.length expected_hash <> 64%nat -> answer = false)).
Proof.
  split; [| split; [| split]].
  - intros H. unfold BlockHash.hash_block_header, bindM, lift.
    rewrite pack_header_error by exact H. reflexivity.
  - intros Hv Ht Hb Hn. eexists.
    split; [apply pack_header_Ok; done |]. split; [| reflexivity].
    rewrite !length_app, !le_bytes_length, !pack_32s_length. reflexivity.
  - intros b. split; [apply pack_32s_exact |].
    split; [apply pack_32s_long | apply pack_32s_short].
  - eexists. split; [apply verify_block_run |].
    intros H. apply eqb_other_length. rewrite nonce_digest_length. congruence.
Qed.

Lemma header_errors_as_implemented_witness :
  let self := {| BlockHash.mode := STANDARD; BlockHash.state := 1%positive;
                 BlockHash.buffer := [] |} in
  ~ (0 <= -1 <= 0xFFFFFFFF /\ 0 <= 0 <= 0xFFFFFFFF
     /\ 0 <= 0 <= 0xFFFFFFFF /\ 0 <= 7 <= 0xFFFFFFFF)
  /\ BlockHash.hash_block_header self (-1) [xff] [] 0 0 7 ∅
     = Raise StructError
  /\ (exists answer : bool,
        returns (smhash.verify_block [xff] 7 "abc") ∅ answer
        /\ (String.length "abc" <> 64%nat -> answer = false)).
Proof.
  intros self.
  assert (H : ~ (0 <= -1 <= 0xFFFFFFFF /\ 0 <= 0 <= 0xFFFFFFFF
                 /\ 0 <= 0 <= 0xFFFFFFFF /\ 0 <= 7 <= 0xFFFFFFFF)) by lia.
  split; [exact H |].
  pose proof (header_errors_as_implemented self (-1) [xff] [] 0 0 7
                                           [xff] "abc" ∅)
    as (Herr & _ & _ & Hver).
  split; [exact (Herr H) | exact Hver].
Defined.

(** ** Claim C10 *)

(** C10: on every live engine, [update(a)] followed by [update(b)] and the
    single [update(a ++ b)] both succeed and end with the same engine
    record and the same store, hence the same state words and buffer; so
    the digest taken afterwards is the same as well. *)
Theorem update_split (self : BlockHash.t) (σ : heap) (ws : list Z)
        (a b : bytes) :
  engine_ok σ self ws ->
  exists (e : BlockHash.t) (σ' : heap) (ws' : list Z),
    (e1 <~ BlockHash.update self (PyBytes a) ;;
     BlockHash.update e1 (PyBytes b)) σ = Ok (e, σ')
    /\ BlockHash.update self (PyBytes (a ++ b)) σ = Ok (e, σ')
    /\ engine_reachable σ' e ws'
    /\ (e1 <~ BlockHash.update self (PyBytes a) ;;
        e2 <~ BlockHash.update e1 (PyBytes b) ;;
        BlockHash.hexdigest e2) σ
       = (e2 <~ BlockHash.update self (PyBytes (a ++ b)) ;;
          BlockHash.hexdigest e2) σ.
Proof.
  intros (Hr & Hlen & HF).
  pose proof (update_bytes_run self a σ ws Hr Hlen) as U1.
  pose proof (update_bytes_run self (a ++ b) σ ws Hr Hlen) as U.
  set (buf := BlockHash.buffer self) in *.
  set (m := BlockHash.mode self) in *.
  set (ws1 := Words.absorb m (Words.blocks_in (buf ++ a)) (buf ++ a) ws) in *.
  pose proof (update_bytes_run
                (BlockHash.set_buffer self (Words.leftover (buf ++ a))) b
                (<[BlockHash.state self := ws1]> σ) ws1
                ltac:(apply lookup_insert_eq)
                ltac:(unfold ws1; by rewrite absorb_length)) as U2.
  cbn [BlockHash.set_buffer BlockHash.mode BlockHash.state BlockHash.buffer]
    in U2.
  fold m in U2. rewrite insert_insert_eq in U2.
  subst ws1.
  rewrite <- absorb_leftover_app, <- leftover_app, <- app_assoc in U2.
  assert (E12 : (e1 <~ BlockHash.update self (PyBytes a) ;;
                 BlockHash.update e1 (PyBytes b)) σ
                = BlockHash.update self (PyBytes (a ++ b)) σ).
  { rewrite (bindM_run _ _ _ _ _ U1), U2, U. reflexivity. }
  eexists _, _, _. split; [rewrite E12; exact U |]. split; [exact U |].
  split.
  - split; [| apply leftover_length].
    repeat split;
      [apply lookup_insert_eq | by rewrite absorb_length
       | by apply absorb_word64].
  - rewrite <- bindM_assoc. unfold bindM at 1. rewrite E12. reflexivity.
Qed.

Lemma update_split_witness :
  let e := {| BlockHash.mode := STANDARD; BlockHash.state := 1%positive;
              BlockHash.buffer := [x01; x02] |} in
  let σ : heap := {[ 1%positive := BlockHash.MINING_CONSTANTS ]} in
  engine_ok σ e BlockHash.MINING_CONSTANTS
  /\ exists (e' : BlockHash.t) (σ' : heap) (ws' : list Z),
       (e1 <~ BlockHash.update e (PyBytes (repeat x61 70)) ;;
        BlockHash.update e1 (PyBytes (repeat x62 70))) σ = Ok (e', σ')
       /\ BlockHash.update e (PyBytes (repeat x61 70 ++ repeat x62 70)) σ
          = Ok (e', σ')
       /\ engine_reachable σ' e' ws'
       /\ (e1 <~ BlockHash.update e (PyBytes (repeat x61 70)) ;;
           e2 <~ BlockHash.update e1 (PyBytes (repeat x62 70)) ;;
           BlockHash.hexdigest e2) σ
          = (e2 <~ BlockHash.update e
                     (PyBytes (repeat x61 70 ++ repeat x62 70)) ;;
             BlockHash.hexdigest e2) σ.
Proof.
  intros e σ.
  assert (H : engine_ok σ e BlockHash.MINING_CONSTANTS)
    by engine_ok_by_evaluation.
  split; [exact H |].
  exact (update_split e σ BlockHash.MINING_CONSTANTS
                      (repeat x61 70) (repeat x62 70) H).
Defined.

(** * Further properties of the code *)

(** ** X1 *)

(** X1: on a 64-bit word and a shift strictly between 0 and 64,
    [_rotright] and [_rotleft] are rotations: bit [i] of the right
    rotation is bit [i + shift] of the word, counted modulo 64, and each of
    the two undoes the other. *)
Theorem rotations_undo_each_other (value shift : Z) :
  Words.word64 value -> 0 < shift < 64 ->
  (forall i, 0 <= i < 64 ->
             Z.testbit (BlockHash._rotright value shift) i
             = Z.testbit value ((i + shift) mod 64))
  /\ BlockHash._rotleft (BlockHash._rotright value shift) shift = value
  /\ BlockHash._rotright (BlockHash._rotleft value shift) shift = value.
Proof.
  intros Hv Hs. split; [| split].
  - intros i Hi. apply rotright_testbit; done.
  - apply rotleft_rotright; done.
  - apply rotright_rotleft; done.
Qed.

Lemma rotations_undo_each_other_witness :
  Words.word64 0x6a09e667f3bcc908 /\ 0 < 13 < 64
  /\ BlockHash._rotleft (BlockHash._rotright 0x6a09e667f3bcc908 13) 13
     = 0x6a09e667f3bcc908.
Proof.
  assert (Hv : Words.word64 0x6a09e667f3bcc908) by (unfold Words.word64; lia).
  assert (Hs : 0 < 13 < 64) by lia.
  split; [exact Hv |]. split; [exact Hs |].
  exact (proj1 (proj2 (rotations_undo_each_other 0x6a09e667f3bcc908 13 Hv Hs))).
Defined.

(** ** X2 *)

(** X2: [_mix_mining] returns two 64-bit words and loses nothing: two
    pairs of 64-bit words that are mixed to the same pair are the same
    pair. *)
Theorem mix_mining_is_injective (x y x' y' : Z) :
  Words.word64 x -> Words.word64 y -> Words.word64 x' -> Words.word64 y' ->
  Words.word64 (fst (BlockHash._mix_mining x y))
  /\ Words.word64 (snd (BlockHash._mix_mining x y))
  /\ (BlockHash._mix_mining x y = BlockHash._mix_mining x' y' ->
      x = x' /\ y = y').
Proof.
  intros Hx Hy Hx' Hy'.
  destruct (mix_mining_word64 x y Hy) as [H1 H2].
  split; [exact H1 |]. split; [exact H2 |].
  apply mix_mining_inj; done.
Qed.

Lemma mix_mining_is_injective_witness :
  Words.word64 1 /\ Words.word64 2 /\ Words.word64 3 /\ Words.word64 4
  /\ (BlockHash._mix_mining 1 2 = BlockHash._mix_mining 3 4 ->
      1 = 3 /\ 2 = 4).
Proof.
  assert (H1 : Words.word64 1) by (unfold Words.word64; lia).
  assert (H2 : Words.word64 2) by (unfold Words.word64; lia).
  assert (H3 : Words.word64 3) by (unfold Words.word64; lia).
  assert (H4 : Words.word64 4) by (unfold Words.word64; lia).
  repeat (split; [assumption |]).
  exact (proj2 (proj2 (mix_mining_is_injective 1 2 3 4 H1 H2 H3 H4))).
Defined.

(** ** X3 *)

(** X3: for one 64-byte block and one mode, [_process_mining_block] run on
    two engines whose state words differ succeeds on both and leaves state
    words that still differ: the block step never merges two states. *)
Theorem process_mining_block_keeps_states_apart
        (self : BlockHash.t) (block : bytes) (σ1 σ2 : heap)
        (ws1 ws2 : list Z) :
  engine_ok σ1 self ws1 -> engine_ok σ2 self ws2 ->
  length block = 64%nat -> ws1 <> ws2 ->
  exists (σ1' σ2' : heap) (ws1' ws2' : list Z),
    BlockHash._process_mining_block self block σ1 = Ok (tt, σ1')
    /\ BlockHash._process_mining_block self block σ2 = Ok (tt, σ2')
    /\ σ1' !! BlockHash.state self = Some ws1'
    /\ σ2' !! BlockHash.state self = Some ws2'
    /\ Forall Words.word64 ws1' /\ Forall Words.word64 ws2'
    /\ ws1' <> ws2'.
Proof.
  intros (Hr1 & L1 & F1) (Hr2 & L2 & F2) Hb Hne.
  destruct (process_mining_block_in_place self block Hb σ1 ws1 Hr1 L1)
    as [E1 _].
  destruct (process_mining_block_in_place self block Hb σ2 ws2 Hr2 L2)
    as [E2 _].
  eexists _, _, _, _. split; [exact E1 |]. split; [exact E2 |].
  split; [apply lookup_insert_eq |]. split; [apply lookup_insert_eq |].
  split; [by apply process_word64 |]. split; [by apply process_word64 |].
  intros E. apply Hne. exact (process_inj _ _ _ _ L1 L2 F1 F2 E).
Qed.

Lemma process_mining_block_keeps_states_apart_witness :
  let e := {| BlockHash.mode := FAST; BlockHash.state := 1%positive;
              BlockHash.buffer := [] |} in
  let σ1 : heap := {[ 1%positive := BlockHash.MINING_CONSTANTS ]} in
  let σ2 : heap := {[ 1%positive := [0; 0; 0; 0] ]} in
  engine_ok σ1 e BlockHash.MINING_CONSTANTS
  /\ engine_ok σ2 e [0; 0; 0; 0]
  /\ length (repeat x00 64) = 64%nat
  /\ BlockHash.MINING_CONSTANTS <> [0; 0; 0; 0]
  /\ exists (σ1' σ2' : heap) (ws1' ws2' : list Z),
       BlockHash._process_mining_block e (repeat x00 64) σ1 = Ok (tt, σ1')
       /\ BlockHash._process_mining_block e (repeat x00 64) σ2 = Ok (tt, σ2')
       /\ σ1' !! BlockHash.state e = Some ws1'
       /\ σ2' !! BlockHash.state e = Some ws2'
       /\ Forall Words.word64 ws1' /\ Forall Words.word64 ws2'
       /\ ws1' <> ws2'.
Proof.
  intros e σ1 σ2.
  assert (H1 : engine_ok σ1 e BlockHash.MINING_CONSTANTS)
    by engine_ok_by_evaluation.
  assert (H2 : engine_ok σ2 e [0; 0; 0; 0]) by engine_ok_by_evaluation.
  assert (H3 : length (repeat x00 64) = 64%nat) by reflexivity.
  assert (H4 : BlockHash.MINING_CONSTANTS <> [0; 0; 0; 0]) by discriminate.
  repeat (split; [assumption |]).
  exact (process_mining_block_keeps_states_apart e (repeat x00 64) σ1 σ2
           _ _ H1 H2 H3 H4).
Defined.

(** ** X4 *)

(** X4: [update] on a live engine succeeds, keeps the mode and the same
    state list object, absorbs every full 64-byte block of the old buffer
    followed by the new bytes and buffers the rest, so that fewer than 64
    bytes stay buffered, namely (old buffer length + data length) mod 64.
    The state words it leaves are those of running the block step
    [_process_mining_block] on each full block in turn, first to last;
    they remain four 64-bit words and no other list object of the store
    changes. *)
Theorem update_keeps_the_buffer_short
        (self : BlockHash.t) (data : bytes) (σ : heap) (ws : list Z) :
  engine_ok σ self ws ->
  exists (self' : BlockHash.t) (σ' : heap) (ws' : list Z),
    BlockHash.update self (PyBytes data) σ = Ok (self', σ')
    /\ BlockHash.mode self' = BlockHash.mode self
    /\ BlockHash.state self' = BlockHash.state self
    /\ BlockHash.buffer self'
       = drop (64 * (length (BlockHash.buffer self ++ data) / 64))
              (BlockHash.buffer self ++ data)
    /\ length (BlockHash.buffer self')
       = ((length (BlockHash.buffer self) + length data) mod 64)%nat
    /\ (length (BlockHash.buffer self') < 64)%nat
    (* the words after the full blocks, one block step each *)
    /\ ws' = Words.absorb (BlockHash.mode self)
                          (length (BlockHash.buffer self ++ data) / 64)
                          (BlockHash.buffer self ++ data) ws
    /\ (forall block : bytes,
          length block = 64%nat ->
          in_place (BlockHash.state self)
                   (BlockHash._process_mining_block self block)
                   (Words.process (BlockHash.mode self) block))
    /\ engine_ok σ' self' ws'
    /\ (forall r, r <> BlockHash.state self -> σ' !! r = σ !! r).
Proof.
  intros (Hr & Hlen & HF).
  eexists _, _, _. split; [apply update_bytes_run; done |].
  cbn [BlockHash.set_buffer BlockHash.mode BlockHash.state BlockHash.buffer].
  split; [reflexivity |]. split; [reflexivity |]. split; [reflexivity |].
  split; [rewrite leftover_length_mod, length_app; reflexivity |].
  split; [apply leftover_length |].
  split; [reflexivity |].
  split; [intros block Hb; by apply process_mining_block_in_place |].
  split.
  - repeat split;
      [apply lookup_insert_eq | by rewrite absorb_length
       | by apply absorb_word64].
  - intros r Hne. rewrite lookup_insert_ne by done. reflexivity.
Qed.

Lemma update_keeps_the_buffer_short_witness :
  let e := {| BlockHash.mode := STANDARD; BlockHash.state := 1%positive;
              BlockHash.buffer := [x01; x02] |} in
  let σ : heap := {[ 1%positive := BlockHash.MINING_CONSTANTS ]} in
  engine_ok σ e BlockHash.MINING_CONSTANTS
  /\ exists (self' : BlockHash.t) (σ' : heap) (ws' : list Z),
       BlockHash.update e (PyBytes (repeat x61 70)) σ = Ok (self', σ')
       /\ BlockHash.buffer self'
          = drop (64 * (length (BlockHash.buffer e ++ repeat x61 70) / 64))
                 (BlockHash.buffer e ++ repeat x61 70)
       /\ length (BlockHash.buffer self')
          = ((length (BlockHash.buffer e) + length (repeat x61 70)) mod 64)%nat
       /\ ws' = Words.absorb (BlockHash.mode e)
                             (length (BlockHash.buffer e ++ repeat x61 70) / 64)
                             (BlockHash.buffer e ++ repeat x61 70)
                             BlockHash.MINING_CONSTANTS
       /\ ws' <> BlockHash.MINING_CONSTANTS
       /\ engine_ok σ' self' ws'.
Proof.
  intros e σ.
  assert (H : engine_ok σ e BlockHash.MINING_CONSTANTS)
    by engine_ok_by_evaluation.
  split; [exact H |].
  destruct (update_keeps_the_buffer_short e (repeat x61 70) σ _ H)
    as (self' & σ' & ws' & E & _ & _ & Eb & El & _ & Ews & _ & Hok & _).
  exists self', σ', ws'.
  split; [exact E |]. split; [exact Eb |]. split; [exact El |].
  split; [exact Ews |]. split; [| exact Hok].
  rewrite Ews. vm_compute. discriminate.
Defined.

(** ** X5 *)

(** X5: the zero padding of [_finalize_mining] carries no length, so zero
    bytes appended inside the last, partly filled block do not change the
    digest: when the length of [data] is not a multiple of 64 and [k] zero
    bytes still fit into its last block, [hash_bytes] of [data] followed by
    the [k] zero bytes returns the digest of [data], in every mode. *)
Theorem trailing_zero_bytes_collide
        (data : bytes) (k : nat) (m : MiningMode) (σ σ' : heap) :
  (length data mod 64 <> 0)%nat ->
  (length data mod 64 + k <= 64)%nat ->
  exists h : string,
    returns (smhash.hash_bytes data m) σ h
    /\ returns (smhash.hash_bytes (data ++ repeat x00 k) m) σ' h.
Proof.
  intros Hne Hk. exists (Words.digest_of m data).
  split; [apply hash_bytes_run |].
  rewrite <- (digest_of_trailing_zeros m data k Hne Hk).
  apply hash_bytes_run.
Qed.

Lemma trailing_zero_bytes_collide_witness :
  (length [x61] mod 64 <> 0)%nat
  /\ (length [x61] mod 64 + 1 <= 64)%nat
  /\ exists h : string,
       returns (smhash.hash_bytes [x61] STANDARD) ∅ h
       /\ returns (smhash.hash_bytes ([x61] ++ repeat x00 1) STANDARD) ∅ h.
Proof.
  assert (H1 : (length [x61] mod 64 <> 0)%nat) by (simpl; lia).
  assert (H2 : (length [x61] mod 64 + 1 <= 64)%nat) by (simpl; lia).
  split; [exact H1 |]. split; [exact H2 |].
  exact (trailing_zero_bytes_collide [x61] 1 STANDARD ∅ ∅ H1 H2).
Defined.

(** ** X6 *)

(** X6: [hash_with_nonce] never raises: for every byte string, every
    integer nonce (negative or wider than 64 bits included), every mode and
    every store it returns a string of 64 lowercase hexadecimal
    characters, and the string does not depend on the store it ran in. *)
Theorem hash_with_nonce_is_total
        (data : bytes) (nonce : Z) (m : MiningMode) (σ : heap) :
  exists h : string,
    returns (BlockHash.hash_with_nonce data nonce m) σ h
    /\ String.length h = 64%nat
    /\ lower_hex_string h
    /\ forall σ0 : heap, returns (BlockHash.hash_with_nonce data nonce m) σ0 h.
Proof.
  exists (Words.nonce_digest m data nonce).
  split; [apply hash_with_nonce_run |].
  split; [apply nonce_digest_length |].
  split; [apply bytes_hex_lower |].
  intros σ0. apply hash_with_nonce_run.
Qed.

(** ** X7 *)

(** X7: [verify_block] always returns, and it returns [True] exactly when
    the expected hash is the digest [hash_with_nonce] computes for the
    header and nonce in SECURE mode. *)
Theorem verify_block_accepts_the_secure_digest
        (block_header : bytes) (nonce : Z) (expected_hash : string)
        (σ : heap) :
  exists answer : bool,
    returns (smhash.verify_block block_header nonce expected_hash) σ answer
    /\ (answer = true
        <-> returns (BlockHash.hash_with_nonce block_header nonce SECURE) σ
                    expected_hash).
Proof.
  eexists. split; [apply verify_block_run |].
  split.
  - intros E. apply String.eqb_eq in E. rewrite <- E.
    apply hash_with_nonce_run.
  - intros Hret. apply String.eqb_eq.
    exact (returns_functional _ _ _ _ (hash_with_nonce_run _ _ _ σ) Hret).
Qed.

(** ** X8 *)

(** X8: the degenerate searches of [mine_block]. A target count that does
    not fit an index, below [-2^63] or at least [2^63], makes
    ['0' * target_zeros] raise [OverflowError] before any nonce is tried,
    whatever the bound. For a count that fits: with a bound [max_nonce] of
    zero or less nothing is tried and the failure pair [(-1, "")] comes
    back; with a target of zero or fewer zeros and a bound of at least one,
    nonce 0 is accepted with whatever digest it has. *)
Theorem mine_block_degenerate_searches
        (block_header : bytes) (target_zeros max_nonce : Z) (σ : heap) :
  (target_zeros < - 2 ^ 63 \/ 2 ^ 63 <= target_zeros ->
   smhash.mine_block block_header target_zeros max_nonce σ
   = Raise OverflowError)
  /\ (- 2 ^ 63 <= target_zeros < 2 ^ 63 -> max_nonce <= 0 ->
      returns (smhash.mine_block block_header target_zeros max_nonce) σ
              (-1, EmptyString))
  /\ (- 2 ^ 63 <= target_zeros <= 0 -> 1 <= max_nonce ->
      exists h : string,
        returns (smhash.mine_block block_header target_zeros max_nonce) σ
                (0, h)
        /\ returns (BlockHash.hash_with_nonce block_header 0 FAST) σ h).
Proof.
  split; [apply mine_block_overflow |]. split.
  - intros Hk HN.
    pose proof (mine_block_run block_header target_zeros max_nonce σ Hk) as H.
    replace (Z.to_nat max_nonce) with 0%nat in H by lia.
    exact H.
  - intros Hk HN.
    pose proof (mine_block_run block_header target_zeros max_nonce σ
                  ltac:(lia)) as H.
    destruct (Z.to_nat max_nonce) as [|c] eqn:E; [lia |].
    cbn [range_from first_hit] in H.
    unfold repeated in H.
    replace (Z.to_nat target_zeros) with 0%nat in H by lia.
    cbn [repeat string_of_list_ascii] in H.
    unfold startswith in H.
    assert (P : forall s, String.prefix EmptyString s = true)
      by (intros []; reflexivity).
    rewrite P in H. cbn [block_result] in H.
    eexists. split; [exact H | apply hash_with_nonce_run].
Qed.

Lemma mine_block_degenerate_searches_witness :
  (2 ^ 64 < - 2 ^ 63 \/ 2 ^ 63 <= 2 ^ 64)
  /\ - 2 ^ 63 <= 3 < 2 ^ 63 /\ 0 <= 0
  /\ - 2 ^ 63 <= 0 <= 0 /\ 1 <= 5
  /\ smhash.mine_block [x61] (2 ^ 64) 5 ∅ = Raise OverflowError
  /\ returns (smhash.mine_block [x61] 3 0) ∅ (-1, EmptyString)
  /\ exists h : string,
       returns (smhash.mine_block [x61] 0 5) ∅ (0, h)
       /\ returns (BlockHash.hash_with_nonce [x61] 0 FAST) ∅ h.
Proof.
  assert (H0 : 2 ^ 64 < - 2 ^ 63 \/ 2 ^ 63 <= 2 ^ 64) by lia.
  assert (H1 : - 2 ^ 63 <= 3 < 2 ^ 63) by lia.
  assert (H2 : 0 <= 0) by lia.
  assert (H3 : - 2 ^ 63 <= 0 <= 0) by lia.
  assert (H4 : 1 <= 5) by lia.
  split; [exact H0 |]. split; [exact H1 |]. split; [exact H2 |].
  split; [exact H3 |]. split; [exact H4 |].
  split; [| split].
  - exact (proj1 (mine_block_degenerate_searches [x61] (2 ^ 64) 5 ∅) H0).
  - exact (proj1 (proj2 (mine_block_degenerate_searches [x61] 3 0 ∅)) H1 H2).
  - exact (proj2 (proj2 (mine_block_degenerate_searches [x61] 0 5 ∅)) H3 H4).
Defined.

(** ** X9 *)

(** X9: a digest has 64 characters, so a target of more than 64 zeros can
    never be met: for such a target in the index range of
    ['0' * target_zeros], [64 < target_zeros < 2^63], [mine_block] tries
    the whole range and returns the failure pair [(-1, "")], whatever the
    header and the bound. *)
Theorem mine_block_cannot_meet_long_targets
        (block_header : bytes) (target_zeros max_nonce : Z) (σ : heap) :
  64 < target_zeros < 2 ^ 63 ->
  returns (smhash.mine_block block_header target_zeros max_nonce) σ
          (-1, EmptyString).
Proof.
  intros Hk.
  pose proof (mine_block_run block_header target_zeros max_nonce σ
                ltac:(lia)) as H.
  rewrite first_hit_never in H; [exact H |].
  intros n. unfold startswith.
  destruct (String.prefix _ _) eqn:E; [| reflexivity].
  apply prefix_length in E.
  rewrite repeated_length, nonce_digest_length in E. lia.
Qed.

Lemma mine_block_cannot_meet_long_targets_witness :
  64 < 65 < 2 ^ 63
  /\ returns (smhash.mine_block [x61] 65 1000) ∅ (-1, EmptyString).
Proof.
  assert (H : 64 < 65 < 2 ^ 63) by lia.
  split; [exact H |].
  exact (mine_block_cannot_meet_long_targets [x61] 65 1000 ∅ H).
Defined.

(** ** X10 *)

(** X10: [hash_block_header] never returns a digest. When one of the four
    integer fields is outside [0 .. 2^32 - 1] the packing raises
    [struct.error]; otherwise the packing succeeds and the call of
    [self.hash_bytes], an attribute the class does not have, raises
    [AttributeError]. *)
Theorem hash_block_header_always_raises
        (self : BlockHash.t) (version : Z) (prev_hash merkle_root : bytes)
        (timestamp bits nonce : Z) (σ : heap) :
  (BlockHash.hash_block_header self version prev_hash merkle_root
                               timestamp bits nonce σ
   = Raise AttributeError
   /\ 0 <= version <= 0xFFFFFFFF /\ 0 <= timestamp <= 0xFFFFFFFF
   /\ 0 <= bits <= 0xFFFFFFFF /\ 0 <= nonce <= 0xFFFFFFFF)
  \/ (BlockHash.hash_block_header self version prev_hash merkle_root
                                  timestamp bits nonce σ
      = Raise StructError
      /\ ~ (0 <= version <= 0xFFFFFFFF /\ 0 <= timestamp <= 0xFFFFFFFF
            /\ 0 <= bits <= 0xFFFFFFFF /\ 0 <= nonce <= 0xFFFFFFFF)).
Proof.
  destruct (decide (0 <= version <= 0xFFFFFFFF /\ 0 <= timestamp <= 0xFFFFFFFF
                    /\ 0 <= bits <= 0xFFFFFFFF /\ 0 <= nonce <= 0xFFFFFFFF))
    as [Hin|Hout].
  - left. split; [| exact Hin]. destruct Hin as (Hv & Ht & Hb & Hn).
    unfold BlockHash.hash_block_header, bindM, lift.
    rewrite (pack_header_Ok _ prev_hash merkle_root _ _ _ Hv Ht Hb Hn).
    reflexivity.
  - right. split; [| exact Hout].
    unfold BlockHash.hash_block_header, bindM, lift.
    rewrite pack_header_error by exact Hout. reflexivity.
Qed.

(** ** X11 *)

(** X11: [reset] forgets everything: after any [update] on a live engine,
    [reset] followed by a second [update] and [hexdigest] returns the
    digest that [hash_bytes] gives for the second input alone, in the
    engine's mode; the list object the engine used before [reset] is left
    in the store untouched by what follows. *)
Theorem reset_starts_over
        (self : BlockHash.t) (a b : bytes) (σ : heap) (ws : list Z) :
  engine_ok σ self ws ->
  exists (h : string) (e : BlockHash.t) (σ' : heap) (ws_a : list Z),
    (e1 <~ BlockHash.update self (PyBytes a) ;;
     e2 <~ BlockHash.reset e1 ;;
     e3 <~ BlockHash.update e2 (PyBytes b) ;;
     BlockHash.hexdigest e3) σ = Ok ((h, e), σ')
    /\ (forall σ0, returns (smhash.hash_bytes b (BlockHash.mode self)) σ0 h)
    /\ BlockHash.update self (PyBytes a) σ
       = Ok (BlockHash.set_buffer self
               (Words.leftover (BlockHash.buffer self ++ a)),
             <[BlockHash.state self := ws_a]> σ)
    /\ σ' !! BlockHash.state self = Some ws_a.
Proof.
  intros (Hr & Hlen & HF).
  pose proof (update_bytes_run self a σ ws Hr Hlen) as U1.
  set (m := BlockHash.mode self) in *.
  set (ws_a := Words.absorb m (Words.blocks_in (BlockHash.buffer self ++ a))
                            (BlockHash.buffer self ++ a) ws) in *.
  set (σ1 := <[BlockHash.state self := ws_a]> σ) in *.
  set (r := fresh (dom σ1)).
  assert (Hne : BlockHash.state self <> r).
  { apply (fresh_differs σ1 _ ws_a). apply lookup_insert_eq. }
  set (ws_b := Words.absorb m (Words.blocks_in b) b BlockHash.MINING_CONSTANTS).
  assert (U2 : BlockHash.update
                 {| BlockHash.mode := m; BlockHash.state := r;
                    BlockHash.buffer := [] |} (PyBytes b)
                 (<[r := BlockHash.MINING_CONSTANTS]> σ1)
               = Ok ({| BlockHash.mode := m; BlockHash.state := r;
                        BlockHash.buffer := Words.leftover b |},
                     <[r := ws_b]> σ1)).
  { rewrite (update_bytes_run _ b _ BlockHash.MINING_CONSTANTS);
      [| apply lookup_insert_eq | reflexivity].
    cbn [BlockHash.set_buffer BlockHash.mode BlockHash.state
           BlockHash.buffer app].
    rewrite insert_insert_eq. reflexivity. }
  assert (Hok : engine_ok (<[r := ws_b]> σ1)
                  {| BlockHash.mode := m; BlockHash.state := r;
                     BlockHash.buffer := Words.leftover b |} ws_b).
  { repeat split.
    - apply lookup_insert_eq.
    - unfold ws_b. by rewrite absorb_length.
    - apply absorb_word64; apply MINING_CONSTANTS_ok. }
  pose proof (hexdigest_run _ _ ws_b Hok
                ltac:(pose proof (leftover_length b); simpl; lia)) as D.
  eexists _, _, _, ws_a. split.
  { rewrite (bindM_run _ _ _ _ _ U1).
    rewrite (bindM_run _ _ _ _ _ (reset_run _ σ1)).
    cbn [BlockHash.set_buffer BlockHash.mode].
    fold m r. rewrite (bindM_run _ _ _ _ _ U2). exact D. }
  split; [intros σ0; apply hash_bytes_run |].
  split; [exact U1 |].
  cbn [BlockHash.mode BlockHash.state BlockHash.buffer].
  assert (Hne2 : BlockHash.state self <> fresh (dom (<[r := ws_b]> σ1))).
  { apply (fresh_differs _ _ ws_a).
    rewrite lookup_insert_ne by done. apply lookup_insert_eq. }
  rewrite !lookup_insert_ne by done. apply lookup_insert_eq.
Qed.

Lemma reset_starts_over_witness :
  let e := {| BlockHash.mode := SECURE; BlockHash.state := 1%positive;
              BlockHash.buffer := [] |} in
  let σ : heap := {[ 1%positive := BlockHash.MINING_CONSTANTS ]} in
  engine_ok σ e BlockHash.MINING_CONSTANTS
  /\ exists (h : string) (e' : BlockHash.t) (σ' : heap),
       (e1 <~ BlockHash.update e (PyBytes [x61]) ;;
        e2 <~ BlockHash.reset e1 ;;
        e3 <~ BlockHash.update e2 (PyBytes [x62]) ;;
        BlockHash.hexdigest e3) σ = Ok ((h, e'), σ')
       /\ (forall σ0, returns (smhash.hash_bytes [x62] SECURE) σ0 h).
Proof.
  intros e σ.
  assert (H : engine_ok σ e BlockHash.MINING_CONSTANTS)
    by engine_ok_by_evaluation.
  split; [exact H |].
  destruct (reset_starts_over e [x61] [x62] σ _ H)
    as (h & e' & σ' & ws_a & E & Hh & _).
  exists h, e', σ'. split; [exact E | exact Hh].
Defined.

(** ** X12 *)

(** X12: [digest] spares the engine, not the list object. On a reachable
    engine it finalizes the list [state] names in place and then binds
    [state] to the copy taken before: afterwards the engine names a list
    object that did not exist before the call, while the old object, which
    any alias taken before the call still names, holds the finalized
    words, the ones whose big-endian bytes were returned. *)
Theorem digest_rewrites_the_old_state_list
        (self : BlockHash.t) (σ : heap) (ws : list Z) :
  engine_reachable σ self ws ->
  exists (out : bytes) (self' : BlockHash.t) (σ' : heap) (final : list Z),
    BlockHash.digest self σ = Ok ((out, self'), σ')
    /\ BlockHash.state self' <> BlockHash.state self
    /\ σ !! BlockHash.state self' = None
    /\ σ' !! BlockHash.state self' = Some ws
    /\ σ' !! BlockHash.state self = Some final
    /\ BlockHash.join_words final = Ok out
    /\ length out = 32%nat
    /\ final = Words.mix_at 1 3 (Words.mix_at 0 2
                 (match BlockHash.buffer self with
                  | [] => ws
                  | _ :: _ =>
                      Words.process (BlockHash.mode self)
                        (Words.zero_pad (BlockHash.buffer self)) ws
                  end)).
Proof.
  intros [Hok Hb]. pose proof Hok as (Hr & Hlen & HF).
  pose proof (digest_run self σ ws Hok ltac:(lia)) as E.
  assert (Hne : BlockHash.state self <> fresh (dom σ))
    by (eapply fresh_differs; eauto).
  eexists _, _, _, _. split; [exact E |].
  cbn [BlockHash.set_state BlockHash.state].
  split; [intros E'; apply Hne; symmetry; exact E' |].
  split; [apply fresh_unused |].
  split; [rewrite lookup_insert_ne by done; apply lookup_insert_eq |].
  split; [apply lookup_insert_eq |].
  split; [apply join_words_Ok, finalize_word64; done |].
  split; [rewrite words_bytes_length, finalize_length, Hlen; reflexivity |].
  reflexivity.
Qed.

Lemma digest_rewrites_the_old_state_list_witness :
  let e := {| BlockHash.mode := FAST; BlockHash.state := 1%positive;
              BlockHash.buffer := [x61] |} in
  let σ : heap := {[ 1%positive := BlockHash.MINING_CONSTANTS ]} in
  engine_reachable σ e BlockHash.MINING_CONSTANTS
  /\ exists (out : bytes) (self' : BlockHash.t) (σ' : heap) (final : list Z),
       BlockHash.digest e σ = Ok ((out, self'), σ')
       /\ BlockHash.state self' <> BlockHash.state e
       /\ σ' !! BlockHash.state self' = Some BlockHash.MINING_CONSTANTS
       /\ σ' !! BlockHash.state e = Some final
       /\ BlockHash.join_words final = Ok out.
Proof.
  intros e σ.
  assert (H : engine_reachable σ e BlockHash.MINING_CONSTANTS)
    by engine_reachable_by_evaluation.
  split; [exact H |].
  destruct (digest_rewrites_the_old_state_list e σ _ H)
    as (out & self' & σ' & final & E & Hne & _ & Hnew & Hold & Hj & _).
  exists out, self', σ', final.
  split; [exact E |]. split; [exact Hne |]. split; [exact Hnew |].
  split; [exact Hold | exact Hj].
Defined.

(** ** X13 *)

(** X13: [hash_string] is [hash_bytes] of the UTF-8 encoding. When the
    text encodes to [data], [hash_string] of the text and [hash_bytes] of
    [data] return the same digest in every mode; when the encoding raises
    (a lone surrogate), [hash_string] raises the same exception. *)
Theorem hash_string_hashes_the_utf8_bytes
        (text : pystr) (m : MiningMode) (σ σ' : heap) :
  (forall data : bytes,
     utf8_encode text = Ok data ->
     exists h : string,
       returns (smhash.hash_string text m) σ h
       /\ returns (smhash.hash_bytes data m) σ' h)
  /\ (forall e : exn,
        utf8_encode text = Raise e ->
        smhash.hash_string text m σ = Raise e).
Proof.
  split.
  - intros data E. exists (Words.digest_of m data).
    split; [apply hash_string_run; exact E | apply hash_bytes_run].
  - intros e E. unfold smhash.hash_string.
    rewrite (bindM_run _ _ _ _ _ (init_run m σ)).
    unfold BlockHash.update, bindM, lift. rewrite E. reflexivity.
Qed.

Lemma hash_string_hashes_the_utf8_bytes_witness :
  utf8_encode [0xE9%N] = Ok [xc3; xa9]
  /\ utf8_encode [0xD800%N] = Raise UnicodeEncodeError
  /\ (exists h : string,
        returns (smhash.hash_string [0xE9%N] STANDARD) ∅ h
        /\ returns (smhash.hash_bytes [xc3; xa9] STANDARD) ∅ h)
  /\ smhash.hash_string [0xD800%N] STANDARD ∅ = Raise UnicodeEncodeError.
Proof.
  assert (H1 : utf8_encode [0xE9%N] = Ok [xc3; xa9])
    by (vm_compute; reflexivity).
  assert (H2 : utf8_encode [0xD800%N] = Raise UnicodeEncodeError)
    by (vm_compute; reflexivity).
  split; [exact H1 |]. split; [exact H2 |]. split.
  - exact (proj1 (hash_string_hashes_the_utf8_bytes [0xE9%N] STANDARD ∅ ∅)
             _ H1).
  - exact (proj2 (hash_string_hashes_the_utf8_bytes [0xD800%N] STANDARD ∅ ∅)
             _ H2).
Defined.

(** ** X14 *)

(** X14: for a message of [L] bytes with [8 L < 2 ^ 64], [_pad_message]
    returns the message, one byte [0x80], fewer than 64 zero bytes and the
    eight bytes of [8 L], in that order and nothing else; the padded length
    is [64 * ((L + 8) / 64 + 1)], the least multiple of 64 that holds the
    message, the marker byte and the length field. *)
Theorem pad_message_layout (message : bytes) :
  Z.of_nat (length message) * 8 < 2 ^ 64 ->
  exists zeros : nat,
    (zeros < 64)%nat
    /\ SHA256._pad_message message
       = Ok (message ++ [x80] ++ repeat x00 zeros
             ++ be_bytes 8 (Z.of_nat (length message) * 8))
    /\ (length message + 1 + zeros + 8
        = 64 * ((length message + 8) / 64 + 1))%nat.
Proof.
  intros Hlen. exists (pad_need (message ++ [x80])).
  split; [apply pad_need_bound |]. split.
  - rewrite (pad_message_run message Hlen), <- !app_assoc. reflexivity.
  - apply padded_length_formula; [apply pad_need_bound |].
    pose proof (pad_need_length (message ++ [x80])) as H.
    rewrite length_app in H. exact H.
Qed.

Lemma pad_message_layout_witness :
  Z.of_nat (length (repeat x61 56)) * 8 < 2 ^ 64
  /\ exists zeros : nat,
       (zeros < 64)%nat
       /\ SHA256._pad_message (repeat x61 56)
          = Ok (repeat x61 56 ++ [x80] ++ repeat x00 zeros
                ++ be_bytes 8 (Z.of_nat (length (repeat x61 56)) * 8))
       /\ (length (repeat x61 56) + 1 + zeros + 8
           = 64 * ((length (repeat x61 56) + 8) / 64 + 1))%nat.
Proof.
  assert (H : Z.of_nat (length (repeat x61 56)) * 8 < 2 ^ 64)
    by (vm_compute; reflexivity).
  split; [exact H |].
  exact (pad_message_layout (repeat x61 56) H).
Defined.

(** ** X15 *)

(** X15: [_pad_message] never cuts the length field short. It returns a
    padded message exactly when the bit length [8 L] fits 64 bits; for any
    longer message [to_bytes(8, 'big')] raises [OverflowError], and so
    does [hash]. *)
Theorem pad_message_refuses_long_messages
        (self : SHA256.t) (message : bytes) :
  ((exists padded, SHA256._pad_message message = Ok padded)
   <-> Z.of_nat (length message) * 8 < 2 ^ 64)
  /\ (SHA256._pad_message message = Raise OverflowError
      <-> 2 ^ 64 <= Z.of_nat (length message) * 8)
  /\ (SHA256.hash self message = Raise OverflowError
      <-> 2 ^ 64 <= Z.of_nat (length message) * 8).
Proof.
  destruct (Z.lt_ge_cases (Z.of_nat (length message) * 8) (2 ^ 64))
    as [Hlt|Hge].
  - pose proof (pad_message_run message Hlt) as E.
    destruct (hash_run self message Hlt) as (s & self' & Eh & _).
    split; [split; [done | eauto] |].
    split; (split; [intros H | lia]).
    + rewrite E in H. discriminate.
    + rewrite Eh in H. discriminate.
  - pose proof (pad_message_overflow message Hge) as E.
    pose proof (hash_overflow self message Hge) as Eh.
    split; [split; [| lia] |].
    + intros [padded H]. rewrite E in H. discriminate.
    + split; (split; [lia | done]).
Qed.

(** ** X16 *)

(** X16: [_process_block] keeps the object well formed on any block, of
    any length. From eight state words and the 64 round constants it
    returns without an error, with eight state words all below [2 ^ 32]
    and the constants untouched; when [self.h] does not hold exactly eight
    words the unpacking raises [ValueError]. *)
Theorem process_block_keeps_eight_words (self : SHA256.t) (block : bytes) :
  (length (SHA256.h self) = 8%nat -> length (SHA256.k self) = 64%nat ->
   exists self' : SHA256.t,
     SHA256._process_block self block = Ok self'
     /\ length (SHA256.h self') = 8%nat
     /\ Forall word32 (SHA256.h self')
     /\ SHA256.k self' = SHA256.k self)
  /\ (length (SHA256.h self) <> 8%nat ->
      SHA256._process_block self block = Raise ValueError).
Proof.
  split.
  - intros Hh Hk. apply process_block_run; done.
  - apply process_block_bad_state.
Qed.

Lemma process_block_keeps_eight_words_witness :
  length (SHA256.h SHA256.__init__) = 8%nat
  /\ length (SHA256.k SHA256.__init__) = 64%nat
  /\ length (@nil Z) <> 8%nat
  /\ (exists self' : SHA256.t,
        SHA256._process_block SHA256.__init__ [x61; x62; x63] = Ok self'
        /\ length (SHA256.h self') = 8%nat
        /\ Forall word32 (SHA256.h self')
        /\ SHA256.k self' = SHA256.k SHA256.__init__)
  /\ SHA256._process_block
       {| SHA256.h := []; SHA256.k := SHA256.k SHA256.__init__ |} []
     = Raise ValueError.
Proof.
  assert (H1 : length (SHA256.h SHA256.__init__) = 8%nat) by reflexivity.
  assert (H2 : length (SHA256.k SHA256.__init__) = 64%nat) by reflexivity.
  assert (H3 : length (@nil Z) <> 8%nat) by discriminate.
  split; [exact H1 |]. split; [exact H2 |]. split; [exact H3 |]. split.
  - exact (proj1 (process_block_keeps_eight_words SHA256.__init__
                    [x61; x62; x63]) H1 H2).
  - exact (proj2 (process_block_keeps_eight_words
                    {| SHA256.h := []; SHA256.k := SHA256.k SHA256.__init__ |}
                    []) H3).
Defined.

(** ** X17 *)

(** X17: [_sha256_functions] computes the two SHA-256 bit functions on
    Python's unbounded integers. With ["Ch"], every bit of the result is
    the bit of [y] where [x] has a one and the bit of [z] where it has a
    zero, although [~x] is negative, and the result is a 32-bit word when
    [y] and [z] are. With any other operation name, every bit is the
    majority of the three. *)
Theorem sha256_functions_bits (x y z i : Z) (operation : string) :
  0 <= i ->
  Z.testbit (SHA256._sha256_functions x y z "Ch") i
  = (if Z.testbit x i then Z.testbit y i else Z.testbit z i)
  /\ (word32 y -> word32 z -> word32 (SHA256._sha256_functions x y z "Ch"))
  /\ (operation <> "Ch"%string ->
      Z.testbit (SHA256._sha256_functions x y z operation) i
      = (Z.testbit x i && Z.testbit y i
         || Z.testbit x i && Z.testbit z i
         || Z.testbit y i && Z.testbit z i)%bool).
Proof.
  intros Hi. split; [apply ch_testbit; exact Hi |].
  split; [apply ch_word32 |].
  intros Hne. apply maj_testbit; done.
Qed.

Lemma sha256_functions_bits_witness :
  0 <= 3
  /\ Z.testbit (SHA256._sha256_functions 0xF0 0xCC 0xAA "Ch") 3
     = (if Z.testbit 0xF0 3 then Z.testbit 0xCC 3 else Z.testbit 0xAA 3).
Proof.
  assert (H : 0 <= 3) by lia.
  split; [exact H |].
  exact (proj1 (sha256_functions_bits 0xF0 0xCC 0xAA 3 "Maj" H)).
Defined.

(** ** X18 *)

(** X18: on a 32-bit word and a count strictly between 0 and 32,
    [_right_rotate] is a rotation: the result is a 32-bit word whose bit
    [i] is bit [i + n] of the word, counted modulo 32, and rotating on by
    [32 - n] gives the word back. *)
Theorem right_rotate_is_a_rotation (x n : Z) :
  word32 x -> 0 < n < 32 ->
  word32 (SHA256._right_rotate x n)
  /\ (forall i, 0 <= i < 32 ->
                Z.testbit (SHA256._right_rotate x n) i
                = Z.testbit x ((i + n) mod 32))
  /\ SHA256._right_rotate (SHA256._right_rotate x n) (32 - n) = x.
Proof.
  intros Hx Hn. split; [apply right_rotate_word32 |]. split.
  - intros i Hi. apply right_rotate_testbit; done.
  - apply right_rotate_back; done.
Qed.

Lemma right_rotate_is_a_rotation_witness :
  word32 0x6a09e667 /\ 0 < 7 < 32
  /\ SHA256._right_rotate (SHA256._right_rotate 0x6a09e667 7) (32 - 7)
     = 0x6a09e667.
Proof.
  assert (Hx : word32 0x6a09e667) by (unfold word32; lia).
  assert (Hn : 0 < 7 < 32) by lia.
  split; [exact Hx |]. split; [exact Hn |].
  exact (proj2 (proj2 (right_rotate_is_a_rotation 0x6a09e667 7 Hx Hn))).
Defined.

(** ** X19 *)

(** X19: [mine_smhash_hash] with a count [k] of zeros that does not fit an
    index, below [-2^63] or at least [2^63], raises [OverflowError] at
    ['0' * num_zeros], before any nonce is tried. With a count that fits
    and a text that encodes to UTF-8 it ends with one final line after its
    progress lines. Either it is the success line for a nonce [n] below
    the bound, with the digest of the text followed by [n], which has the
    [k] leading zeros while no smaller nonce's digest has them; or it is
    the failure line, and no nonce below the bound has such a digest. The
    progress lines are those of the multiples of 100000 among the nonces
    tried, in ascending order. *)
Theorem mine_smhash_hash_reports_the_first_hit
        (text : pystr) (tb : bytes) (k N : Z) (σ : heap) :
  (k < - 2 ^ 63 \/ 2 ^ 63 <= k ->
   miner.mine_smhash_hash text k N σ = Raise OverflowError)
  /\ (- 2 ^ 63 <= k < 2 ^ 63 ->
      utf8_encode text = Ok tb ->
      exists (tried : nat) (final : miner.report),
        returns (miner.mine_smhash_hash text k N) σ
                (map miner.Trying
                     (List.filter (fun j => j mod 100000 =? 0)
                                  (range_from 0 tried))
                 ++ [final])
        /\ ((exists (n : Z) (h : string),
               final = miner.Success text n h
               /\ 0 <= n < N /\ tried = Z.to_nat (n + 1)
               /\ (forall σ0,
                     returns (miner.hash_smhash_with_nonce text n) σ0 h)
               /\ leading_zeros k h
               /\ forall n' h' σ0,
                    0 <= n' < n ->
                    returns (miner.hash_smhash_with_nonce text n') σ0 h' ->
                    ~ leading_zeros k h')
            \/ (final = miner.Exhausted N /\ tried = Z.to_nat N
                /\ forall n' h' σ0,
                     0 <= n' < N ->
                     returns (miner.hash_smhash_with_nonce text n') σ0 h' ->
                     ~ leading_zeros k h'))).
Proof.
  split; [apply mine_smhash_hash_overflow |].
  intros Hk E.
  pose proof (mine_smhash_hash_run text tb k N σ E Hk) as Hrun.
  set (digest := fun n => Words.digest_of STANDARD (tb ++ decimal_bytes n))
    in *.
  assert (Hd : forall n σ0,
             returns (miner.hash_smhash_with_nonce text n) σ0 (digest n))
    by (intros n σ0; apply hash_smhash_with_nonce_run; exact E).
  destruct (first_hit digest (repeated "0" k) (range_from 0 (Z.to_nat N)))
    as [[n h]|] eqn:F.
  - apply first_hit_Some in F as (Hn & -> & Hs & Hmin).
    exists (Z.to_nat (n + 1)), (miner.Success text n (digest n)).
    cbn [search_report] in Hrun. rewrite progress_lines in Hrun.
    split; [exact Hrun |]. left. exists n, (digest n).
    split; [reflexivity |]. split; [lia |]. split; [reflexivity |].
    split; [intros σ0; apply Hd |].
    split; [by apply startswith_zeros |].
    intros n' h' σ0 Hn' Hret.
    rewrite (returns_functional _ _ _ _ Hret (Hd n' σ0)).
    apply not_startswith_zeros, Hmin. lia.
  - exists (Z.to_nat N), (miner.Exhausted N).
    cbn [search_report] in Hrun. rewrite progress_lines in Hrun.
    split; [exact Hrun |]. right.
    split; [reflexivity |]. split; [reflexivity |].
    intros n' h' σ0 Hn' Hret.
    rewrite (returns_functional _ _ _ _ Hret (Hd n' σ0)).
    apply not_startswith_zeros.
    apply (proj1 (first_hit_None _ _ _ _) F). lia.
Qed.

Lemma mine_smhash_hash_reports_the_first_hit_witness :
  (- 2 ^ 64 < - 2 ^ 63 \/ 2 ^ 63 <= - 2 ^ 64)
  /\ - 2 ^ 63 <= 1 < 2 ^ 63
  /\ utf8_encode (pystr_of_string "ab") = Ok [x61; x62]
  /\ miner.mine_smhash_hash (pystr_of_string "ab") (- 2 ^ 64) 40 ∅
     = Raise OverflowError
  /\ exists (tried : nat) (final : miner.report),
       returns (miner.mine_smhash_hash (pystr_of_string "ab") 1 40) ∅
               (map miner.Trying
                    (List.filter (fun j => j mod 100000 =? 0)
                                 (range_from 0 tried))
                ++ [final]).
Proof.
  assert (H0 : - 2 ^ 64 < - 2 ^ 63 \/ 2 ^ 63 <= - 2 ^ 64) by lia.
  assert (Hk : - 2 ^ 63 <= 1 < 2 ^ 63) by lia.
  assert (E : utf8_encode (pystr_of_string "ab") = Ok [x61; x62])
    by (vm_compute; reflexivity).
  split; [exact H0 |]. split; [exact Hk |]. split; [exact E |].
  split.
  - exact (proj1 (mine_smhash_hash_reports_the_first_hit
                    (pystr_of_string "ab") [x61; x62] (- 2 ^ 64) 40 ∅) H0).
  - destruct (proj2 (mine_smhash_hash_reports_the_first_hit
                       (pystr_of_string "ab") [x61; x62] 1 40 ∅) Hk E)
      as (tried & final & Hrun & _).
    exists tried, final. exact Hrun.
Defined.

(** ** X20 *)

(** X20: [mine_sha_256_hash] with a count [k] of zeros that does not fit
    an index, below [-2^63] or at least [2^63], raises [OverflowError] at
    ['0' * num_zeros], before any nonce is tried. With a count that fits,
    a text that encodes to UTF-8 and candidates whose bit length fits the
    64-bit length field, it returns its report without an error: progress
    lines and one final line. Either the final line is the success line
    for a nonce [n] below the bound, with the SHA-256 digest of the text
    followed by [n], which has the [k] leading zeros while no smaller
    nonce's digest has them; or it is the failure line, and no nonce below
    the bound has such a digest. *)
Theorem mine_sha_256_hash_reports_the_first_hit
        (text : pystr) (tb : bytes) (k N : Z) :
  (k < - 2 ^ 63 \/ 2 ^ 63 <= k ->
   miner.mine_sha_256_hash text k N = Raise OverflowError)
  /\ (- 2 ^ 63 <= k < 2 ^ 63 ->
      utf8_encode text = Ok tb ->
      (forall n, 0 <= n < N ->
                 Z.of_nat (length (tb ++ decimal_bytes n)) * 8 < 2 ^ 64) ->
      exists (tried : nat) (final : miner.report),
        miner.mine_sha_256_hash text k N
        = Ok (map miner.Trying
                  (List.filter (fun j => j mod 100000 =? 0)
                               (range_from 0 tried))
              ++ [final])
        /\ ((exists (n : Z) (h : string),
               final = miner.Success text n h
               /\ 0 <= n < N /\ tried = Z.to_nat (n + 1)
               /\ miner.hash_sha256_with_nonce text n = Ok h
               /\ leading_zeros k h
               /\ forall n', 0 <= n' < n ->
                    exists h', miner.hash_sha256_with_nonce text n' = Ok h'
                               /\ ~ leading_zeros k h')
            \/ (final = miner.Exhausted N /\ tried = Z.to_nat N
                /\ forall n', 0 <= n' < N ->
                     exists h', miner.hash_sha256_with_nonce text n' = Ok h'
                                /\ ~ leading_zeros k h'))).
Proof.
  split; [apply mine_sha_256_hash_overflow |].
  intros Hk E Hfit.
  pose proof (mine_sha_256_hash_run text tb k N E Hk) as Hrun.
  set (value := fun n =>
                  match SHA256.hash_bytes (tb ++ decimal_bytes n) with
                  | Ok h => h
                  | Raise _ => EmptyString
                  end).
  assert (Hd : forall n, 0 <= n < N ->
                         miner.hash_sha256_with_nonce text n = Ok (value n)).
  { intros n Hn. rewrite (hash_sha256_with_nonce_run text tb n E).
    unfold value.
    destruct (hash_bytes_Ok _ (Hfit n Hn)) as (h & -> & _). reflexivity. }
  rewrite (first_hitR_total _ value) in Hrun.
  2:{ intros n Hn. apply range_from_In in Hn.
      rewrite <- (hash_sha256_with_nonce_run text tb n E).
      apply Hd. lia. }
  cbn [bindR] in Hrun.
  destruct (first_hit value (repeated "0" k) (range_from 0 (Z.to_nat N)))
    as [[n h]|] eqn:F.
  - apply first_hit_Some in F as (Hn & -> & Hs & Hmin).
    exists (Z.to_nat (n + 1)), (miner.Success text n (value n)).
    cbn [search_report] in Hrun. rewrite progress_lines in Hrun.
    split; [exact Hrun |]. left. exists n, (value n).
    split; [reflexivity |]. split; [lia |]. split; [reflexivity |].
    split; [apply Hd; lia |].
    split; [by apply startswith_zeros |].
    intros n' Hn'. exists (value n').
    split; [apply Hd; lia |].
    apply not_startswith_zeros, Hmin. lia.
  - exists (Z.to_nat N), (miner.Exhausted N).
    cbn [search_report] in Hrun. rewrite progress_lines in Hrun.
    split; [exact Hrun |]. right.
    split; [reflexivity |]. split; [reflexivity |].
    intros n' Hn'. exists (value n').
    split; [apply Hd; lia |].
    apply not_startswith_zeros.
    apply (proj1 (first_hit_None _ _ _ _) F). lia.
Qed.

Lemma mine_sha_256_hash_reports_the_first_hit_witness :
  (2 ^ 63 < - 2 ^ 63 \/ 2 ^ 63 <= 2 ^ 63)
  /\ - 2 ^ 63 <= 1 < 2 ^ 63
  /\ utf8_encode (pystr_of_string "ab") = Ok [x61; x62]
  /\ (forall n, 0 <= n < 3 ->
                Z.of_nat (length ([x61; x62] ++ decimal_bytes n)) * 8 < 2 ^ 64)
  /\ miner.mine_sha_256_hash (pystr_of_string "ab") (2 ^ 63) 3
     = Raise OverflowError
  /\ exists (tried : nat) (final : miner.report),
       miner.mine_sha_256_hash (pystr_of_string "ab") 1 3
       = Ok (map miner.Trying
                 (List.filter (fun j => j mod 100000 =? 0)
                              (range_from 0 tried))
             ++ [final]).
Proof.
  assert (H0 : 2 ^ 63 < - 2 ^ 63 \/ 2 ^ 63 <= 2 ^ 63) by lia.
  assert (Hk : - 2 ^ 63 <= 1 < 2 ^ 63) by lia.
  assert (E : utf8_encode (pystr_of_string "ab") = Ok [x61; x62])
    by (vm_compute; reflexivity).
  assert (Hfit : forall n, 0 <= n < 3 ->
                   Z.of_nat (length ([x61; x62] ++ decimal_bytes n)) * 8
                   < 2 ^ 64).
  { intros n Hn.
    assert (Hc : n = 0 \/ n = 1 \/ n = 2) by lia.
    destruct Hc as [-> | [-> | ->]]; vm_compute; reflexivity. }
  split; [exact H0 |]. split; [exact Hk |]. split; [exact E |].
  split; [exact Hfit |]. split.
  - exact (proj1 (mine_sha_256_hash_reports_the_first_hit
                    (pystr_of_string "ab") [x61; x62] (2 ^ 63) 3) H0).
  - destruct (proj2 (mine_sha_256_hash_reports_the_first_hit
                       (pystr_of_string "ab") [x61; x62] 1 3) Hk E Hfit)
      as (tried & final & Hrun & _).
    exists tried, final. exact Hrun.
Defined.

(** ** X21 *)

(** X21: on text whose characters are code points below 256,
    [hex_to_binary] turns every hexadecimal digit, in either case, into
    four binary digits: on hexadecimal text of [n] characters it returns a
    string of [4 n] characters, each ['0'] or ['1']; on such text with any
    other character below code point 256, [int(c, 16)] raises
    [ValueError]. Text with characters from code point 256 on, among them
    the decimal digits of other scripts that [int(c, 16)] accepts, is not
    covered. *)
Theorem hex_to_binary_shape (hex_str : string) :
  (hex_string hex_str ->
   exists b : string,
     analyzer.hex_to_binary hex_str = Ok b
     /\ String.length b = (4 * String.length hex_str)%nat
     /\ binary_string b)
  /\ (~ hex_string hex_str ->
      analyzer.hex_to_binary hex_str = Raise ValueError).
Proof.
  split.
  - intros H. destruct (hex_to_binary_run hex_str H) as (b & E & L & B & _).
    exists b. split; [exact E |]. split; [exact L | exact B].
  - apply hex_to_binary_error.
Qed.

Lemma hex_to_binary_shape_witness :
  hex_string "0aF" /\ ~ hex_string "0g"
  /\ (exists b : string,
        analyzer.hex_to_binary "0aF" = Ok b
        /\ String.length b = (4 * String.length "0aF")%nat
        /\ binary_string b)
  /\ analyzer.hex_to_binary "0g" = Raise ValueError.
Proof.
  assert (H1 : hex_string "0aF").
  { unfold hex_string. cbn [list_ascii_of_string].
    repeat (apply List.Forall_cons; [reflexivity |]). apply List.Forall_nil. }
  assert (H2 : ~ hex_string "0g").
  { unfold hex_string. cbn [list_ascii_of_string]. intros H.
    apply Forall_cons in H as [_ H]. apply Forall_cons in H as [H _].
    vm_compute in H. discriminate H. }
  split; [exact H1 |]. split; [exact H2 |]. split.
  - exact (proj1 (hex_to_binary_shape "0aF") H1).
  - exact (proj2 (hex_to_binary_shape "0g") H2).
Defined.

(** ** X22 *)

(** X22: [hex_to_binary] keeps the number: read as a base-2 numeral, its
    result on hexadecimal text denotes the number the text denotes in base
    16, with the digit values [int(c, 16)] gives. *)
Theorem hex_to_binary_keeps_the_number (hex_str : string) :
  hex_string hex_str ->
  exists b : string,
    analyzer.hex_to_binary hex_str = Ok b
    /\ number_from 2 0 (bit_values b)
       = number_from 16 0 (hex_digit_values hex_str).
Proof.
  intros H. destruct (hex_to_binary_run hex_str H) as (b & E & _ & _ & V).
  exists b. split; [exact E | apply V].
Qed.

Lemma hex_to_binary_keeps_the_number_witness :
  hex_string "1f"
  /\ exists b : string,
       analyzer.hex_to_binary "1f" = Ok b
       /\ number_from 2 0 (bit_values b)
          = number_from 16 0 (hex_digit_values "1f").
Proof.
  assert (H : hex_string "1f").
  { unfold hex_string. cbn [list_ascii_of_string].
    repeat (apply List.Forall_cons; [reflexivity |]). apply List.Forall_nil. }
  split; [exact H |].
  exact (hex_to_binary_keeps_the_number "1f" H).
Defined.

(** ** X23 *)

(** X23: [hamming_distance] counts the positions, within the shorter of
    the two strings, where they differ. It is symmetric, lies between 0
    and the shorter length, ignores whatever the longer string has beyond
    the shorter one, and on strings of one length it is 0 exactly when
    they are equal. *)
Theorem hamming_distance_properties (str1 str2 extra : string) :
  analyzer.hamming_distance str1 str2 = analyzer.hamming_distance str2 str1
  /\ 0 <= analyzer.hamming_distance str1 str2
       <= Z.of_nat (Nat.min (String.length str1) (String.length str2))
  /\ ((String.length str1 <= String.length str2)%nat ->
      analyzer.hamming_distance str1 (str2 ++ extra)
      = analyzer.hamming_distance str1 str2)
  /\ (String.length str1 = String.length str2 ->
      (analyzer.hamming_distance str1 str2 = 0 <-> str1 = str2)).
Proof.
  split; [apply hamming_distance_sym |].
  split; [apply hamming_distance_bounds |].
  split; [apply hamming_distance_extra | apply hamming_distance_zero].
Qed.

Lemma hamming_distance_properties_witness :
  (String.length "0110" <= String.length "0101")%nat
  /\ String.length "0110" = String.length "0101"
  /\ analyzer.hamming_distance "0110" ("0101" ++ "111")
     = analyzer.hamming_distance "0110" "0101"
  /\ (analyzer.hamming_distance "0110" "0101" = 0 <-> "0110"%string = "0101"%string).
Proof.
  assert (H1 : (String.length "0110" <= String.length "0101")%nat)
    by (simpl; lia).
  assert (H2 : String.length "0110" = String.length "0101") by reflexivity.
  split; [exact H1 |]. split; [exact H2 |].
  pose proof (hamming_distance_properties "0110" "0101" "111")
    as (_ & _ & Hextra & Hzero).
  split; [exact (Hextra H1) | exact (Hzero H2)].
Defined.

(** ** X24 *)

(** X24: on two lowercase hexadecimal strings of one length, such as two
    digests, [bit_difference] returns a count between 0 and four times the
    length, the same in either order of the arguments, and the count is 0
    exactly when the strings are equal. *)
Theorem bit_difference_of_digests (hash1 hash2 : string) :
  lower_hex_string hash1 -> lower_hex_string hash2 ->
  String.length hash1 = String.length hash2 ->
  exists d : Z,
    analyzer.bit_difference hash1 hash2 = Ok d
    /\ analyzer.bit_difference hash2 hash1 = Ok d
    /\ 0 <= d <= 4 * Z.of_nat (String.length hash1)
    /\ (d = 0 <-> hash1 = hash2).
Proof.
  intros H1 H2 L.
  assert (Hx : forall s, lower_hex_string s -> hex_string s).
  { intros s Hs. unfold lower_hex_string, hex_string in *.
    eapply Forall_impl; [exact Hs |].
    intros c Hc. unfold is_lower_hex in Hc. unfold is_hex_digit.
    cbv zeta in *. rewrite Hc. reflexivity. }
  destruct (hex_to_binary_run hash1 (Hx _ H1)) as (b1 & E1 & L1 & _).
  destruct (hex_to_binary_run hash2 (Hx _ H2)) as (b2 & E2 & L2 & _).
  exists (analyzer.hamming_distance b1 b2).
  unfold analyzer.bit_difference. rewrite E1, E2. cbn [bindR].
  split; [reflexivity |].
  split; [rewrite (hamming_distance_sym b2 b1); reflexivity |].
  split.
  - pose proof (hamming_distance_bounds b1 b2) as B.
    rewrite L1, L2, <- L, Nat.min_id in B. lia.
  - apply (hex_to_binary_lower_zero hash1 hash2 b1 b2); assumption.
Qed.

Lemma bit_difference_of_digests_witness :
  lower_hex_string "0f" /\ lower_hex_string "ff"
  /\ String.length "0f" = String.length "ff"
  /\ exists d : Z,
       analyzer.bit_difference "0f" "ff" = Ok d
       /\ analyzer.bit_difference "ff" "0f" = Ok d
       /\ 0 <= d <= 4 * Z.of_nat (String.length "0f")
       /\ (d = 0 <-> "0f"%string = "ff"%string).
Proof.
  assert (H1 : lower_hex_string "0f").
  { unfold lower_hex_string. cbn [list_ascii_of_string].
    repeat (apply List.Forall_cons; [reflexivity |]). apply List.Forall_nil. }
  assert (H2 : lower_hex_string "ff").
  { unfold lower_hex_string. cbn [list_ascii_of_string].
    repeat (apply List.Forall_cons; [reflexivity |]). apply List.Forall_nil. }
  assert (H3 : String.length "0f" = String.length "ff") by reflexivity.
  split; [exact H1 |]. split; [exact H2 |]. split; [exact H3 |].
  exact (bit_difference_of_digests "0f" "ff" H1 H2 H3).
Defined.
